(** * Repository Planning Graph: graph substrate, grounding and tools

    A shallow embedding of the TypeScript sources of the RPG engine
    (graph/rpg.ts, encoder/grounding.ts, encoder/encoder.ts,
    tools/search.ts, tools/explore.ts, tools/fetch.ts) together with the
    properties stated about them.

    Conventions.
    - A JavaScript string is the [string] of the bytes of its UTF-8
      encoding; arrays are lists.
    - A JavaScript [Set<string>] or [Map<string, _>] whose iteration order
      is observable is a duplicate-free list in insertion order.
    - A plain object used as an open key/value bag is a [gmap].
    - A method that may throw returns a [result]. *)

From Stdlib Require Import String Ascii List ZArith Bool Lia Permutation Sorted DecimalString.
From stdpp Require Import base gmap strings.

Import ListNotations.
Local Open Scope string_scope.
Local Open Scope list_scope.

Set Default Proof Using "Type".
Set Warnings "-register-all".

(** ** JavaScript built-ins used by the sources *)

Module Js.

(** [s.split(c)] for a one-character separator: the empty string splits
    into one empty piece, and adjacent separators give empty pieces. *)
Fixpoint split (c : ascii) (s : string) : list string :=
  match s with
  | EmptyString => [EmptyString]
  | String a rest =>
      if Ascii.eqb a c then EmptyString :: split c rest
      else match split c rest with
           | piece :: pieces => String a piece :: pieces
           | [] => [String a EmptyString]
           end
  end.

(** [arr.join(sep)]. *)
Definition join (sep : string) (arr : list string) : string :=
  String.concat sep arr.

(** [s.startsWith(p)]. *)
Definition startsWith (s p : string) : bool := String.prefix p s.

(** [s.length > 0]. *)
Definition nonEmpty (s : string) : bool :=
  match s with EmptyString => false | String _ _ => true end.

(** [s.includes(t)]. *)
Fixpoint includes (s t : string) : bool :=
  String.prefix t s ||
  match s with
  | EmptyString => false
  | String _ rest => includes rest t
  end.

(** [s.replace(/\*/g, '.*')]. *)
Fixpoint replaceStars (s : string) : string :=
  match s with
  | EmptyString => EmptyString
  | String a rest =>
      if Ascii.eqb a "*"%char then String "."%char (String "*"%char (replaceStars rest))
      else String a (replaceStars rest)
  end.

(** The six low bits of a continuation byte. *)
Definition continuation (a : ascii) : N := N.land (N_of_ascii a) 63.

(** The UTF-16 code units of a code point: itself in the basic plane, a
    surrogate pair above it. *)
Definition unitsOf (codePoint : N) : list N :=
  if (codePoint <? 65536)%N then [codePoint]
  else [(55296 + (codePoint - 65536) / 1024)%N; (56320 + (codePoint - 65536) mod 1024)%N].

(** The UTF-16 code units of a string, which is what the language
    compares: the bytes are read as UTF-8, a lead byte together with its
    one, two or three continuation bytes.  A byte that starts no complete
    sequence stands for itself. *)
Fixpoint codeUnits (s : string) : list N :=
  match s with
  | EmptyString => []
  | String a rest =>
      let b := N_of_ascii a in
      if (b <? 192)%N then b :: codeUnits rest
      else if (b <? 224)%N then
        match rest with
        | String a1 r1 => unitsOf ((b - 192) * 64 + continuation a1) ++ codeUnits r1
        | _ => b :: codeUnits rest
        end
      else if (b <? 240)%N then
        match rest with
        | String a1 (String a2 r2) =>
            unitsOf (((b - 224) * 64 + continuation a1) * 64 + continuation a2)
              ++ codeUnits r2
        | _ => b :: codeUnits rest
        end
      else
        match rest with
        | String a1 (String a2 (String a3 r3)) =>
            unitsOf ((((b - 240) * 64 + continuation a1) * 64 + continuation a2) * 64
                     + continuation a3)
              ++ codeUnits r3
        | _ => b :: codeUnits rest
        end
  end.

(** [a <= b] for strings: the sequences of code units are compared, unit
    by unit.  Two texts with the same code units are the same text; the
    comparison of the bytes only orders byte strings that encode no
    text. *)
Definition lessEq (a b : string) : bool :=
  match List.list_compare N.compare (codeUnits a) (codeUnits b) with
  | Lt => true
  | Gt => false
  | Eq => String.leb a b
  end.

(** [arr.sort()] on an array of strings: ascending by code unit.  The
    language only fixes the result as the sorted rearrangement of the
    array, which for strings is unique; insertion is used to compute it. *)
Fixpoint insertSorted (x : string) (l : list string) : list string :=
  match l with
  | [] => [x]
  | y :: tl => if lessEq x y then x :: y :: tl else y :: insertSorted x tl
  end.

Definition sort (l : list string) : list string :=
  fold_right insertSorted [] l.

(** [set.add(x)] on a [Set<string>] kept in insertion order. *)
Fixpoint setAdd (x : string) (s : list string) : list string :=
  match s with
  | [] => [x]
  | y :: tl => if String.eqb x y then s else y :: setAdd x tl
  end.

(** [new Set(arr)]. *)
Definition setOf (arr : list string) : list string :=
  fold_left (fun s x => setAdd x s) arr [].

(** [map.has(k)], [map.get(k)] on a [Map<string, V>] in insertion order. *)
Fixpoint mapGet {V} (k : string) (m : list (string * V)) : option V :=
  match m with
  | [] => None
  | (k', v) :: tl => if String.eqb k k' then Some v else mapGet k tl
  end.

Definition mapHas {V} (k : string) (m : list (string * V)) : bool :=
  match mapGet k m with Some _ => true | None => false end.

(** [String(n)] for a non-negative integer. *)
Definition stringOfNat (n : nat) : string :=
  NilZero.string_of_uint (Nat.to_uint n).

(** The value of a string of decimal digits, read after [acc]. *)
Fixpoint digitsValue (s : string) (acc : N) : option N :=
  match s with
  | EmptyString => Some acc
  | String a rest =>
      let n := N_of_ascii a in
      if (48 <=? n)%N && (n <=? 57)%N then digitsValue rest (10 * acc + (n - 48))%N
      else None
  end.

(** The array index that a property key denotes, if it denotes one: the
    key is the canonical decimal form of an integer below [2^32 - 1]. *)
Definition arrayIndex (k : string) : option N :=
  match k with
  | EmptyString => None
  | String a rest =>
      if Ascii.eqb a "0"%char && nonEmpty rest then None
      else match digitsValue k 0 with
           | Some n => if (n <? 4294967295)%N then Some n else None
           | None => None
           end
  end.

Definition isArrayIndex (k : string) : bool :=
  match arrayIndex k with Some _ => true | None => false end.

Definition indexOf (k : string) : N :=
  match arrayIndex k with Some n => n | None => 0%N end.

(** The properties of a plain object, given in the order in which they
    were created, as [for (const k in object)] meets them: first the keys
    that are array indices, in ascending numeric order, then the other
    keys in creation order. *)
Fixpoint insertByIndex {V} (kv : string * V) (l : list (string * V)) : list (string * V) :=
  match l with
  | [] => [kv]
  | kv' :: tl =>
      if (indexOf (fst kv) <=? indexOf (fst kv'))%N then kv :: kv' :: tl
      else kv' :: insertByIndex kv tl
  end.

Definition forIn {V} (object : list (string * V)) : list (string * V) :=
  fold_right insertByIndex [] (List.filter (fun kv => isArrayIndex (fst kv)) object)
  ++ List.filter (fun kv => negb (isArrayIndex (fst kv))) object.

End Js.

(** ** encoder/grounding.ts: the path trie *)

(** [class TrieNode]: the children map (insertion order) and the terminal
    flag. *)
Inductive TrieNode : Type :=
  mkTrieNode (children : list (string * TrieNode)) (isTerminal : bool).

Definition children (n : TrieNode) : list (string * TrieNode) :=
  match n with mkTrieNode cs _ => cs end.

Definition isTerminal (n : TrieNode) : bool :=
  match n with mkTrieNode _ t => t end.

(** [new TrieNode()]. *)
Definition newTrieNode : TrieNode := mkTrieNode [] false.

(** [isBranching()]: [children.size > 1]. *)
Definition isBranching (n : TrieNode) : bool :=
  (1 <? length (children n))%nat.

Module PathTrie.

(** One step of the walk in [insert]: create the child for [segment] when
    it is missing, then continue the walk inside it ([walk] is the rest of
    the loop).  An existing child keeps its position in the map. *)
Fixpoint step (segment : string) (walk : TrieNode -> TrieNode)
    (cs : list (string * TrieNode)) : list (string * TrieNode) :=
  match cs with
  | [] => [(segment, walk newTrieNode)]
  | (k, child) :: tl =>
      if String.eqb segment k then (k, walk child) :: tl
      else (k, child) :: step segment walk tl
  end.

(** The loop of [insert] over the segments, ending with
    [current.isTerminal = true]. *)
Fixpoint insertSegments (segments : list string) (current : TrieNode) : TrieNode :=
  match segments with
  | [] => mkTrieNode (children current) true
  | segment :: rest =>
      mkTrieNode (step segment (insertSegments rest) (children current))
                 (isTerminal current)
  end.

(** [dirPath.split('/').filter(s => s.length > 0)]. *)
Definition segmentsOf (dirPath : string) : list string :=
  List.filter Js.nonEmpty (Js.split "/"%char dirPath).

(** [insert(dirPath)]. *)
Definition insert (dirPath : string) (root : TrieNode) : TrieNode :=
  insertSegments (segmentsOf dirPath) root.

(** The pruning loop of [postOrder]: every entry that starts with
    [prefix] is spliced out, the others keep their order. *)
Definition prune (prefix : string) (results : list string) : list string :=
  List.filter (fun r => negb (Js.startsWith r prefix)) results.

(** [postOrder(node, pathSegments, results)].  The method mutates both
    [results] and the trie (a reported node is cleared and marked
    terminal), so the embedding returns the node and the array after the
    call. *)
Fixpoint postOrder (node : TrieNode) (pathSegments : list string)
    (results : list string) {struct node} : TrieNode * list string :=
  let visit :=
    fix visit (cs : list (string * TrieNode)) (results : list string)
        : list (string * TrieNode) * list string :=
      match cs with
      | [] => ([], results)
      | (segment, child) :: tl =>
          let '(child', results1) := postOrder child (pathSegments ++ [segment]) results in
          let '(tl', results2) := visit tl results1 in
          ((segment, child') :: tl', results2)
      end in
  let '(children', results1) := visit (children node) results in
  if (length pathSegments =? 0)%nat then
    (mkTrieNode children' (isTerminal node), results1)
  else if isBranching node || isTerminal node then
    let currentPath := Js.join "/" pathSegments in
    let prefix := (currentPath ++ "/")%string in
    (mkTrieNode [] true, prune prefix results1 ++ [currentPath])
  else
    (mkTrieNode children' (isTerminal node), results1).

(** [computeLCA()] of the class. *)
Definition computeLCA (root : TrieNode) : list string :=
  snd (postOrder root [] []).

End PathTrie.

(** [computeLCA(dirPaths)]: the exported function.  [dirPaths] is the
    iteration order of the set. *)
Definition computeLCA (dirPaths : list string) : list string :=
  if (length dirPaths =? 0)%nat then []
  else if (length dirPaths =? 1)%nat then dirPaths
  else
    let trie := fold_left (fun trie dir => PathTrie.insert dir trie) dirPaths newTrieNode in
    PathTrie.computeLCA trie.


(** ** graph/node.ts and graph/edge.ts: nodes and edges *)

Inductive NodeType : Type := HighLevel | LowLevel.

Inductive EntityType : Type := Emodule | Efile | Eclass | Efunction | Emethod.

Inductive EdgeType : Type := Functional | Dependency.

Inductive DependencyType : Type := Dimport | Dcall | Dinherit | Dimplement | Duse.

(** A value stored in the open [extra] bag. *)
Inductive JsValue : Type :=
| JString (s : string)
| JNumber (z : Z)
| JBool (b : bool)
| JStrings (arr : list string).

Record SemanticFeature : Type := mkFeature {
  description : string;
  keywords : option (list string);
  subFeatures : option (list string)
}.

Record StructuralMetadata : Type := mkMetadata {
  entityType : EntityType;
  path : option string;
  qualifiedName : option string;
  language : option string;
  startLine : option nat;
  endLine : option nat;
  extra : option (gmap string JsValue)
}.

(** A node object.  High-level and low-level nodes share one shape; the
    [type] tag tells them apart, [metadata] is optional on a high-level node
    and [sourceCode] is only set on a low-level one. *)
Record Node : Type := mkNode {
  node_id : string;
  node_type : NodeType;
  feature : SemanticFeature;
  metadata : option StructuralMetadata;
  directoryPath : option string;
  sourceCode : option string
}.

(** An edge object, tagged by its [type]. *)
Inductive Edge : Type :=
| FunctionalEdge (source target : string) (level siblingOrder : option Z)
| DependencyEdge (source target : string) (dependencyType : DependencyType)
    (isRuntime : option bool) (line : option Z).

Definition source (e : Edge) : string :=
  match e with FunctionalEdge s _ _ _ | DependencyEdge s _ _ _ _ => s end.

Definition target (e : Edge) : string :=
  match e with FunctionalEdge _ t _ _ | DependencyEdge _ t _ _ _ => t end.

Definition edge_type (e : Edge) : EdgeType :=
  match e with FunctionalEdge _ _ _ _ => Functional | DependencyEdge _ _ _ _ _ => Dependency end.

(** The string value of the [EdgeType] enum, as it appears in a template
    literal. *)
Definition EdgeType_value (t : EdgeType) : string :=
  match t with Functional => "functional" | Dependency => "dependency" end.

Definition EdgeType_eqb (a b : EdgeType) : bool :=
  match a, b with
  | Functional, Functional | Dependency, Dependency => true
  | _, _ => false
  end.

(** Modelled from the spec: [createHighLevelNode], [createLowLevelNode],
    [createFunctionalEdge], [createDependencyEdge] and the four type guards
    of graph/node.ts and graph/edge.ts, which are not part of the sources at
    hand.  The constructors tag the given fields with the variant and the
    guards read the tag back. *)
Definition createHighLevelNode (id : string) (f : SemanticFeature)
    (dir : option string) (m : option StructuralMetadata) : Node :=
  mkNode id HighLevel f m dir None.

Definition createLowLevelNode (id : string) (f : SemanticFeature)
    (m : StructuralMetadata) (src : option string) : Node :=
  mkNode id LowLevel f (Some m) None src.

Definition createFunctionalEdge (s t : string) (level siblingOrder : option Z) : Edge :=
  FunctionalEdge s t level siblingOrder.

Definition createDependencyEdge (s t : string) (d : DependencyType)
    (isRuntime : option bool) (line : option Z) : Edge :=
  DependencyEdge s t d isRuntime line.

Definition isHighLevelNode (n : Node) : bool :=
  match node_type n with HighLevel => true | LowLevel => false end.

Definition isLowLevelNode (n : Node) : bool :=
  match node_type n with LowLevel => true | HighLevel => false end.

Definition isFunctionalEdge (e : Edge) : bool := EdgeType_eqb (edge_type e) Functional.

Definition isDependencyEdge (e : Edge) : bool := EdgeType_eqb (edge_type e) Dependency.

(** [Partial<Node>]: [None] is an absent key.  For an optional field the
    inner option is the value, so that a key present with [undefined] can be
    told from an absent one. *)
Record NodeUpdates : Type := mkUpdates {
  u_id : option string;
  u_type : option NodeType;
  u_feature : option SemanticFeature;
  u_metadata : option (option StructuralMetadata);
  u_directoryPath : option (option string);
  u_sourceCode : option (option string)
}.

Definition noUpdates : NodeUpdates := mkUpdates None None None None None None.

(** ** Outcomes of methods that may throw *)

Inductive result (A : Type) : Type :=
| Ok (a : A)
| Throw (message : string).

Arguments Ok {A} a.
Arguments Throw {A} message.

Definition quote : string := String (ascii_of_nat 34) EmptyString.

(** [`"${s}"`]. *)
Definition quoted (s : string) : string := (quote ++ s ++ quote)%string.

(** ** The graphology multigraph underneath the RPG

    [new Graph({ multi: true, type: 'directed' })].  Nodes and edges are
    kept in insertion order.  An edge remembers its key and its endpoints
    next to its attributes.  Next to these two maps the library keeps,
    for every node, one plain object for the edges that leave it and one
    for the edges that enter it, from the key of the neighbour to the
    chain of the parallel edges shared with that neighbour, the newest
    edge first.  The class only removes edges together with a node, that
    is all the edges shared with a neighbour at once, so these objects are
    determined by the edges in insertion order and are computed from them.
    Node keys that name a property of [Object.prototype] are outside the
    model. *)

Record EdgeData : Type := mkEdgeData {
  e_key : string;
  e_source : string;
  e_target : string;
  e_attributes : Edge
}.

Record Graph : Type := mkGraph {
  g_nodes : list (string * Node);
  g_edges : list EdgeData
}.

Module Graphology.

Definition empty : Graph := mkGraph [] [].

Definition hasNode (g : Graph) (key : string) : bool := Js.mapHas key (g_nodes g).

Definition hasEdge (g : Graph) (key : string) : bool :=
  existsb (fun e => String.eqb key (e_key e)) (g_edges g).

(** [addNode(key, attributes)] on a key that is free. *)
Definition addNode (g : Graph) (key : string) (attributes : Node) : Graph :=
  mkGraph (g_nodes g ++ [(key, attributes)]) (g_edges g).

Definition getNodeAttributes (g : Graph) (key : string) : option Node :=
  Js.mapGet key (g_nodes g).

(** [Object.assign(attributes, updates)]: every key present in [updates]
    overwrites the attribute of that name; nothing is merged below the
    top level. *)
Definition assign (attributes : Node) (updates : NodeUpdates) : Node :=
  mkNode
    (match u_id updates with Some v => v | None => node_id attributes end)
    (match u_type updates with Some v => v | None => node_type attributes end)
    (match u_feature updates with Some v => v | None => feature attributes end)
    (match u_metadata updates with Some v => v | None => metadata attributes end)
    (match u_directoryPath updates with Some v => v | None => directoryPath attributes end)
    (match u_sourceCode updates with Some v => v | None => sourceCode attributes end).

(** [mergeNodeAttributes(key, updates)] on an existing key. *)
Definition mergeNodeAttributes (g : Graph) (key : string) (updates : NodeUpdates) : Graph :=
  mkGraph
    (map (fun kn => if String.eqb key (fst kn) then (fst kn, assign (snd kn) updates) else kn)
         (g_nodes g))
    (g_edges g).

(** [dropNode(key)]: the node goes, and with it every edge that starts or
    ends there. *)
Definition dropNode (g : Graph) (key : string) : Graph :=
  mkGraph
    (List.filter (fun kn => negb (String.eqb key (fst kn))) (g_nodes g))
    (List.filter (fun e => negb (String.eqb key (e_source e)) && negb (String.eqb key (e_target e)))
                 (g_edges g)).

(** [addEdgeWithKey(key, source, target, attributes)]: both endpoints must
    exist and the key must be new; parallel edges and self-loops are
    allowed. *)
Definition addEdgeWithKey (g : Graph) (key s t : string) (attributes : Edge) : result Graph :=
  if negb (hasNode g s) then
    Throw ("Graph.addEdgeWithKey: source node " ++ quoted s ++ " not found.")%string
  else if negb (hasNode g t) then
    Throw ("Graph.addEdgeWithKey: target node " ++ quoted t ++ " not found.")%string
  else if hasEdge g key then
    Throw ("Graph.addEdgeWithKey: the " ++ quoted key ++ " edge already exists in the graph.")%string
  else Ok (mkGraph (g_nodes g) (g_edges g ++ [mkEdgeData key s t attributes])).

Definition mapNodes {A} (g : Graph) (f : string -> Node -> A) : list A :=
  map (fun kn => f (fst kn) (snd kn)) (g_nodes g).

Definition mapEdges {A} (g : Graph) (f : string -> Edge -> A) : list A :=
  map (fun e => f (e_key e) (e_attributes e)) (g_edges g).

(** What attaching an edge does to an adjacency object: the first edge
    shared with [neighbor] creates the property, a later one is put in
    front of the chain. *)
Fixpoint attach (neighbor : string) (e : EdgeData) (adjacency : list (string * list EdgeData))
    : list (string * list EdgeData) :=
  match adjacency with
  | [] => [(neighbor, [e])]
  | (k, chain) :: tl =>
      if String.eqb neighbor k then (k, e :: chain) :: tl
      else (k, chain) :: attach neighbor e tl
  end.

(** The adjacency object built by attaching [incident] in order. *)
Definition adjacencyOf (neighborOf : EdgeData -> string) (incident : list EdgeData)
    : list (string * list EdgeData) :=
  fold_left (fun adjacency e => attach (neighborOf e) e adjacency) incident [].

(** The iteration over an adjacency object: its properties in the order
    of [for ... in], and every chain from its head. *)
Definition chained (adjacency : list (string * list EdgeData)) : list EdgeData :=
  flat_map snd (Js.forIn adjacency).

Definition outEdges (g : Graph) (key : string) : list EdgeData :=
  chained (adjacencyOf e_target
             (List.filter (fun e => String.eqb key (e_source e)) (g_edges g))).

Definition inEdges (g : Graph) (key : string) : list EdgeData :=
  chained (adjacencyOf e_source
             (List.filter (fun e => String.eqb key (e_target e)) (g_edges g))).

(** [mapOutEdges(key, f)] and [mapInEdges(key, f)]: the edges leaving,
    respectively entering, the node, in the order of the adjacency
    object. *)
Definition mapOutEdges {A} (g : Graph) (key : string) (f : string -> Edge -> A) : list A :=
  map (fun e => f (e_key e) (e_attributes e)) (outEdges g key).

Definition mapInEdges {A} (g : Graph) (key : string) (f : string -> Edge -> A) : list A :=
  map (fun e => f (e_key e) (e_attributes e)) (inEdges g key).

End Graphology.

(** ** graph/rpg.ts: the RepositoryPlanningGraph class *)

Record RPGConfig : Type := mkConfig {
  cfg_name : string;
  cfg_rootPath : option string;
  cfg_description : option string
}.

Record RepositoryPlanningGraph : Type := mkRPG {
  graph : Graph;
  config : RPGConfig
}.

Module RPG.

(** [new RepositoryPlanningGraph(config)]. *)
Definition create (config : RPGConfig) : RepositoryPlanningGraph :=
  mkRPG Graphology.empty config.

Definition withGraph (rpg : RepositoryPlanningGraph) (g : Graph) : RepositoryPlanningGraph :=
  mkRPG g (config rpg).

(** *** Node operations *)

Definition hasNode (rpg : RepositoryPlanningGraph) (id : string) : bool :=
  Graphology.hasNode (graph rpg) id.

Definition addNode (rpg : RepositoryPlanningGraph) (node : Node)
    : result RepositoryPlanningGraph :=
  if Graphology.hasNode (graph rpg) (node_id node) then
    Throw ("Node with id " ++ quoted (node_id node) ++ " already exists")%string
  else Ok (withGraph rpg (Graphology.addNode (graph rpg) (node_id node) node)).

Definition addHighLevelNode (rpg : RepositoryPlanningGraph) (id : string)
    (f : SemanticFeature) (dir : option string) (m : option StructuralMetadata)
    : result (RepositoryPlanningGraph * Node) :=
  let node := createHighLevelNode id f dir m in
  match addNode rpg node with
  | Ok rpg' => Ok (rpg', node)
  | Throw msg => Throw msg
  end.

Definition addLowLevelNode (rpg : RepositoryPlanningGraph) (id : string)
    (f : SemanticFeature) (m : StructuralMetadata) (src : option string)
    : result (RepositoryPlanningGraph * Node) :=
  let node := createLowLevelNode id f m src in
  match addNode rpg node with
  | Ok rpg' => Ok (rpg', node)
  | Throw msg => Throw msg
  end.

Definition getNode (rpg : RepositoryPlanningGraph) (id : string) : option Node :=
  if negb (Graphology.hasNode (graph rpg) id) then None
  else Graphology.getNodeAttributes (graph rpg) id.

Definition updateNode (rpg : RepositoryPlanningGraph) (id : string)
    (updates : NodeUpdates) : result RepositoryPlanningGraph :=
  if negb (Graphology.hasNode (graph rpg) id) then
    Throw ("Node with id " ++ quoted id ++ " not found")%string
  else Ok (withGraph rpg (Graphology.mergeNodeAttributes (graph rpg) id updates)).

Definition removeNode (rpg : RepositoryPlanningGraph) (id : string)
    : result RepositoryPlanningGraph :=
  if negb (Graphology.hasNode (graph rpg) id) then
    Throw ("Node with id " ++ quoted id ++ " not found")%string
  else Ok (withGraph rpg (Graphology.dropNode (graph rpg) id)).

Definition getNodes (rpg : RepositoryPlanningGraph) : list Node :=
  Graphology.mapNodes (graph rpg) (fun _ attrs => attrs).

Definition getHighLevelNodes (rpg : RepositoryPlanningGraph) : list Node :=
  List.filter isHighLevelNode (getNodes rpg).

Definition getLowLevelNodes (rpg : RepositoryPlanningGraph) : list Node :=
  List.filter isLowLevelNode (getNodes rpg).

(** *** Edge operations *)

(** [`${edge.source}->${edge.target}:${edge.type}`]. *)
Definition edgeKey (edge : Edge) : string :=
  (source edge ++ "->" ++ target edge ++ ":" ++ EdgeType_value (edge_type edge))%string.

Definition addEdge (rpg : RepositoryPlanningGraph) (edge : Edge)
    : result RepositoryPlanningGraph :=
  if negb (Graphology.hasNode (graph rpg) (source edge)) then
    Throw ("Source node " ++ quoted (source edge) ++ " not found")%string
  else if negb (Graphology.hasNode (graph rpg) (target edge)) then
    Throw ("Target node " ++ quoted (target edge) ++ " not found")%string
  else
    match Graphology.addEdgeWithKey (graph rpg) (edgeKey edge) (source edge) (target edge) edge with
    | Ok g => Ok (withGraph rpg g)
    | Throw msg => Throw msg
    end.

Definition addFunctionalEdge (rpg : RepositoryPlanningGraph) (s t : string)
    (level siblingOrder : option Z) : result (RepositoryPlanningGraph * Edge) :=
  let edge := createFunctionalEdge s t level siblingOrder in
  match addEdge rpg edge with
  | Ok rpg' => Ok (rpg', edge)
  | Throw msg => Throw msg
  end.

Definition addDependencyEdge (rpg : RepositoryPlanningGraph) (s t : string)
    (d : DependencyType) (isRuntime : option bool) (line : option Z)
    : result (RepositoryPlanningGraph * Edge) :=
  let edge := createDependencyEdge s t d isRuntime line in
  match addEdge rpg edge with
  | Ok rpg' => Ok (rpg', edge)
  | Throw msg => Throw msg
  end.

Definition getEdges (rpg : RepositoryPlanningGraph) : list Edge :=
  Graphology.mapEdges (graph rpg) (fun _ attrs => attrs).

Definition getFunctionalEdges (rpg : RepositoryPlanningGraph) : list Edge :=
  List.filter isFunctionalEdge (getEdges rpg).

Definition getDependencyEdges (rpg : RepositoryPlanningGraph) : list Edge :=
  List.filter isDependencyEdge (getEdges rpg).

Definition ofType (edgeType : option EdgeType) (edges : list Edge) : list Edge :=
  match edgeType with
  | Some t => List.filter (fun e => EdgeType_eqb (edge_type e) t) edges
  | None => edges
  end.

Definition getOutEdges (rpg : RepositoryPlanningGraph) (nodeId : string)
    (edgeType : option EdgeType) : list Edge :=
  if negb (Graphology.hasNode (graph rpg) nodeId) then []
  else ofType edgeType (Graphology.mapOutEdges (graph rpg) nodeId (fun _ attrs => attrs)).

Definition getInEdges (rpg : RepositoryPlanningGraph) (nodeId : string)
    (edgeType : option EdgeType) : list Edge :=
  if negb (Graphology.hasNode (graph rpg) nodeId) then []
  else ofType edgeType (Graphology.mapInEdges (graph rpg) nodeId (fun _ attrs => attrs)).

(** [edges.map(e => this.getNode(pick(e))).filter(n => n !== undefined)]. *)
Definition nodesAt (rpg : RepositoryPlanningGraph) (pick : Edge -> string)
    (edges : list Edge) : list Node :=
  omap (fun e => getNode rpg (pick e)) edges.

Definition getChildren (rpg : RepositoryPlanningGraph) (nodeId : string) : list Node :=
  nodesAt rpg target (getOutEdges rpg nodeId (Some Functional)).

Definition getParent (rpg : RepositoryPlanningGraph) (nodeId : string) : option Node :=
  match getInEdges rpg nodeId (Some Functional) with
  | [] => None
  | firstEdge :: _ => getNode rpg (source firstEdge)
  end.

Definition getDependencies (rpg : RepositoryPlanningGraph) (nodeId : string) : list Node :=
  nodesAt rpg target (getOutEdges rpg nodeId (Some Dependency)).

Definition getDependents (rpg : RepositoryPlanningGraph) (nodeId : string) : list Node :=
  nodesAt rpg source (getInEdges rpg nodeId (Some Dependency)).

(** *** Search *)

Section SearchByFeature.

(** [String.prototype.toLowerCase] of the platform. *)
Variable toLowerCase : string -> string.

(** [list?.map(s => s.toLowerCase()) ?? []]. *)
Definition lowered (o : option (list string)) : list string :=
  match o with Some l => map toLowerCase l | None => [] end.

Definition searchByFeature (rpg : RepositoryPlanningGraph) (query : string) : list Node :=
  let queryLower := toLowerCase query in
  List.filter
    (fun node =>
       let desc := toLowerCase (description (feature node)) in
       let keywords := lowered (keywords (feature node)) in
       let subFeatures := lowered (subFeatures (feature node)) in
       Js.includes desc queryLower
       || existsb (fun k => Js.includes k queryLower) keywords
       || existsb (fun f => Js.includes f queryLower) subFeatures)
    (getNodes rpg).

End SearchByFeature.

(** [node.metadata?.path]. *)
Definition pathOf (node : Node) : option string :=
  match metadata node with Some m => path m | None => None end.

Section SearchByPath.

(** [new RegExp(source)]: [None] when the constructor throws a syntax
    error, otherwise the [test] method of the regular expression. *)
Variable RegExp : string -> option (string -> bool).

Definition searchByPath (rpg : RepositoryPlanningGraph) (pattern : string)
    : result (list Node) :=
  match RegExp (Js.replaceStars pattern) with
  | None => Throw "SyntaxError: Invalid regular expression"
  | Some test =>
      Ok (List.filter
            (fun node =>
               match pathOf node with
               | Some path => Js.nonEmpty path && test path
               | None => false
               end)
            (getLowLevelNodes rpg))
  end.

End SearchByPath.

(** The graphs that a client can build: start from the constructor and
    apply the public mutators. *)
Inductive reachable : RepositoryPlanningGraph -> Prop :=
| reach_create config : reachable (create config)
| reach_addNode rpg node rpg' :
    reachable rpg -> addNode rpg node = Ok rpg' -> reachable rpg'
| reach_updateNode rpg id updates rpg' :
    reachable rpg -> updateNode rpg id updates = Ok rpg' -> reachable rpg'
| reach_removeNode rpg id rpg' :
    reachable rpg -> removeNode rpg id = Ok rpg' -> reachable rpg'
| reach_addEdge rpg edge rpg' :
    reachable rpg -> addEdge rpg edge = Ok rpg' -> reachable rpg'.

End RPG.

(** ** tools/search.ts: SearchNode *)

Inductive SearchMode : Type := features | snippets | auto.

Record SearchOptions : Type := mkSearchOptions {
  mode : SearchMode;
  featureTerms : option (list string);
  searchTerms : option (list string);
  searchScopes : option (list string);
  filePattern : option string;
  lineRange : option (nat * nat)
}.

Record SearchResult : Type := mkSearchResult {
  sr_nodes : list Node;
  sr_totalMatches : nat;
  sr_mode : SearchMode
}.

Module SearchNode.

(** [map.set(k, v)] on a [Map] in insertion order: an existing key keeps
    its place and takes the new value. *)
Fixpoint mapSet {V} (k : string) (v : V) (m : list (string * V)) : list (string * V) :=
  match m with
  | [] => [(k, v)]
  | (k', v') :: tl =>
      if String.eqb k k' then (k', v) :: tl else (k', v') :: mapSet k v tl
  end.

(** [Array.from(new Map(results.map(n => [n.id, n])).values())]. *)
Definition uniqueById (results : list Node) : list Node :=
  map snd (fold_left (fun m n => mapSet (node_id n) n m) results []).

Definition isFeaturesOrAuto (m : SearchMode) : bool :=
  match m with features | auto => true | snippets => false end.

Definition isSnippetsOrAuto (m : SearchMode) : bool :=
  match m with snippets | auto => true | features => false end.

Section Query.

Variable RegExp : string -> option (string -> bool).
Variable toLowerCase : string -> string.

(** The feature block of [query]: one [searchByFeature] per term. *)
Definition featureMatches (rpg : RepositoryPlanningGraph) (options : SearchOptions)
    : list Node :=
  if isFeaturesOrAuto (mode options) then
    match featureTerms options with
    | Some terms => flat_map (RPG.searchByFeature toLowerCase rpg) terms
    | None => []
    end
  else [].

(** The path block of [query]; an empty pattern is falsy and skipped. *)
Definition pathMatches (rpg : RepositoryPlanningGraph) (options : SearchOptions)
    : result (list Node) :=
  if isSnippetsOrAuto (mode options) then
    match filePattern options with
    | Some pattern =>
        if Js.nonEmpty pattern then RPG.searchByPath RegExp rpg pattern else Ok []
    | None => Ok []
    end
  else Ok [].

Definition query (rpg : RepositoryPlanningGraph) (options : SearchOptions)
    : result SearchResult :=
  let results := featureMatches rpg options in
  match pathMatches rpg options with
  | Throw msg => Throw msg
  | Ok matches =>
      let results := results ++ matches in
      let uniqueNodes := uniqueById results in
      Ok (mkSearchResult uniqueNodes (length uniqueNodes) (mode options))
  end.

End Query.

End SearchNode.

(** ** tools/explore.ts: ExploreRPG *)

Inductive ExploreEdgeType : Type := functional | dependency | both.

Inductive Direction : Type := out | inward | bothways.

Record ExploreOptions : Type := mkExploreOptions {
  startNode : string;
  edgeType : ExploreEdgeType;
  maxDepth : option Z;
  direction : option Direction
}.

(** [{ source, target, type }] as pushed on the [edges] array. *)
Record EdgeRef : Type := mkEdgeRef {
  ref_source : string;
  ref_target : string;
  ref_type : EdgeType
}.

Record ExploreResult : Type := mkExploreResult {
  er_nodes : list Node;
  er_edges : list EdgeRef;
  er_maxDepthReached : Z
}.

(** The variables that the closure [explore] updates.  [pushedAt] is not in
    the source: it records, for every node pushed on [nodes], its id and the
    depth of the call that pushed it, so that statements can speak about
    the depth at which a node was reached. *)
Record ExploreState : Type := mkExploreState {
  visited : gset string;
  nodes : list Node;
  edges : list EdgeRef;
  maxDepthReached : Z;
  pushedAt : list (string * Z)
}.

Module ExploreRPG.

Definition getEdgeTypes (edgeType : ExploreEdgeType) : list EdgeType :=
  match edgeType with
  | both => [Functional; Dependency]
  | functional => [Functional]
  | dependency => [Dependency]
  end.

Definition goesOut (d : Direction) : bool :=
  match d with out | bothways => true | inward => false end.

Definition goesIn (d : Direction) : bool :=
  match d with inward | bothways => true | out => false end.

(** A [for ... of] loop whose body may run out of fuel. *)
Fixpoint forEach {A S} (body : S -> A -> option S) (l : list A) (s : S) : option S :=
  match l with
  | [] => Some s
  | x :: tl =>
      match body s x with
      | Some s' => forEach body tl s'
      | None => None
      end
  end.

Definition markVisited (nodeId : string) (st : ExploreState) : ExploreState :=
  mkExploreState ({[nodeId]} ∪ visited st) (nodes st) (edges st)
                 (maxDepthReached st) (pushedAt st).

Definition pushNode (nodeId : string) (node : Node) (depth : Z) (st : ExploreState)
    : ExploreState :=
  mkExploreState (visited st) (nodes st ++ [node]) (edges st)
                 (Z.max (maxDepthReached st) depth) (pushedAt st ++ [(nodeId, depth)]).

Definition pushEdge (edge : Edge) (st : ExploreState) : ExploreState :=
  mkExploreState (visited st) (nodes st)
                 (edges st ++ [mkEdgeRef (source edge) (target edge) (edge_type edge)])
                 (maxDepthReached st) (pushedAt st).

Section Traverse.

Variable rpg : RepositoryPlanningGraph.
Variable edgeType : ExploreEdgeType.
Variable maxDepth : Z.
Variable direction : Direction.

(** The closure [explore(nodeId, depth)].  [fuel] bounds the nesting of
    calls; [None] means that it ran out. *)
Fixpoint explore (fuel : nat) (nodeId : string) (depth : Z) (st : ExploreState)
    : option ExploreState :=
  if (maxDepth <? depth)%Z || bool_decide (nodeId ∈ visited st) then Some st
  else
    match fuel with
    | O => None
    | S fuel' =>
        let st := markVisited nodeId st in
        match RPG.getNode rpg nodeId with
        | None => Some st
        | Some node =>
            let st := pushNode nodeId node depth st in
            forEach
              (fun st et =>
                 match
                   (if goesOut direction then
                      forEach
                        (fun st edge => explore fuel' (target edge) (depth + 1) (pushEdge edge st))
                        (RPG.getOutEdges rpg nodeId (Some et)) st
                    else Some st)
                 with
                 | None => None
                 | Some st =>
                     if goesIn direction then
                       forEach
                         (fun st edge => explore fuel' (source edge) (depth + 1) (pushEdge edge st))
                         (RPG.getInEdges rpg nodeId (Some et)) st
                     else Some st
                 end)
              (getEdgeTypes edgeType) st
        end
    end.

End Traverse.

Definition initial : ExploreState := mkExploreState ∅ [] [] 0 [].

(** The state of the closure variables when [explore(startNode, 0)]
    returns.  The calls nest at most [maxDepth + 1] deep. *)
Definition run (rpg : RepositoryPlanningGraph) (options : ExploreOptions)
    : option ExploreState :=
  let maxDepth := match maxDepth options with Some d => d | None => 3%Z end in
  let direction := match direction options with Some d => d | None => out end in
  explore rpg (edgeType options) maxDepth direction
          (Z.to_nat (maxDepth + 1)) (startNode options) 0 initial.

(** [traverse(options)]. *)
Definition traverse (rpg : RepositoryPlanningGraph) (options : ExploreOptions)
    : option ExploreResult :=
  match run rpg options with
  | Some st => Some (mkExploreResult (nodes st) (edges st) (maxDepthReached st))
  | None => None
  end.

End ExploreRPG.

(** ** encoder/encoder.ts: entity ids *)

(** [CodeEntity['type']] of utils/ast.ts. *)
Inductive CodeEntityType : Type := CEfunction | CEclass | CEmethod | CEvariable | CEimport.

Definition CodeEntityType_value (t : CodeEntityType) : string :=
  match t with
  | CEfunction => "function"
  | CEclass => "class"
  | CEmethod => "method"
  | CEvariable => "variable"
  | CEimport => "import"
  end.

Record CodeEntity : Type := mkCodeEntity {
  ce_type : CodeEntityType;
  ce_name : string;
  ce_startLine : nat;
  ce_endLine : nat;
  ce_parent : option string
}.

(** What [extractEntities] hands to [addLowLevelNode]. *)
Record ExtractedEntity : Type := mkExtracted {
  ex_id : string;
  ex_feature : SemanticFeature;
  ex_entityType : EntityType;
  ex_path : string;
  ex_startLine : option nat;
  ex_endLine : option nat
}.

(** The argument of the semantic extractor. *)
Record EntityInput : Type := mkEntityInput {
  in_type : string;
  in_name : string;
  in_filePath : string;
  in_parent : option string
}.

Module RPGEncoder.

(** [generateEntityId(filePath, entityType, entityName?, startLine?)]:
    the name is pushed when it is truthy, the line when it is defined. *)
Definition generateEntityId (filePath entityType : string)
    (entityName : option string) (startLine : option nat) : string :=
  let parts := [filePath; entityType] in
  let parts :=
    match entityName with
    | Some name => if Js.nonEmpty name then parts ++ [name] else parts
    | None => parts
    end in
  let parts :=
    match startLine with
    | Some line => parts ++ [Js.stringOfNat line]
    | None => parts
    end in
  Js.join ":" parts.

(** [mapEntityType]: variables and imports have no RPG entity type. *)
Definition mapEntityType (t : CodeEntityType) : option EntityType :=
  match t with
  | CEfunction => Some Efunction
  | CEclass => Some Eclass
  | CEmethod => Some Emethod
  | CEvariable | CEimport => None
  end.

Section ExtractEntities.

(** The semantic extractor (with its cache), and
    [path.basename(p, path.extname(p))]. *)
Variable extractSemanticFeature : EntityInput -> SemanticFeature.
Variable fileStem : string -> string.

Definition convertCodeEntity (entity : CodeEntity) (filePath entityId : string)
    : option ExtractedEntity :=
  match mapEntityType (ce_type entity) with
  | None => None
  | Some entityType =>
      Some (mkExtracted entityId
              (extractSemanticFeature
                 (mkEntityInput (CodeEntityType_value (ce_type entity)) (ce_name entity)
                                filePath (ce_parent entity)))
              entityType filePath
              (Some (ce_startLine entity)) (Some (ce_endLine entity)))
  end.

(** [extractEntities(file)], given the path relative to the repository
    and the entities that the parser found in the file. *)
Definition extractEntities (relativePath : string) (parsed : list CodeEntity)
    : list ExtractedEntity :=
  let fileId := generateEntityId relativePath "file" None None in
  let fileEntity :=
    mkExtracted fileId
      (extractSemanticFeature (mkEntityInput "file" (fileStem relativePath) relativePath None))
      Efile relativePath None None in
  fileEntity ::
  omap (fun entity =>
          convertCodeEntity entity relativePath
            (generateEntityId relativePath (CodeEntityType_value (ce_type entity))
                              (Some (ce_name entity)) (Some (ce_startLine entity))))
       parsed.

End ExtractEntities.

End RPGEncoder.

(** ** encoder/grounding.ts: ArtifactGrounder *)

(** The outcome of an [async] method of the grounder: it returns, it
    rejects with an error, or the bound on nested calls is exhausted. *)
Inductive outcome (A : Type) : Type :=
| Done (a : A)
| Raised (message : string)
| OutOfFuel.

Arguments Done {A} a.
Arguments Raised {A} message.
Arguments OutOfFuel {A}.

Definition bind {A B} (m : outcome A) (k : A -> outcome B) : outcome B :=
  match m with
  | Done a => k a
  | Raised msg => Raised msg
  | OutOfFuel => OutOfFuel
  end.

Notation "'let*' p := m 'in' k" := (bind m (fun p => k))
  (at level 10, p pattern, m at level 100, k at level 200).

Definition lift {A} (r : result A) : outcome A :=
  match r with Ok a => Done a | Throw msg => Raised msg end.

Module ArtifactGrounder.

(** [{ ...metadata, entityType: 'module', path }]. *)
Definition withPath (m : option StructuralMetadata) (p : string) : StructuralMetadata :=
  match m with
  | Some m =>
      mkMetadata Emodule (Some p) (qualifiedName m) (language m)
                 (startLine m) (endLine m) (extra m)
  | None => mkMetadata Emodule (Some p) None None None None None
  end.

(** [{ ...metadata?.extra, paths }]. *)
Definition extraWithPaths (m : option StructuralMetadata) (paths : list string)
    : gmap string JsValue :=
  let old := match m with
             | Some m => match extra m with Some e => e | None => ∅ end
             | None => ∅
             end in
  <["paths" := JStrings paths]> old.

(** [{ ...metadata, entityType: 'module', path, extra: { ...metadata?.extra, paths } }]. *)
Definition withPaths (m : option StructuralMetadata) (p : string) (paths : list string)
    : StructuralMetadata :=
  match m with
  | Some m' =>
      mkMetadata Emodule (Some p) (qualifiedName m') (language m')
                 (startLine m') (endLine m') (Some (extraWithPaths m paths))
  | None => mkMetadata Emodule (Some p) None None None None (Some (extraWithPaths m paths))
  end.

Definition metadataUpdate (m : StructuralMetadata) : NodeUpdates :=
  mkUpdates None None None (Some (Some m)) None None.

(** The block of [propagate] that assigns the grounded paths. *)
Definition assignPaths (rpg : RepositoryPlanningGraph) (nodeId : string) (node : Node)
    (dirSet : list string) : result RepositoryPlanningGraph :=
  if isHighLevelNode node && (0 <? length dirSet)%nat then
    let lcaPaths := computeLCA dirSet in
    match lcaPaths with
    | [only] => RPG.updateNode rpg nodeId (metadataUpdate (withPath (metadata node) only))
    | _ :: _ :: _ =>
        let sorted := Js.sort lcaPaths in
        match sorted with
        | first :: _ =>
            RPG.updateNode rpg nodeId (metadataUpdate (withPaths (metadata node) first sorted))
        | [] => Ok rpg
        end
    | [] => Ok rpg
    end
  else Ok rpg.

(** The loop of [propagate] over the children: each child is visited in
    the graph that the previous visits left, and its directories are added
    to the set.  [visit] is the recursive call. *)
Fixpoint collect
    (visit : RepositoryPlanningGraph -> string -> outcome (RepositoryPlanningGraph * list string))
    (cs : list Node) (rpg : RepositoryPlanningGraph) (dirSet : list string)
    : outcome (RepositoryPlanningGraph * list string) :=
match cs with
| [] => Done (rpg, dirSet)
| child :: tl =>
    let* (rpg', childDirs) := visit rpg (node_id child) in
    collect visit tl rpg' (fold_left (fun s dir => Js.setAdd dir s) childDirs dirSet)
end.

Section Grounding.

(** [path.dirname] of the platform. *)
Variable dirname : string -> string.

(** [propagate(nodeId)]: the graph after the call and the set of
    directories covered by the subtree, in insertion order. *)
Fixpoint propagate (fuel : nat) (rpg : RepositoryPlanningGraph) (nodeId : string)
    : outcome (RepositoryPlanningGraph * list string) :=
match fuel with
| O => OutOfFuel
| S fuel' =>
    match RPG.getNode rpg nodeId with
    | None => Done (rpg, [])
    | Some node =>
        if isLowLevelNode node then
          match RPG.pathOf node with
          | Some filePath =>
              if Js.nonEmpty filePath then Done (rpg, [dirname filePath])
              else Done (rpg, [])
          | None => Done (rpg, [])
          end
        else
          let children := RPG.getChildren rpg nodeId in
          let* (rpg1, dirSet) := collect (propagate fuel') children rpg [] in
          let* rpg2 := lift (assignPaths rpg1 nodeId node dirSet) in
          Done (rpg2, dirSet)
    end
end.

(** The loop of [ground] over the high-level nodes listed at the start:
    propagation starts at each one that has no parent. *)
Fixpoint groundRoots (fuel : nat) (hs : list Node) (rpg : RepositoryPlanningGraph)
    : outcome RepositoryPlanningGraph :=
match hs with
| [] => Done rpg
| node :: tl =>
    match RPG.getParent rpg (node_id node) with
    | None =>
        let* (rpg', _) := propagate fuel rpg (node_id node) in
        groundRoots fuel tl rpg'
    | Some _ => groundRoots fuel tl rpg
    end
end.

(** [ground()]. *)
Definition ground (fuel : nat) (rpg : RepositoryPlanningGraph)
    : outcome RepositoryPlanningGraph :=
groundRoots fuel (RPG.getHighLevelNodes rpg) rpg.

End Grounding.

End ArtifactGrounder.

(** ** Sample data used in examples *)

Module Sample.

Definition cfg : RPGConfig := mkConfig "test" None None.

Definition feat (d : string) : SemanticFeature := mkFeature d None None.

Definition fileMeta (p : string) : StructuralMetadata :=
  mkMetadata Efile (Some p) None None None None None.

Definition highLevel (id : string) : Node := createHighLevelNode id (feat id) None None.

Definition fileNode (id p : string) : Node := createLowLevelNode id (feat id) (fileMeta p) None.

Definition child (s t : string) : Edge := createFunctionalEdge s t None None.

(** Apply a sequence of writes, stopping at the first one that throws. *)
Inductive write : Type :=
| AddNode (n : Node)
| AddEdge (e : Edge).

Definition apply (rpg : RepositoryPlanningGraph) (w : write)
    : result RepositoryPlanningGraph :=
  match w with
  | AddNode n => RPG.addNode rpg n
  | AddEdge e => RPG.addEdge rpg e
  end.

Fixpoint build (ws : list write) (rpg : RepositoryPlanningGraph)
    : result RepositoryPlanningGraph :=
  match ws with
  | [] => Ok rpg
  | w :: tl =>
      match apply rpg w with
      | Ok rpg' => build tl rpg'
      | Throw msg => Throw msg
      end
  end.

(** Three high-level nodes where [c] has two parents and [a], [b] lie on
    a cycle. *)
Definition tangledWrites : list write :=
  [AddNode (highLevel "a"); AddNode (highLevel "b"); AddNode (highLevel "c");
   AddEdge (child "a" "c"); AddEdge (child "b" "c");
   AddEdge (child "a" "b"); AddEdge (child "b" "a")].

Definition tangled : RepositoryPlanningGraph :=
  mkRPG
    (mkGraph
       [("a", highLevel "a"); ("b", highLevel "b"); ("c", highLevel "c")]
       [mkEdgeData "a->c:functional" "a" "c" (child "a" "c");
        mkEdgeData "b->c:functional" "b" "c" (child "b" "c");
        mkEdgeData "a->b:functional" "a" "b" (child "a" "b");
        mkEdgeData "b->a:functional" "b" "a" (child "b" "a")])
    cfg.

(** A node with keywords and an [extra] entry. *)
Definition login : Node :=
  mkNode "login" LowLevel
    (mkFeature "validate user credentials" (Some ["auth"; "login"]) None)
    (Some (mkMetadata Efunction (Some "src/auth/login.ts") None None (Some 10%nat) (Some 25%nat)
             (Some {["owner" := JString "core"]})))
    None None.

Definition withLogin : RepositoryPlanningGraph :=
  mkRPG (mkGraph [("login", login)] []) cfg.

(** [{ feature: { description: 'check password' } }]. *)
Definition newDescription : NodeUpdates :=
  mkUpdates None None (Some (mkFeature "check password" None None)) None None None.

(** [{ metadata: { entityType: 'function', extra: { reviewed: true } } }]. *)
Definition newExtra : NodeUpdates :=
  mkUpdates None None None
    (Some (Some (mkMetadata Efunction None None None None None
                   (Some {["reviewed" := JBool true]}))))
    None None.

End Sample.

(** ** Vocabulary for the traversal *)

(** The largest depth in a log of pushes; [0] for an empty log, which is
    the initial value of [maxDepthReached]. *)
Definition maxOf (depths : list Z) : Z := fold_left Z.max depths 0%Z.

(** What holds of the closure variables of [traverse] between any two
    steps: no id was pushed twice, every pushed id is in [visited], each
    entry of [nodes] is the node stored under the id pushed at that
    position, no push happened deeper than [maxDepth], and
    [maxDepthReached] is the largest depth of a push. *)
Record exploring (rpg : RepositoryPlanningGraph) (maxDepth : Z) (st : ExploreState)
    : Prop := mkExploring {
  pushed_once : NoDup (map fst (pushedAt st));
  pushed_visited : forall id, In id (map fst (pushedAt st)) -> id ∈ visited st;
  pushed_nodes :
    Forall2 (fun n p => RPG.getNode rpg (fst p) = Some n) (nodes st) (pushedAt st);
  pushed_bounded : Forall (fun p => (snd p <= maxDepth)%Z) (pushedAt st);
  deepest_push : maxDepthReached st = maxOf (map snd (pushedAt st))
}.


(** ** node:path *)

Module Path.

Definition isSlash (a : ascii) : bool := Ascii.eqb a "/"%char.

Fixpoint dropWhile (p : ascii -> bool) (l : list ascii) : list ascii :=
match l with
| [] => []
| a :: tl => if p a then dropWhile p tl else l
end.

(** [path.dirname(p)] of the POSIX flavour: scanning from the end, the
    trailing slashes and the last name are skipped; what lies before the
    slash that precedes the name is the directory. *)
Definition dirname (p : string) : string :=
match list_ascii_of_string p with
| [] => "."
| first :: rest =>
    let hasRoot := isSlash first in
    let beforeName :=
      dropWhile (fun a => negb (isSlash a)) (dropWhile isSlash (rev rest)) in
    match beforeName with
    | [] => if hasRoot then "/" else "."
    | _ :: before =>
        if hasRoot && (length beforeName =? 1)%nat then "//"
        else string_of_list_ascii (first :: rev before)
    end
end.

End Path.

(** ** Sample graphs for grounding and search *)

Module Scenario.

(** One high-level node over [src/utils/helper.ts] and
    [tests/utils/helper.test.ts]. *)
Definition crossCutting : RepositoryPlanningGraph :=
mkRPG
  (mkGraph
     [("domain:CrossCutting", Sample.highLevel "domain:CrossCutting");
      ("src/utils/helper.ts:file",
       Sample.fileNode "src/utils/helper.ts:file" "src/utils/helper.ts");
      ("tests/utils/helper.test.ts:file",
       Sample.fileNode "tests/utils/helper.test.ts:file" "tests/utils/helper.test.ts")]
     [mkEdgeData "domain:CrossCutting->src/utils/helper.ts:file:functional"
        "domain:CrossCutting" "src/utils/helper.ts:file"
        (Sample.child "domain:CrossCutting" "src/utils/helper.ts:file");
      mkEdgeData "domain:CrossCutting->tests/utils/helper.test.ts:file:functional"
        "domain:CrossCutting" "tests/utils/helper.test.ts:file"
        (Sample.child "domain:CrossCutting" "tests/utils/helper.test.ts:file")])
  Sample.cfg.

Definition crossCuttingWrites : list Sample.write :=
[Sample.AddNode (Sample.highLevel "domain:CrossCutting");
 Sample.AddNode (Sample.fileNode "src/utils/helper.ts:file" "src/utils/helper.ts");
 Sample.AddNode (Sample.fileNode "tests/utils/helper.test.ts:file" "tests/utils/helper.test.ts");
 Sample.AddEdge (Sample.child "domain:CrossCutting" "src/utils/helper.ts:file");
 Sample.AddEdge (Sample.child "domain:CrossCutting" "tests/utils/helper.test.ts:file")].

(** Two files: one about authentication under [lib], one under [src]. *)
Definition authNode : Node :=
createLowLevelNode "lib/auth.ts:file" (Sample.feat "handle authentication")
  (Sample.fileMeta "lib/auth.ts") None.

Definition viewNode : Node :=
createLowLevelNode "src/view.ts:file" (Sample.feat "render template")
  (Sample.fileMeta "src/view.ts") None.

Definition twoFiles : RepositoryPlanningGraph :=
mkRPG (mkGraph [("lib/auth.ts:file", authNode); ("src/view.ts:file", viewNode)] [])
  Sample.cfg.

(** [{ mode: 'auto', featureTerms: ['authentication'], filePattern: 'src/*' }]. *)
Definition autoQuery : SearchOptions :=
mkSearchOptions auto (Some ["authentication"]) None None (Some "src/*") None.

End Scenario.

(** ** Vocabulary for the path trie *)

(** A path segment: not empty and without a slash. *)
Fixpoint slashFree (s : string) : bool :=
match s with
| EmptyString => true
| String a rest => negb (Ascii.eqb a "/"%char) && slashFree rest
end.

Definition isSegment (s : string) : bool := Js.nonEmpty s && slashFree s.

(** The segments of a path, each followed by a slash. *)
Fixpoint slashed (segs : list string) : string :=
match segs with
| [] => EmptyString
| s :: rest => (s ++ "/" ++ slashed rest)%string
end.

(** The paths marked terminal in a trie, as lists of segments from the
    node downwards. *)
Fixpoint terminals (node : TrieNode) : list (list string) :=
(if isTerminal node then [[]] else [])
++ flat_map (fun kc => map (cons (fst kc)) (terminals (snd kc))) (children node).

(** A trie as [insert] builds them: the keys under a node are distinct
    segments and every subtree holds a terminal path. *)
Inductive wellFormed : TrieNode -> Prop :=
| wellFormed_node cs t :
    NoDup (map fst cs) ->
    Forall (fun kc => isSegment (fst kc) = true
                      /\ terminals (snd kc) <> []
                      /\ wellFormed (snd kc)) cs ->
    wellFormed (mkTrieNode cs t).

(** What [postOrder] reports below a node, as lists of segments: the node
    itself when it is branching or terminal (the root excepted), otherwise
    what its children report. *)
Fixpoint reported (node : TrieNode) (segs : list string) : list (list string) :=
let below := flat_map (fun kc => reported (snd kc) (segs ++ [fst kc])) (children node) in
match segs with
| [] => below
| _ :: _ => if isBranching node || isTerminal node then [segs] else below
end.

(** [q] is marked in the set [P] of inserted paths: it is one of them, or
    two of them part ways right after it. *)
Definition marked (P : list (list string)) (q : list string) : Prop :=
In q P
\/ exists k1 k2 q1 q2, k1 <> k2 /\ In (q ++ k1 :: q1) P /\ In (q ++ k2 :: q2) P.

(** [a] is a proper prefix of [b], segment by segment. *)
Definition strictPrefix (a b : list string) : Prop :=
exists q, q <> [] /\ b = a ++ q.

(** [q] is a lowest common ancestor of [P]: a marked, non-empty path none
    of whose non-empty proper prefixes is marked. *)
Definition isLCA (P : list (list string)) (q : list string) : Prop :=
q <> [] /\ marked P q
/\ forall q', q' <> [] -> strictPrefix q' q -> ~ marked P q'.

(** The terminal paths that pass through the children of a node. *)
Definition below (cs : list (string * TrieNode)) : list (list string) :=
  flat_map (fun kc => map (cons (fst kc)) (terminals (snd kc))) cs.

(** The trie that [computeLCA] builds from a list of directories. *)
Definition trieOf (dirPaths : list string) (start : TrieNode) : TrieNode :=
  fold_left (fun trie dir => PathTrie.insert dir trie) dirPaths start.

(** [isLCA] relative to a node: below the root the empty path counts too. *)
Definition topmost (P : list (list string)) (atRoot : bool) (q : list string) : Prop :=
  (atRoot = true -> q <> [])
  /\ marked P q
  /\ forall q1 q2, q = q1 ++ q2 -> q2 <> [] -> (atRoot = true -> q1 <> []) -> ~ marked P q1.

Definition atRoot (segs : list string) : bool :=
  match segs with [] => true | _ :: _ => false end.

(** ** Vocabulary for grounding *)

(** [{ ...node, metadata: m }]. *)
Definition setMetadata (node : Node) (m : option StructuralMetadata) : Node :=
mkNode (node_id node) (node_type node) (feature node) m (directoryPath node) (sourceCode node).

(** The metadata that [propagate] assigns to a high-level node whose
    directories have the LCA paths [lcaPaths]; nothing changes when there is
    no LCA path. *)
Definition groundedMetadata (old : option StructuralMetadata) (lcaPaths : list string)
    : option StructuralMetadata :=
match lcaPaths with
| [] => old
| [only] => Some (ArtifactGrounder.withPath old only)
| _ :: _ :: _ =>
    match Js.sort lcaPaths with
    | first :: _ => Some (ArtifactGrounder.withPaths old first (Js.sort lcaPaths))
    | [] => old
    end
end.

(** [metadata?.extra]. *)
Definition extraOf (m : option StructuralMetadata) : option (gmap string JsValue) :=
match m with Some m => extra m | None => None end.

(** The ids of the children of a node, in the order of [getChildren]. *)
Definition childIds (rpg : RepositoryPlanningGraph) (v : string) : list string :=
map node_id (RPG.getChildren rpg v).

Definition strLe (a b : string) : Prop := Js.lessEq a b = true.

(** A node keeps its id and its type; a low-level node keeps everything. *)
Definition sameKind (n n0 : Node) : Prop :=
node_id n = node_id n0 /\ node_type n = node_type n0
  /\ (isLowLevelNode n0 = true -> n = n0).

Section Coverage.

Variable dirname : string -> string.

(** [covers rpg v d]: the directory [d] belongs to a low-level node with a
    path that is [v] itself or is met first when descending from [v]
    through nodes that are not low-level. *)
Inductive covers (rpg : RepositoryPlanningGraph) : string -> string -> Prop :=
| covers_here v node p :
    RPG.getNode rpg v = Some node -> isLowLevelNode node = true ->
    RPG.pathOf node = Some p -> Js.nonEmpty p = true ->
    covers rpg v (dirname p)
| covers_below v node c d :
    RPG.getNode rpg v = Some node -> isLowLevelNode node = false ->
    In c (childIds rpg v) -> covers rpg c d ->
    covers rpg v d.

(** [reaches rpg v u]: the propagation started at [v] calls itself on
    [u]. *)
Inductive reaches (rpg : RepositoryPlanningGraph) : string -> string -> Prop :=
| reaches_here v : reaches rpg v v
| reaches_below v node c u :
    RPG.getNode rpg v = Some node -> isLowLevelNode node = false ->
    In c (childIds rpg v) -> reaches rpg c u ->
    reaches rpg v u.

(** [S] lists the directories covered by [v], each once. *)
Definition listing (rpg : RepositoryPlanningGraph) (v : string) (S : list string) : Prop :=
NoDup S /\ forall d, In d S <-> covers rpg v d.

(** In [rpg] the node [u] is the high-level node that it was in [rpg0],
    with the metadata assigned from its covered directories. *)
Definition grounded (rpg0 rpg : RepositoryPlanningGraph) (u : string) : Prop :=
exists node0 S,
  RPG.getNode rpg0 u = Some node0 /\ isHighLevelNode node0 = true
  /\ listing rpg0 u S
  /\ RPG.getNode rpg u
     = Some (setMetadata node0 (groundedMetadata (metadata node0) (computeLCA S))).

(** [rpg] is [rpg0] up to the grounding of some of its nodes. *)
Record groundingOf (rpg0 rpg : RepositoryPlanningGraph) : Prop := mkGroundingOf {
  same_edges : g_edges (graph rpg) = g_edges (graph rpg0);
  same_keys : map fst (g_nodes (graph rpg)) = map fst (g_nodes (graph rpg0));
  same_or_grounded :
    forall u, RPG.getNode rpg u = RPG.getNode rpg0 u \/ grounded rpg0 rpg u
}.

(** The version of a node that a call may read: as it was, or already
    grounded by an earlier visit. *)
Definition version (rpg0 : RepositoryPlanningGraph) (v : string) (node0 node : Node) : Prop :=
node = node0
\/ exists S1, listing rpg0 v S1
              /\ node = setMetadata node0 (groundedMetadata (metadata node0) (computeLCA S1)).

(** What a call [propagate(v)] that started in [rpg] and returned [rpg']
    and [S] has achieved. *)
Record propagated (rpg0 rpg : RepositoryPlanningGraph) (v : string)
    (rpg' : RepositoryPlanningGraph) (S : list string) : Prop := mkPropagated {
  after_grounding : groundingOf rpg0 rpg';
  after_keeps : forall u, grounded rpg0 rpg u -> grounded rpg0 rpg' u;
  after_listing : listing rpg0 v S;
  after_reached :
    forall u n0, reaches rpg0 v u -> RPG.getNode rpg0 u = Some n0 ->
                 isHighLevelNode n0 = true -> grounded rpg0 rpg' u
}.

(** The descent from [v] through nodes that are not low-level ends within
    [fuel] nested calls. *)
Fixpoint settles (rpg : RepositoryPlanningGraph) (fuel : nat) (v : string) : Prop :=
match fuel with
| O => False
| S fuel' =>
    match RPG.getNode rpg v with
    | None => True
    | Some node =>
        isLowLevelNode node = true \/ Forall (settles rpg fuel') (childIds rpg v)
    end
end.

End Coverage.

(** ** Sample hierarchies for grounding *)

Module Hierarchy.





End Hierarchy.

(** ** Entity ids and graph store: vocabulary of the statements *)

(** The id that [extractEntities] gives to a parsed entity. *)
Definition entityIdOf (relativePath : string) (entity : CodeEntity) : string :=
  let kind := CodeEntityType_value (ce_type entity) in
  let line := Js.stringOfNat (ce_startLine entity) in
  if Js.nonEmpty (ce_name entity)
  then (relativePath ++ ":" ++ kind ++ ":" ++ ce_name entity ++ ":" ++ line)%string
  else (relativePath ++ ":" ++ kind ++ ":" ++ line)%string.

Definition hasEntityType (entity : CodeEntity) : bool :=
  match RPGEncoder.mapEntityType (ce_type entity) with Some _ => true | None => false end.

(** An edge record agrees with the edge object it carries. *)
Definition edgeRecorded (ed : EdgeData) : Prop :=
  e_key ed = RPG.edgeKey (e_attributes ed)
  /\ e_source ed = source (e_attributes ed)
  /\ e_target ed = target (e_attributes ed).

Record consistent (g : Graph) : Prop := mkConsistent {
  nodes_unique : NoDup (map fst (g_nodes g));
  edges_unique : NoDup (map e_key (g_edges g));
  edges_recorded : Forall edgeRecorded (g_edges g);
  edges_anchored :
    Forall (fun ed => Graphology.hasNode g (e_source ed) = true
                      /\ Graphology.hasNode g (e_target ed) = true) (g_edges g)
}.

(** Two edges with the same source, target and type. *)
Definition sameIdentity (e1 e2 : Edge) : bool :=
  String.eqb (source e1) (source e2)
  && String.eqb (target e1) (target e2)
  && EdgeType_eqb (edge_type e1) (edge_type e2).

(** ** graph/rpg.ts: topological order, serialization and statistics *)

(** The closure variables of [getTopologicalOrder]. *)
Record TopoState : Type := mkTopoState {
  topo_visited : gset string;
  topo_result : list Node
}.

Module TopologicalOrder.

(** The closure [visit(nodeId)].  [fuel] bounds the nesting of calls;
    [None] means that it ran out. *)
Fixpoint visit (fuel : nat) (rpg : RepositoryPlanningGraph) (nodeId : string)
    (st : TopoState) : option TopoState :=
  if bool_decide (nodeId ∈ topo_visited st) then Some st
  else
    match fuel with
    | O => None
    | S fuel' =>
        let st := mkTopoState ({[nodeId]} ∪ topo_visited st) (topo_result st) in
        match
          ExploreRPG.forEach (fun st dep => visit fuel' rpg (target dep) st)
            (RPG.getOutEdges rpg nodeId (Some Dependency)) st
        with
        | None => None
        | Some st =>
            match RPG.getNode rpg nodeId with
            | Some node => Some (mkTopoState (topo_visited st) (topo_result st ++ [node]))
            | None => Some st
            end
        end
    end.

Definition initial : TopoState := mkTopoState ∅ [].

(** The loop of [getTopologicalOrder] over [getNodes()]. *)
Definition visitAll (fuel : nat) (rpg : RepositoryPlanningGraph) : option TopoState :=
  ExploreRPG.forEach (fun st node => visit fuel rpg (node_id node) st)
    (RPG.getNodes rpg) initial.

(** [getTopologicalOrder()].  A call of [visit] that does not return at
    once marks an id that was not marked, and only a stored node has
    outgoing edges, so the calls nest at most one deeper than there are
    nodes. *)
Definition getTopologicalOrder (rpg : RepositoryPlanningGraph) : option (list Node) :=
  match visitAll (S (length (g_nodes (graph rpg)))) rpg with
  | Some st => Some (rev (topo_result st))
  | None => None
  end.

End TopologicalOrder.

(** [SerializedRPG]: the entries of [nodes] and [edges] are the node and
    edge objects. *)
Record SerializedRPG : Type := mkSerializedRPG {
  ser_version : string;
  ser_config : RPGConfig;
  ser_nodes : list Node;
  ser_edges : list Edge
}.

Module Serialization.

(** [serialize()]. *)
Definition serialize (rpg : RepositoryPlanningGraph) : SerializedRPG :=
  mkSerializedRPG "1.0.0" (config rpg) (RPG.getNodes rpg) (RPG.getEdges rpg).

(** The two loops of [deserialize]. *)
Fixpoint addNodes (nodes : list Node) (rpg : RepositoryPlanningGraph)
    : result RepositoryPlanningGraph :=
  match nodes with
  | [] => Ok rpg
  | nodeData :: tl =>
      match RPG.addNode rpg nodeData with
      | Ok rpg' => addNodes tl rpg'
      | Throw msg => Throw msg
      end
  end.

Fixpoint addEdges (edges : list Edge) (rpg : RepositoryPlanningGraph)
    : result RepositoryPlanningGraph :=
  match edges with
  | [] => Ok rpg
  | edgeData :: tl =>
      match RPG.addEdge rpg edgeData with
      | Ok rpg' => addEdges tl rpg'
      | Throw msg => Throw msg
      end
  end.

(** [deserialize(data)].  On data of the serialized shape the schema check
    passes and hands the data on. *)
Definition deserialize (data : SerializedRPG) : result RepositoryPlanningGraph :=
  let rpg := RPG.create (ser_config data) in
  match addNodes (ser_nodes data) rpg with
  | Ok rpg' => addEdges (ser_edges data) rpg'
  | Throw msg => Throw msg
  end.

End Serialization.

(** The object returned by [getStats()]. *)
Record GraphStats : Type := mkGraphStats {
  nodeCount : nat;
  edgeCount : nat;
  highLevelNodeCount : nat;
  lowLevelNodeCount : nat;
  functionalEdgeCount : nat;
  dependencyEdgeCount : nat
}.

(** [getStats()]: [graph.order] and [graph.size] count the stored nodes
    and edges. *)
Definition getStats (rpg : RepositoryPlanningGraph) : GraphStats :=
  mkGraphStats
    (length (g_nodes (graph rpg)))
    (length (g_edges (graph rpg)))
    (length (RPG.getHighLevelNodes rpg))
    (length (RPG.getLowLevelNodes rpg))
    (length (RPG.getFunctionalEdges rpg))
    (length (RPG.getDependencyEdges rpg)).

(** [getConfig()]: a copy of the configuration. *)
Definition getConfig (rpg : RepositoryPlanningGraph) : RPGConfig :=
  mkConfig (cfg_name (config rpg)) (cfg_rootPath (config rpg)) (cfg_description (config rpg)).

(** ** Vocabulary for the graph operations *)

(** Every node is stored under its own id: [addNode] stores it that way,
    and only an update that names [id] can change it. *)
Definition keyed (g : Graph) : Prop :=
  Forall (fun kn => node_id (snd kn) = fst kn) (g_nodes g).

(** [b] is a dependency of [a]: a dependency edge leads from [a] to [b]. *)
Definition dependsOn (rpg : RepositoryPlanningGraph) (a b : string) : Prop :=
  exists e, In e (RPG.getOutEdges rpg a (Some Dependency)) /\ target e = b.

(** A chain of dependency edges, empty or not. *)
Inductive dependsOnStar (rpg : RepositoryPlanningGraph) : string -> string -> Prop :=
| dependsOnStar_refl a : dependsOnStar rpg a a
| dependsOnStar_step a b c :
    dependsOnStar rpg a b -> dependsOn rpg b c -> dependsOnStar rpg a c.

(** No node depends on itself through a chain of dependency edges. *)
Definition acyclic (rpg : RepositoryPlanningGraph) : Prop :=
  forall a b, dependsOnStar rpg a b -> dependsOn rpg b a -> False.

(** In the list every node comes after the nodes it depends on. *)
Definition dependenciesFirst (rpg : RepositoryPlanningGraph) (l : list Node) : Prop :=
  forall l1 n l2, l = l1 ++ n :: l2 ->
  forall b nb, dependsOn rpg (node_id n) b -> RPG.getNode rpg b = Some nb -> In nb l1.

(** What holds of the closure variables of [getTopologicalOrder] between
    two calls of [visit]: no node was pushed twice, every pushed node is
    the one stored under its id and that id is marked, and, when the
    dependencies have no cycle, the pushed nodes come after their
    dependencies. *)
Record topoInv (rpg : RepositoryPlanningGraph) (st : TopoState) : Prop := mkTopoInv {
  ti_once : NoDup (map node_id (topo_result st));
  ti_stored : forall n, In n (topo_result st) ->
                RPG.getNode rpg (node_id n) = Some n /\ node_id n ∈ topo_visited st;
  ti_ordered : acyclic rpg -> dependenciesFirst rpg (topo_result st)
}.

(** [a] comes before [b] in the list. *)
Definition precedes {A} (l : list A) (a b : A) : Prop :=
  exists l1 l2 l3, l = l1 ++ a :: l2 ++ b :: l3.

(** ** Sample graph with dependencies *)

Module Imports.

Definition uses (s t : string) : Edge := createDependencyEdge s t Dimport None None.

(** [app] imports [lib] and [util]; [lib] imports [util]. *)
Definition layered : RepositoryPlanningGraph :=
  mkRPG
    (mkGraph
       [("util", Sample.fileNode "util" "src/util.ts");
        ("app", Sample.fileNode "app" "src/app.ts");
        ("lib", Sample.fileNode "lib" "src/lib.ts")]
       [mkEdgeData "app->lib:dependency" "app" "lib" (uses "app" "lib");
        mkEdgeData "app->util:dependency" "app" "util" (uses "app" "util");
        mkEdgeData "lib->util:dependency" "lib" "util" (uses "lib" "util")])
    Sample.cfg.

Definition layeredWrites : list Sample.write :=
  [Sample.AddNode (Sample.fileNode "util" "src/util.ts");
   Sample.AddNode (Sample.fileNode "app" "src/app.ts");
   Sample.AddNode (Sample.fileNode "lib" "src/lib.ts");
   Sample.AddEdge (uses "app" "lib");
   Sample.AddEdge (uses "app" "util");
   Sample.AddEdge (uses "lib" "util")].

Definition rank (id : string) : nat :=
  if String.eqb id "app" then 2 else if String.eqb id "lib" then 1 else 0.

End Imports.

(** ** tools/fetch.ts: FetchNode *)

Record FetchOptions : Type := mkFetchOptions {
  fo_codeEntities : option (list string);
  fo_featureEntities : option (list string)
}.

(** [EntityDetail]: [{ node, sourceCode, featurePaths }]. *)
Record EntityDetail : Type := mkEntityDetail {
  fd_node : Node;
  fd_sourceCode : option string;
  fd_featurePaths : list string
}.

(** [FetchResult]: [{ entities, notFound }]. *)
Record FetchResult : Type := mkFetchResult {
  fr_entities : list EntityDetail;
  fr_notFound : list string
}.

Module FetchNode.

(** The [while (current)] loop of [getFeaturePaths]: the description of
    the current node is put in front and the loop goes on with its
    parent.  [fuel] bounds the number of rounds; [None] means that it ran
    out. *)
Fixpoint climb (fuel : nat) (rpg : RepositoryPlanningGraph) (current : option Node)
    (paths : list string) : option (list string) :=
  match current with
  | None => Some paths
  | Some node =>
      match fuel with
      | O => None
      | S fuel' =>
          climb fuel' rpg (RPG.getParent rpg (node_id node))
                (description (feature node) :: paths)
      end
  end.

(** [getFeaturePaths(nodeId)]. *)
Definition getFeaturePaths (fuel : nat) (rpg : RepositoryPlanningGraph) (nodeId : string)
    : option (list string) :=
  match climb fuel rpg (RPG.getNode rpg nodeId) [] with
  | Some paths => Some [Js.join " / " paths]
  | None => None
  end.

(** [[...(options.codeEntities ?? []), ...(options.featureEntities ?? [])]]. *)
Definition allIds (options : FetchOptions) : list string :=
  (match fo_codeEntities options with Some ids => ids | None => [] end)
  ++ (match fo_featureEntities options with Some ids => ids | None => [] end).

(** The loop of [get] over the ids. *)
Fixpoint fetchAll (fuel : nat) (rpg : RepositoryPlanningGraph) (ids : list string)
    (entities : list EntityDetail) (notFound : list string) : option FetchResult :=
  match ids with
  | [] => Some (mkFetchResult entities notFound)
  | id :: tl =>
      match RPG.getNode rpg id with
      | Some node =>
          match getFeaturePaths fuel rpg (node_id node) with
          | Some featurePaths =>
              fetchAll fuel rpg tl
                (entities ++ [mkEntityDetail node (sourceCode node) featurePaths]) notFound
          | None => None
          end
      | None => fetchAll fuel rpg tl entities (notFound ++ [id])
      end
  end.

(** [get(options)]. *)
Definition get (fuel : nat) (rpg : RepositoryPlanningGraph) (options : FetchOptions)
    : option FetchResult :=
  fetchAll fuel rpg (allIds options) [] [].

End FetchNode.

(** ** Vocabulary for the tools *)

(** [lineage rpg node l]: [l] lists [node] and its ancestors along
    [getParent], the topmost first. *)
Inductive lineage (rpg : RepositoryPlanningGraph) : Node -> list Node -> Prop :=
| lineage_top node :
    RPG.getParent rpg (node_id node) = None -> lineage rpg node [node]
| lineage_up node parent l :
    RPG.getParent rpg (node_id node) = Some parent -> lineage rpg parent l ->
    lineage rpg node (l ++ [node]).

(** One step of the traversal from [a] to [b]: along an outgoing edge of
    a traversed type when the direction goes out, or against an incoming
    one when it goes in. *)
Definition exploreStep (rpg : RepositoryPlanningGraph) (kind : ExploreEdgeType)
    (towards : Direction) (a b : string) : Prop :=
  exists et e,
    In et (ExploreRPG.getEdgeTypes kind)
    /\ ((ExploreRPG.goesOut towards = true
         /\ In e (RPG.getOutEdges rpg a (Some et)) /\ target e = b)
        \/ (ExploreRPG.goesIn towards = true
            /\ In e (RPG.getInEdges rpg a (Some et)) /\ source e = b)).

(** [b] is [d] such steps away from [start]. *)
Inductive exploreChain (rpg : RepositoryPlanningGraph) (kind : ExploreEdgeType)
    (towards : Direction) (start : string) : nat -> string -> Prop :=
| chain_start : exploreChain rpg kind towards start 0 start
| chain_step d a b :
    exploreChain rpg kind towards start d a -> exploreStep rpg kind towards a b ->
    exploreChain rpg kind towards start (S d) b.

(** The entry of [edges] pushed for an edge. *)
Definition refOf (e : Edge) : EdgeRef := mkEdgeRef (source e) (target e) (edge_type e).

(** ** encoder/encoder.ts: glob matching of file paths *)

Module EncoderGlob.

(** [s.replace(/\\/g, '/')]. *)
Fixpoint replaceBackslashes (s : string) : string :=
  match s with
  | EmptyString => EmptyString
  | String a rest =>
      String (if Ascii.eqb a "\"%char then "/"%char else a) (replaceBackslashes rest)
  end.

(** [s.replace(/\./g, '\\.')]. *)
Fixpoint escapeDots (s : string) : string :=
  match s with
  | EmptyString => EmptyString
  | String a rest =>
      if Ascii.eqb a "."%char then String "\"%char (String "."%char (escapeDots rest))
      else String a (escapeDots rest)
  end.

(** [s.replace(/\?/g, '.')]. *)
Fixpoint replaceQuestionMarks (s : string) : string :=
  match s with
  | EmptyString => EmptyString
  | String a rest =>
      String (if Ascii.eqb a "?"%char then "."%char else a) (replaceQuestionMarks rest)
  end.

(** The source of the regular expression built by [matchSegment]:
    [`^${regexPattern}$`]. *)
Definition regexSource (patternSeg : string) : string :=
  ("^" ++ replaceQuestionMarks (Js.replaceStars (escapeDots patternSeg)) ++ "$")%string.

(** The [for] loop of the globstar case: [attempt i] for [i] from [from]
    upwards, [count] times, until one attempt succeeds. *)
Fixpoint firstFrom (attempt : nat -> outcome bool) (from count : nat) : outcome bool :=
  match count with
  | O => Done false
  | S count' =>
      let* matched := attempt from in
      if matched then Done true else firstFrom attempt (S from) count'
  end.

(** [patterns.some(p => test p)]. *)
Fixpoint some (test : string -> outcome bool) (patterns : list string) : outcome bool :=
  match patterns with
  | [] => Done false
  | pattern :: tl =>
      let* matched := test pattern in
      if matched then Done true else some test tl
  end.

Section Matching.

(** [new RegExp(source)]: [None] when the constructor throws a syntax
    error, otherwise the [test] method of the regular expression. *)
Variable RegExp : string -> option (string -> bool).

(** [matchSegment(pathSeg, patternSeg)]. *)
Definition matchSegment (pathSeg patternSeg : string) : outcome bool :=
  match RegExp (regexSource patternSeg) with
  | None => Raised "SyntaxError: Invalid regular expression"
  | Some test => Done (test pathSeg)
  end.

(** [matchSegments(pathSegs, patternSegs, pathIdx, patternIdx)].  [fuel]
    bounds the nesting of calls.  An index past the end of an array reads
    [undefined]: as a path segment it is tested as the string
    [undefined], as a pattern segment its [replace] is a type error. *)
Fixpoint matchSegments (fuel : nat) (pathSegs patternSegs : list string)
    (pathIdx patternIdx : nat) : outcome bool :=
  match fuel with
  | O => OutOfFuel
  | S fuel' =>
      if (pathIdx =? length pathSegs)%nat && (patternIdx =? length patternSegs)%nat then
        Done true
      else if (patternIdx =? length patternSegs)%nat then Done false
      else
        match nth_error patternSegs patternIdx with
        | None => Raised "TypeError: undefined is not an object"
        | Some patternSeg =>
            if String.eqb patternSeg "**" then
              firstFrom
                (fun i => matchSegments fuel' pathSegs patternSegs i (patternIdx + 1))
                pathIdx (length pathSegs + 1 - pathIdx)
            else if (pathIdx =? length pathSegs)%nat then Done false
            else
              let pathSeg :=
                match nth_error pathSegs pathIdx with
                | Some s => s
                | None => "undefined"
                end in
              let* matched := matchSegment pathSeg patternSeg in
              if matched then
                matchSegments fuel' pathSegs patternSegs (pathIdx + 1) (patternIdx + 1)
              else Done false
        end
  end.

(** [globMatch(filePath, pattern)].  Every nested call of
    [matchSegments] moves one pattern segment on, so the calls nest at most
    one deeper than the pattern has segments. *)
Definition globMatch (filePath pattern : string) : outcome bool :=
  let normalizedPath := replaceBackslashes filePath in
  let normalizedPattern := replaceBackslashes pattern in
  let pathSegments := Js.split "/" normalizedPath in
  let patternSegments := Js.split "/" normalizedPattern in
  matchSegments (S (length patternSegments)) pathSegments patternSegments 0 0.

(** [matchesPattern(filePath, patterns)]. *)
Definition matchesPattern (filePath : string) (patterns : list string) : outcome bool :=
  some (globMatch filePath) patterns.

End Matching.

End EncoderGlob.

(** ** Vocabulary for glob matching *)

(** [globs test path pattern]: the path segments match the pattern
    segments, where [**] stands for any number of segments, none included,
    and every other pattern segment matches one path segment according to
    [test]. *)
Inductive globs (test : string -> string -> bool) : list string -> list string -> Prop :=
| globs_end : globs test [] []
| globs_skip path pattern :
    globs test path pattern -> globs test path ("**" :: pattern)
| globs_take s path pattern :
    globs test path ("**" :: pattern) -> globs test (s :: path) ("**" :: pattern)
| globs_segment s path p pattern :
    p <> "**" -> test s p = true -> globs test path pattern ->
    globs test (s :: path) (p :: pattern).

(** The test of one segment when the regular expression of the pattern
    segment compiles; [false] stands in when it does not. *)
Definition segmentTest (RegExp : string -> option (string -> bool)) (s p : string) : bool :=
  match RegExp (EncoderGlob.regexSource p) with
  | Some test => test s
  | None => false
  end.

(** Every pattern segment other than [**] gives a regular expression
    that compiles. *)
Definition compiles (RegExp : string -> option (string -> bool)) (patternSegs : list string)
    : Prop :=
  Forall (fun p => p = "**" \/ RegExp (EncoderGlob.regexSource p) <> None) patternSegs.

(** The platform functions on plain inputs, to run the examples.
    [RegExp] is a regular-expression engine for the sources without
    operators: the source [^text$] is accepted when [text] has none of
    the characters [. * ? \ + ( ) [ ] { } | ^ $], and then matches [text]
    alone.  [toLowerCase] is the built-in on texts of ASCII characters:
    the letters [A] to [Z] become [a] to [z], the other characters
    stay. *)
Module Literal.

Definition lowerChar (a : ascii) : ascii :=
  let n := nat_of_ascii a in
  if (65 <=? n)%nat && (n <=? 90)%nat then ascii_of_nat (n + 32) else a.

Fixpoint toLowerCase (s : string) : string :=
  match s with
  | EmptyString => EmptyString
  | String a rest => String (lowerChar a) (toLowerCase rest)
  end.

Definition isOperator (a : ascii) : bool :=
  existsb (Ascii.eqb a)
    ["."; "*"; "?"; "\"; "+"; "("; ")"; "["; "]"; "{"; "}"; "|"; "^"; "$"]%char.

Fixpoint plain (s : string) : bool :=
  match s with
  | EmptyString => true
  | String a rest => negb (isOperator a) && plain rest
  end.

Fixpoint dropLast (s : string) : option string :=
  match s with
  | EmptyString => None
  | String a EmptyString => if Ascii.eqb a "$"%char then Some EmptyString else None
  | String a rest =>
      match dropLast rest with Some r => Some (String a r) | None => None end
  end.

Definition RegExp (source : string) : option (string -> bool) :=
  match source with
  | String a rest =>
      if Ascii.eqb a "^"%char then
        match dropLast rest with
        | Some text => if plain text then Some (String.eqb text) else None
        | None => None
        end
      else None
  | EmptyString => None
  end.

End Literal.

(** ** Vocabulary for feature search *)

(** [t] occurs in [s]. *)
Definition occursIn (t s : string) : Prop :=
  exists before after, s = (before ++ t ++ after)%string.

(** The texts of a feature that [searchByFeature] looks at. *)
Definition featureTexts (f : SemanticFeature) : list string :=
  description f
  :: (match keywords f with Some l => l | None => [] end)
  ++ (match subFeatures f with Some l => l | None => [] end).

(** ** Sample hierarchy with a cycle below a root *)

Module Loop.

(** [root] -> [a] -> [b] -> [a]. *)
Definition cyclic : RepositoryPlanningGraph :=
  mkRPG
    (mkGraph
       [("root", Sample.highLevel "root"); ("a", Sample.highLevel "a");
        ("b", Sample.highLevel "b")]
       [mkEdgeData "root->a:functional" "root" "a" (Sample.child "root" "a");
        mkEdgeData "a->b:functional" "a" "b" (Sample.child "a" "b");
        mkEdgeData "b->a:functional" "b" "a" (Sample.child "b" "a")])
    Sample.cfg.

Definition cyclicWrites : list Sample.write :=
  [Sample.AddNode (Sample.highLevel "root"); Sample.AddNode (Sample.highLevel "a");
   Sample.AddNode (Sample.highLevel "b");
   Sample.AddEdge (Sample.child "root" "a"); Sample.AddEdge (Sample.child "a" "b");
   Sample.AddEdge (Sample.child "b" "a")].

End Loop.

(** ** Sample graphs for the order of the adjacency *)

Module Parallel.

(** [c] is a child of [b] and of [a], in this order of insertion, and a
    dependency edge from [a] to [c] is older than both. *)
Definition twoParentsWrites : list Sample.write :=
  [Sample.AddNode (Sample.highLevel "a"); Sample.AddNode (Sample.highLevel "b");
   Sample.AddNode (Sample.highLevel "c");
   Sample.AddEdge (Imports.uses "a" "c");
   Sample.AddEdge (Sample.child "b" "c");
   Sample.AddEdge (Sample.child "a" "c")].

Definition twoParents : RepositoryPlanningGraph :=
  mkRPG
    (mkGraph
       [("a", Sample.highLevel "a"); ("b", Sample.highLevel "b"); ("c", Sample.highLevel "c")]
       [mkEdgeData "a->c:dependency" "a" "c" (Imports.uses "a" "c");
        mkEdgeData "b->c:functional" "b" "c" (Sample.child "b" "c");
        mkEdgeData "a->c:functional" "a" "c" (Sample.child "a" "c")])
    Sample.cfg.

(** The children of [r], added in the order [x], [10], [07], [9], and a
    dependency edge from [r] to [x] added last. *)
Definition numberedWrites : list Sample.write :=
  [Sample.AddNode (Sample.highLevel "r"); Sample.AddNode (Sample.highLevel "x");
   Sample.AddNode (Sample.highLevel "10"); Sample.AddNode (Sample.highLevel "9");
   Sample.AddNode (Sample.highLevel "07");
   Sample.AddEdge (Sample.child "r" "x"); Sample.AddEdge (Sample.child "r" "10");
   Sample.AddEdge (Sample.child "r" "07"); Sample.AddEdge (Sample.child "r" "9");
   Sample.AddEdge (Imports.uses "r" "x")].

Definition numbered : RepositoryPlanningGraph :=
  mkRPG
    (mkGraph
       [("r", Sample.highLevel "r"); ("x", Sample.highLevel "x");
        ("10", Sample.highLevel "10"); ("9", Sample.highLevel "9");
        ("07", Sample.highLevel "07")]
       [mkEdgeData "r->x:functional" "r" "x" (Sample.child "r" "x");
        mkEdgeData "r->10:functional" "r" "10" (Sample.child "r" "10");
        mkEdgeData "r->07:functional" "r" "07" (Sample.child "r" "07");
        mkEdgeData "r->9:functional" "r" "9" (Sample.child "r" "9");
        mkEdgeData "r->x:dependency" "r" "x" (Imports.uses "r" "x")])
    Sample.cfg.

End Parallel.

(** * Properties *)

(** ** Maps and sets in insertion order *)

Lemma mapHas_app {V} (k : string) (l1 l2 : list (string * V)) :
  Js.mapHas k (l1 ++ l2) = Js.mapHas k l1 || Js.mapHas k l2.
Proof.
  unfold Js.mapHas. induction l1 as [|[k' v] l1 IH]; simpl.
  - reflexivity.
  - destruct (String.eqb k k'); [reflexivity | exact IH].
Qed.

Lemma mapHas_In {V} (k : string) (l : list (string * V)) :
  Js.mapHas k l = true <-> In k (map fst l).
Proof.
  unfold Js.mapHas. induction l as [|[k' v] l IH]; simpl.
  - split; [discriminate | tauto].
  - destruct (String.eqb_spec k k') as [->|Hne].
    + split; auto.
    + rewrite IH. split; [auto | intros [H|H]; [congruence | exact H]].
Qed.

Lemma mapHas_false_In {V} (k : string) (l : list (string * V)) :
  Js.mapHas k l = false <-> ~ In k (map fst l).
Proof.
  rewrite <- mapHas_In. destruct (Js.mapHas k l); split; intros; congruence.
Qed.

Lemma mapGet_None_has {V} (k : string) (l : list (string * V)) :
  Js.mapHas k l = false -> Js.mapGet k l = None.
Proof.
  unfold Js.mapHas. destruct (Js.mapGet k l); [discriminate | reflexivity].
Qed.

Lemma mapGet_Some_has {V} (k : string) (l : list (string * V)) :
  Js.mapHas k l = true -> exists v, Js.mapGet k l = Some v.
Proof.
  unfold Js.mapHas. destruct (Js.mapGet k l) as [v|]; [eauto | discriminate].
Qed.

(** ** Entity ids (encoder) *)

Lemma generateEntityId_file (relativePath : string) :
  RPGEncoder.generateEntityId relativePath "file" None None = (relativePath ++ ":file")%string.
Proof. reflexivity. Qed.

Lemma generateEntityId_entity (relativePath : string) (entity : CodeEntity) :
  RPGEncoder.generateEntityId relativePath (CodeEntityType_value (ce_type entity))
    (Some (ce_name entity)) (Some (ce_startLine entity))
  = entityIdOf relativePath entity.
Proof.
  unfold RPGEncoder.generateEntityId, entityIdOf.
  destruct (Js.nonEmpty (ce_name entity)); reflexivity.
Qed.

(** C3, as the code has it: the file node gets [{relativePath}:file]; every
    parsed entity of kind function, class or method gets
    [{relativePath}:{type}:{name}:{startLine}] (the name is left out when it
    is empty), so the start line is part of every entity id. *)
Theorem entity_ids_carry_start_line
    (extract : EntityInput -> SemanticFeature) (stem : string -> string)
    (relativePath : string) (parsed : list CodeEntity) :
  map ex_id (RPGEncoder.extractEntities extract stem relativePath parsed)
  = (relativePath ++ ":file")%string
    :: map (entityIdOf relativePath) (List.filter hasEntityType parsed).
Proof.
  unfold RPGEncoder.extractEntities. cbn [map ex_id]. f_equal.
  induction parsed as [|entity parsed IH]; [reflexivity|].
  cbn [omap list_omap List.filter]. unfold hasEntityType at 1.
  unfold RPGEncoder.convertCodeEntity at 1.
  destruct (RPGEncoder.mapEntityType (ce_type entity)); cbn [map ex_id].
  - rewrite generateEntityId_entity. f_equal. exact IH.
  - exact IH.
Qed.

(** C3, as stated, fails: for [greet] declared on line 1 of [src/a.ts] the
    ids are not [src/a.ts:file] and [src/a.ts:function:greet]; the entity id
    ends with the line number. *)
Lemma entity_id_has_line_counterexample :
  map ex_id
    (RPGEncoder.extractEntities (fun _ => mkFeature "" None None) (fun s => s)
       "src/a.ts" [mkCodeEntity CEfunction "greet" 1 3 None])
  = ["src/a.ts:file"; "src/a.ts:function:greet:1"]
  /\ "src/a.ts:function:greet:1" <> "src/a.ts:function:greet".
Proof. split; [reflexivity | discriminate]. Qed.

(** ** The graph store: what every reachable graph satisfies *)

Lemma EdgeType_eqb_eq (a b : EdgeType) : EdgeType_eqb a b = true <-> a = b.
Proof. destruct a, b; simpl; split; congruence. Qed.

Lemma sameIdentity_spec (e1 e2 : Edge) :
  sameIdentity e1 e2 = true
  <-> source e1 = source e2 /\ target e1 = target e2 /\ edge_type e1 = edge_type e2.
Proof.
  unfold sameIdentity. rewrite !andb_true_iff, !String.eqb_eq, EdgeType_eqb_eq. tauto.
Qed.

Lemma sameIdentity_edgeKey (e1 e2 : Edge) :
  sameIdentity e1 e2 = true -> RPG.edgeKey e1 = RPG.edgeKey e2.
Proof.
  rewrite sameIdentity_spec. intros (Hs & Ht & Hty). unfold RPG.edgeKey.
  rewrite Hs, Ht, Hty. reflexivity.
Qed.

Lemma hasEdge_In (g : Graph) (key : string) :
  Graphology.hasEdge g key = true <-> In key (map e_key (g_edges g)).
Proof.
  unfold Graphology.hasEdge. rewrite existsb_exists, in_map_iff. split.
  - intros (ed & Hin & Heq). apply String.eqb_eq in Heq. eauto.
  - intros (ed & Heq & Hin). exists ed. split; [exact Hin|]. apply String.eqb_eq. auto.
Qed.

Lemma hasNode_In (g : Graph) (key : string) :
  Graphology.hasNode g key = true <-> In key (map fst (g_nodes g)).
Proof. apply mapHas_In. Qed.

Lemma map_fst_merge (key : string) (updates : NodeUpdates) (l : list (string * Node)) :
  map fst (map (fun kn => if String.eqb key (fst kn)
                          then (fst kn, Graphology.assign (snd kn) updates) else kn) l)
  = map fst l.
Proof.
  induction l as [|[k n] l IH]; simpl; [reflexivity|].
  rewrite IH. destruct (String.eqb key k); reflexivity.
Qed.

Lemma hasNode_merge (g : Graph) (key k : string) (updates : NodeUpdates) :
  Graphology.hasNode (Graphology.mergeNodeAttributes g key updates) k = Graphology.hasNode g k.
Proof.
  destruct (Graphology.hasNode g k) eqn:H.
  - apply hasNode_In. apply hasNode_In in H. simpl. rewrite map_fst_merge. exact H.
  - apply mapHas_false_In. apply mapHas_false_In in H. simpl. rewrite map_fst_merge. exact H.
Qed.

Lemma hasNode_addNode (g : Graph) (key k : string) (n : Node) :
  Graphology.hasNode (Graphology.addNode g key n) k
  = Graphology.hasNode g k || String.eqb k key.
Proof.
  unfold Graphology.hasNode, Graphology.addNode. simpl. rewrite mapHas_app. f_equal.
  unfold Js.mapHas. simpl. destruct (String.eqb k key); reflexivity.
Qed.

Lemma map_fst_filter_keys (key : string) (l : list (string * Node)) :
  map fst (List.filter (fun kn => negb (String.eqb key (fst kn))) l)
  = List.filter (fun k => negb (String.eqb key k)) (map fst l).
Proof.
  induction l as [|[k n] l IH]; simpl; [reflexivity|].
  destruct (String.eqb key k); simpl; rewrite IH; reflexivity.
Qed.

Lemma hasNode_dropNode (g : Graph) (key k : string) :
  Graphology.hasNode (Graphology.dropNode g key) k
  = Graphology.hasNode g k && negb (String.eqb key k).
Proof.
  destruct (Graphology.hasNode (Graphology.dropNode g key) k) eqn:H; symmetry.
  - apply hasNode_In in H. simpl in H. rewrite map_fst_filter_keys in H.
    apply filter_In in H as [H1 H2]. apply hasNode_In in H1. rewrite H1, H2. reflexivity.
  - apply mapHas_false_In in H. simpl in H. rewrite map_fst_filter_keys in H.
    destruct (Graphology.hasNode g k) eqn:H1; [|reflexivity].
    destruct (String.eqb key k) eqn:H2; [reflexivity|].
    exfalso. apply H. apply filter_In. split; [apply hasNode_In; exact H1|].
    rewrite H2. reflexivity.
Qed.

Lemma consistent_empty : consistent Graphology.empty.
Proof. split; simpl; constructor. Qed.

Lemma consistent_addNode (g : Graph) (key : string) (n : Node) :
  consistent g -> Graphology.hasNode g key = false ->
  consistent (Graphology.addNode g key n).
Proof.
  intros [Hn He Hr Ha] Hfree. split; simpl; auto.
  - rewrite map_app. simpl. apply NoDup_app. split; [exact Hn|]. split.
    + intros x Hx Hx'%list_elem_of_In. destruct Hx' as [Hx'|[]]. subst x.
      apply list_elem_of_In in Hx. apply mapHas_false_In in Hfree. contradiction.
    + apply NoDup_singleton.
  - eapply List.Forall_impl; [|exact Ha]. intros ed [H1 H2]. simpl in *.
    rewrite !hasNode_addNode, H1, H2. auto.
Qed.

Lemma consistent_merge (g : Graph) (key : string) (updates : NodeUpdates) :
  consistent g -> consistent (Graphology.mergeNodeAttributes g key updates).
Proof.
  intros [Hn He Hr Ha]. split; simpl; auto.
  - rewrite map_fst_merge. exact Hn.
  - eapply List.Forall_impl; [|exact Ha]. intros ed [H1 H2]. simpl in *.
    rewrite !hasNode_merge. auto.
Qed.

Lemma NoDup_map_filter {A B} (f : A -> B) (p : A -> bool) (l : list A) :
  NoDup (map f l) -> NoDup (map f (List.filter p l)).
Proof.
  induction l as [|x l IH]; simpl; intros H; [constructor|].
  apply NoDup_cons in H as [Hx Hl]. destruct (p x); simpl; auto.
  apply NoDup_cons. split; auto.
  intros Hin. apply Hx. apply list_elem_of_In in Hin. apply list_elem_of_In.
  apply in_map_iff in Hin as (y & Hy & Hin). apply filter_In in Hin as [Hin _].
  apply in_map_iff. eauto.
Qed.

Lemma consistent_dropNode (g : Graph) (key : string) :
  consistent g -> consistent (Graphology.dropNode g key).
Proof.
  intros [Hn He Hr Ha]. split; simpl.
  - apply NoDup_map_filter. exact Hn.
  - apply NoDup_map_filter. exact He.
  - apply Forall_forall. intros ed Hin%list_elem_of_In.
    apply filter_In in Hin as [Hin _]. rewrite List.Forall_forall in Hr. auto.
  - apply Forall_forall. intros ed Hin%list_elem_of_In.
    apply filter_In in Hin as [Hin Hkeep]. rewrite List.Forall_forall in Ha.
    destruct (Ha ed Hin) as [H1 H2]. apply andb_true_iff in Hkeep as [K1 K2].
    rewrite !hasNode_dropNode, H1, H2, K1, K2. auto.
Qed.

Lemma addEdgeWithKey_Ok (g : Graph) (key s t : string) (e : Edge) (g' : Graph) :
  Graphology.addEdgeWithKey g key s t e = Ok g' ->
  Graphology.hasNode g s = true /\ Graphology.hasNode g t = true
  /\ Graphology.hasEdge g key = false
  /\ g' = mkGraph (g_nodes g) (g_edges g ++ [mkEdgeData key s t e]).
Proof.
  unfold Graphology.addEdgeWithKey.
  destruct (Graphology.hasNode g s); simpl; [|discriminate].
  destruct (Graphology.hasNode g t); simpl; [|discriminate].
  destruct (Graphology.hasEdge g key); [discriminate|].
  intros [= <-]. auto.
Qed.

Lemma addEdge_Ok (rpg : RepositoryPlanningGraph) (e : Edge) (rpg' : RepositoryPlanningGraph) :
  RPG.addEdge rpg e = Ok rpg' ->
  RPG.hasNode rpg (source e) = true /\ RPG.hasNode rpg (target e) = true
  /\ Graphology.hasEdge (graph rpg) (RPG.edgeKey e) = false
  /\ rpg' = RPG.withGraph rpg
              (mkGraph (g_nodes (graph rpg))
                 (g_edges (graph rpg) ++ [mkEdgeData (RPG.edgeKey e) (source e) (target e) e])).
Proof.
  unfold RPG.addEdge, RPG.hasNode.
  destruct (Graphology.hasNode (graph rpg) (source e)) eqn:Hs; simpl; [|discriminate].
  destruct (Graphology.hasNode (graph rpg) (target e)) eqn:Ht; simpl; [|discriminate].
  destruct (Graphology.addEdgeWithKey _ _ _ _ _) as [g'|] eqn:Hadd; [|discriminate].
  intros [= <-]. apply addEdgeWithKey_Ok in Hadd as (_ & _ & Hk & ->). auto.
Qed.

Lemma addEdge_accepts (rpg : RepositoryPlanningGraph) (e : Edge) :
  RPG.hasNode rpg (source e) = true -> RPG.hasNode rpg (target e) = true ->
  Graphology.hasEdge (graph rpg) (RPG.edgeKey e) = false ->
  RPG.addEdge rpg e
  = Ok (RPG.withGraph rpg
          (mkGraph (g_nodes (graph rpg))
             (g_edges (graph rpg) ++ [mkEdgeData (RPG.edgeKey e) (source e) (target e) e]))).
Proof.
  unfold RPG.addEdge, RPG.hasNode, Graphology.addEdgeWithKey.
  intros Hs Ht Hk. rewrite Hs, Ht, Hk. reflexivity.
Qed.

Lemma consistent_addEdge (g : Graph) (e : Edge) :
  consistent g ->
  Graphology.hasNode g (source e) = true -> Graphology.hasNode g (target e) = true ->
  Graphology.hasEdge g (RPG.edgeKey e) = false ->
  consistent (mkGraph (g_nodes g)
                (g_edges g ++ [mkEdgeData (RPG.edgeKey e) (source e) (target e) e])).
Proof.
  intros [Hn He Hr Ha] Hs Ht Hk. split; simpl; auto.
  - rewrite map_app. simpl. apply NoDup_app. split; [exact He|]. split.
    + intros x Hx Hx'%list_elem_of_In. destruct Hx' as [Hx'|[]]. subst x.
      apply list_elem_of_In in Hx. apply hasEdge_In in Hx. congruence.
    + apply NoDup_singleton.
  - apply Forall_app. split; [exact Hr|]. constructor; [|constructor].
    repeat split.
  - apply Forall_app. split.
    + eapply List.Forall_impl; [|exact Ha]. intros ed [H1 H2]. auto.
    + constructor; [|constructor]. simpl. auto.
Qed.

Lemma reachable_consistent (rpg : RepositoryPlanningGraph) :
  RPG.reachable rpg -> consistent (graph rpg).
Proof.
  induction 1 as [cfg | rpg node rpg' _ IH Hop | rpg id updates rpg' _ IH Hop
                 | rpg id rpg' _ IH Hop | rpg edge rpg' _ IH Hop].
  - apply consistent_empty.
  - unfold RPG.addNode in Hop.
    destruct (Graphology.hasNode (graph rpg) (node_id node)) eqn:Hfree; [discriminate|].
    injection Hop as <-. simpl. apply consistent_addNode; assumption.
  - unfold RPG.updateNode in Hop.
    destruct (Graphology.hasNode (graph rpg) id); simpl in Hop; [|discriminate].
    injection Hop as <-. simpl. apply consistent_merge; assumption.
  - unfold RPG.removeNode in Hop.
    destruct (Graphology.hasNode (graph rpg) id); simpl in Hop; [|discriminate].
    injection Hop as <-. simpl. apply consistent_dropNode; assumption.
  - apply addEdge_Ok in Hop as (Hs & Ht & Hk & ->). simpl.
    apply consistent_addEdge; assumption.
Qed.

Lemma build_reachable (ws : list Sample.write) (rpg rpg' : RepositoryPlanningGraph) :
  RPG.reachable rpg -> Sample.build ws rpg = Ok rpg' -> RPG.reachable rpg'.
Proof.
  revert rpg. induction ws as [|w ws IH]; simpl; intros rpg Hr Hb.
  - injection Hb as <-. exact Hr.
  - destruct (Sample.apply rpg w) as [rpg1|] eqn:Hw; [|discriminate].
    apply (IH rpg1); [|exact Hb].
    destruct w; simpl in Hw;
      [eapply RPG.reach_addNode | eapply RPG.reach_addEdge]; eassumption.
Qed.

(** ** Reads and writes on an absent id *)

Lemma getNode_absent (rpg : RepositoryPlanningGraph) (id : string) :
  RPG.hasNode rpg id = false -> RPG.getNode rpg id = None.
Proof. unfold RPG.hasNode, RPG.getNode. intros ->. reflexivity. Qed.

(** C10: on an id that the graph does not hold, every read returns empty
    ([getNode] and [getParent] return undefined, the edge and neighbour
    queries return an empty array), while [updateNode] and [removeNode]
    throw the not-found error; a throw carries no new graph, so the graph
    stays as it was. *)
Theorem absent_id_reads_empty_writes_throw
    (rpg : RepositoryPlanningGraph) (id : string) :
  RPG.hasNode rpg id = false ->
  RPG.getNode rpg id = None
  /\ (forall t, RPG.getOutEdges rpg id t = [])
  /\ (forall t, RPG.getInEdges rpg id t = [])
  /\ RPG.getChildren rpg id = []
  /\ RPG.getParent rpg id = None
  /\ RPG.getDependencies rpg id = []
  /\ RPG.getDependents rpg id = []
  /\ (forall updates,
        RPG.updateNode rpg id updates
        = Throw ("Node with id " ++ quoted id ++ " not found")%string)
  /\ RPG.removeNode rpg id = Throw ("Node with id " ++ quoted id ++ " not found")%string.
Proof.
  intros Habsent.
  assert (Hout : forall t, RPG.getOutEdges rpg id t = []).
  { intros t. unfold RPG.getOutEdges. unfold RPG.hasNode in Habsent.
    rewrite Habsent. reflexivity. }
  assert (Hin : forall t, RPG.getInEdges rpg id t = []).
  { intros t. unfold RPG.getInEdges. unfold RPG.hasNode in Habsent.
    rewrite Habsent. reflexivity. }
  repeat split; auto using getNode_absent.
  - unfold RPG.getChildren. rewrite Hout. reflexivity.
  - unfold RPG.getParent. rewrite Hin. reflexivity.
  - unfold RPG.getDependencies. rewrite Hout. reflexivity.
  - unfold RPG.getDependents. rewrite Hin. reflexivity.
  - intros updates. unfold RPG.updateNode. unfold RPG.hasNode in Habsent.
    rewrite Habsent. reflexivity.
  - unfold RPG.removeNode. unfold RPG.hasNode in Habsent. rewrite Habsent. reflexivity.
Qed.

Lemma absent_id_witness :
  RPG.hasNode Sample.tangled "ghost" = false
  /\ RPG.getNode Sample.tangled "ghost" = None
  /\ RPG.getParent Sample.tangled "ghost" = None
  /\ RPG.removeNode Sample.tangled "ghost"
     = Throw ("Node with id " ++ quoted "ghost" ++ " not found")%string.
Proof.
  assert (H : RPG.hasNode Sample.tangled "ghost" = false) by reflexivity.
  destruct (absent_id_reads_empty_writes_throw Sample.tangled "ghost" H)
    as (H1 & _ & _ & _ & H5 & _ & _ & _ & H9).
  repeat split; assumption.
Defined.

(** ** updateNode *)

Lemma mapGet_merge_same (id : string) (updates : NodeUpdates) (l : list (string * Node)) :
  Js.mapGet id (map (fun kn => if String.eqb id (fst kn)
                               then (fst kn, Graphology.assign (snd kn) updates) else kn) l)
  = option_map (fun n => Graphology.assign n updates) (Js.mapGet id l).
Proof.
  induction l as [|[k n] l IH]; simpl; [reflexivity|].
  destruct (String.eqb id k) eqn:E; simpl; rewrite E; [reflexivity | exact IH].
Qed.

Lemma mapGet_merge_other (id id' : string) (updates : NodeUpdates) (l : list (string * Node)) :
  id' <> id ->
  Js.mapGet id' (map (fun kn => if String.eqb id (fst kn)
                                then (fst kn, Graphology.assign (snd kn) updates) else kn) l)
  = Js.mapGet id' l.
Proof.
  intros Hne. induction l as [|[k n] l IH]; simpl; [reflexivity|].
  destruct (String.eqb id k) eqn:E; simpl.
  - apply String.eqb_eq in E. subst k.
    destruct (String.eqb_spec id' id); [contradiction | exact IH].
  - destruct (String.eqb id' k); [reflexivity | exact IH].
Qed.

Lemma getNode_Some_has (rpg : RepositoryPlanningGraph) (id : string) (n : Node) :
  RPG.getNode rpg id = Some n ->
  Graphology.hasNode (graph rpg) id = true /\ Js.mapGet id (g_nodes (graph rpg)) = Some n.
Proof.
  unfold RPG.getNode. destruct (Graphology.hasNode (graph rpg) id); simpl; [|discriminate].
  auto.
Qed.

Lemma getNode_mapGet (rpg : RepositoryPlanningGraph) (id : string) :
  RPG.getNode rpg id = Js.mapGet id (g_nodes (graph rpg)).
Proof.
  unfold RPG.getNode, Graphology.hasNode, Graphology.getNodeAttributes, Js.mapHas.
  destruct (Js.mapGet id (g_nodes (graph rpg))); reflexivity.
Qed.

Lemma getNode_updateNode_same (rpg : RepositoryPlanningGraph) (id : string) (u : NodeUpdates) :
  RPG.getNode (RPG.withGraph rpg (Graphology.mergeNodeAttributes (graph rpg) id u)) id
  = option_map (fun n => Graphology.assign n u) (RPG.getNode rpg id).
Proof. rewrite !getNode_mapGet. simpl. apply mapGet_merge_same. Qed.

Lemma getNode_updateNode_other (rpg : RepositoryPlanningGraph) (id id' : string)
    (u : NodeUpdates) :
  id' <> id ->
  RPG.getNode (RPG.withGraph rpg (Graphology.mergeNodeAttributes (graph rpg) id u)) id'
  = RPG.getNode rpg id'.
Proof. intros Hne. rewrite !getNode_mapGet. simpl. apply mapGet_merge_other. exact Hne. Qed.

(** C8, as the code has it: [updateNode] on an existing id merges at the
    top level only.  Every field of the node named in the update
    ([feature], [metadata], ...) is replaced as a whole by the given value;
    the fields not named keep their value; no other node and no edge
    changes. *)
Theorem updateNode_replaces_named_fields
    (rpg : RepositoryPlanningGraph) (id : string) (updates : NodeUpdates) (node : Node) :
  RPG.getNode rpg id = Some node ->
  exists rpg',
    RPG.updateNode rpg id updates = Ok rpg'
    /\ RPG.getNode rpg' id = Some (Graphology.assign node updates)
    /\ feature (Graphology.assign node updates)
       = match u_feature updates with Some f => f | None => feature node end
    /\ metadata (Graphology.assign node updates)
       = match u_metadata updates with Some m => m | None => metadata node end
    /\ (forall id', id' <> id -> RPG.getNode rpg' id' = RPG.getNode rpg id')
    /\ g_edges (graph rpg') = g_edges (graph rpg).
Proof.
  intros Hget. destruct (getNode_Some_has _ _ _ Hget) as [Hhas _].
  eexists. split.
  - unfold RPG.updateNode. rewrite Hhas. reflexivity.
  - split; [rewrite getNode_updateNode_same, Hget; reflexivity|].
    split; [reflexivity|]. split; [reflexivity|]. split; [|reflexivity].
    intros id' Hne. apply getNode_updateNode_other. exact Hne.
Qed.

Lemma updateNode_witness :
  exists rpg',
    RPG.updateNode Sample.withLogin "login" Sample.newDescription = Ok rpg'
    /\ option_map feature (RPG.getNode rpg' "login")
       = Some (mkFeature "check password" None None).
Proof.
  destruct (updateNode_replaces_named_fields Sample.withLogin "login"
              Sample.newDescription Sample.login eq_refl)
    as (rpg' & Hup & Hget & _).
  exists rpg'. split; [exact Hup|]. rewrite Hget. reflexivity.
Defined.

(** C8, as stated, fails.  Updating only the description of [login] drops
    its keywords, and updating [metadata] with a new [extra] entry drops the
    entry [owner] and the path: nothing is merged below the top level. *)
Lemma updateNode_not_deep_counterexample :
  (exists rpg' n',
      RPG.updateNode Sample.withLogin "login" Sample.newDescription = Ok rpg'
      /\ RPG.getNode rpg' "login" = Some n'
      /\ keywords (feature Sample.login) = Some ["auth"; "login"]
      /\ keywords (feature n') = None)
  /\ (exists rpg' n' m' e',
      RPG.updateNode Sample.withLogin "login" Sample.newExtra = Ok rpg'
      /\ RPG.getNode rpg' "login" = Some n'
      /\ metadata n' = Some m' /\ extra m' = Some e'
      /\ e' !! "owner" = None /\ path m' = None).
Proof.
  split.
  - do 2 eexists. repeat split; reflexivity.
  - do 4 eexists. repeat split; reflexivity.
Qed.

(** ** Edge identity, duplicates and the shape of the hierarchy *)

Lemma filter_none {A} (p : A -> bool) (l : list A) :
  (forall x, In x l -> p x = false) -> List.filter p l = [].
Proof.
  induction l as [|x l IH]; simpl; intros H; [reflexivity|].
  rewrite (H x (or_introl eq_refl)). apply IH. intros y Hy. apply H. right. exact Hy.
Qed.

Lemma filter_map_comm {A B} (f : A -> B) (p : B -> bool) (l : list A) :
  List.filter p (map f l) = map f (List.filter (fun x => p (f x)) l).
Proof.
  induction l as [|x l IH]; simpl; [reflexivity|].
  destruct (p (f x)); simpl; rewrite IH; reflexivity.
Qed.

Lemma at_most_one_with_key {A} (k : A -> string) (q : A -> bool) (c : string) (l : list A) :
  NoDup (map k l) ->
  (forall x, In x l -> q x = true -> k x = c) ->
  (length (List.filter q l) <= 1)%nat.
Proof.
  induction l as [|x l IH]; simpl; intros Hnd Hk; [lia|].
  apply NoDup_cons in Hnd as [Hx Hnd].
  destruct (q x) eqn:Hq.
  - rewrite filter_none; [simpl; lia|].
    intros y Hy. destruct (q y) eqn:Hqy; [|reflexivity].
    exfalso. apply Hx. apply list_elem_of_In. apply in_map_iff. exists y. split; [|exact Hy].
    rewrite (Hk y (or_intror Hy) Hqy). symmetry. apply Hk; auto.
  - apply IH; [exact Hnd|]. intros y Hy. apply Hk. right. exact Hy.
Qed.

Lemma sameIdentity_refl (e : Edge) : sameIdentity e e = true.
Proof.
  unfold sameIdentity. rewrite !String.eqb_refl. destruct (edge_type e); reflexivity.
Qed.

Lemma stored_identity_has_key (g : Graph) (e : Edge) (ed : EdgeData) :
  consistent g -> In ed (g_edges g) -> sameIdentity e (e_attributes ed) = true ->
  e_key ed = RPG.edgeKey e.
Proof.
  intros [_ _ Hr _] Hin Hsame. rewrite List.Forall_forall in Hr.
  destruct (Hr ed Hin) as (Hk & _ & _). rewrite Hk. symmetry.
  apply sameIdentity_edgeKey. exact Hsame.
Qed.

(** C4, as the code has it.  In every graph built through the public
    operations an edge is identified by its (source, target, type) key
    alone: there is at most one edge per key and both endpoints of every
    edge exist.  [addEdge] accepts any edge whose endpoints exist and whose
    key is free; the ancestors of the source play no part, so the
    Functional edges need not form a forest. *)
Theorem edges_unique_per_key_not_forest (rpg : RepositoryPlanningGraph) :
  RPG.reachable rpg ->
  (forall e, (length (List.filter (sameIdentity e) (RPG.getEdges rpg)) <= 1)%nat)
  /\ (forall e, In e (RPG.getEdges rpg) ->
        RPG.hasNode rpg (source e) = true /\ RPG.hasNode rpg (target e) = true)
  /\ (forall e,
        RPG.hasNode rpg (source e) = true -> RPG.hasNode rpg (target e) = true ->
        Graphology.hasEdge (graph rpg) (RPG.edgeKey e) = false ->
        exists rpg', RPG.addEdge rpg e = Ok rpg'
                     /\ RPG.getEdges rpg' = RPG.getEdges rpg ++ [e]).
Proof.
  intros Hreach. pose proof (reachable_consistent rpg Hreach) as Hc.
  split; [|split].
  - intros e. unfold RPG.getEdges, Graphology.mapEdges.
    rewrite filter_map_comm, length_map.
    apply (at_most_one_with_key e_key _ (RPG.edgeKey e)); [apply Hc|].
    intros ed Hin Hsame. eapply stored_identity_has_key; eassumption.
  - intros e Hin. unfold RPG.getEdges, Graphology.mapEdges in Hin.
    apply in_map_iff in Hin as (ed & <- & Hin).
    destruct Hc as [_ _ Hr Ha]. rewrite List.Forall_forall in Hr, Ha.
    destruct (Hr ed Hin) as (_ & Hs & Ht). destruct (Ha ed Hin) as [H1 H2].
    unfold RPG.hasNode. rewrite <- Hs, <- Ht. auto.
  - intros e Hs Ht Hk. eexists. split; [apply addEdge_accepts; assumption|].
    unfold RPG.getEdges, Graphology.mapEdges. simpl. rewrite map_app. reflexivity.
Qed.

Lemma tangled_reachable : RPG.reachable Sample.tangled.
Proof.
  apply (build_reachable Sample.tangledWrites (RPG.create Sample.cfg)).
  - constructor.
  - reflexivity.
Qed.

Lemma edges_unique_per_key_witness :
  exists rpg', RPG.addEdge Sample.tangled (Sample.child "c" "a") = Ok rpg'
               /\ RPG.getEdges rpg' = RPG.getEdges Sample.tangled ++ [Sample.child "c" "a"].
Proof.
  destruct (edges_unique_per_key_not_forest Sample.tangled tangled_reachable)
    as (_ & _ & Hadd).
  apply Hadd; reflexivity.
Defined.

(** C4, as stated, fails.  The graph [tangled] is built by [addNode] and
    [addEdge] alone; its node [c] has two incoming Functional edges, and
    the edge [b -> a] was accepted although [a] is the parent of [b]. *)
Lemma forest_not_enforced_counterexample :
  Sample.build Sample.tangledWrites (RPG.create Sample.cfg) = Ok Sample.tangled
  /\ map source (RPG.getInEdges Sample.tangled "c" (Some Functional)) = ["a"; "b"]
  /\ map node_id (RPG.getChildren Sample.tangled "a") = ["c"; "b"]
  /\ map node_id (RPG.getChildren Sample.tangled "b") = ["c"; "a"].
Proof. repeat split; reflexivity. Qed.

(** C5, as the code has it.  A write that succeeded is rejected when it is
    repeated: the second [addEdge] throws because the edge key exists, the
    second [addNode] throws because the id exists.  The graph is left as the
    first write made it, with exactly one edge of that (source, target,
    type) and exactly one node of that id. *)
Theorem repeated_write_is_rejected (rpg : RepositoryPlanningGraph) :
  RPG.reachable rpg ->
  (forall e rpg',
      RPG.addEdge rpg e = Ok rpg' ->
      RPG.addEdge rpg' e
      = Throw ("Graph.addEdgeWithKey: the " ++ quoted (RPG.edgeKey e)
               ++ " edge already exists in the graph.")%string
      /\ length (List.filter (sameIdentity e) (RPG.getEdges rpg')) = 1%nat)
  /\ (forall n rpg',
      RPG.addNode rpg n = Ok rpg' ->
      RPG.addNode rpg' n
      = Throw ("Node with id " ++ quoted (node_id n) ++ " already exists")%string
      /\ length (List.filter (String.eqb (node_id n)) (map fst (g_nodes (graph rpg')))) = 1%nat).
Proof.
  intros Hreach. pose proof (reachable_consistent rpg Hreach) as Hc. split.
  - intros e rpg' Hadd. apply addEdge_Ok in Hadd as (Hs & Ht & Hk & ->).
    unfold RPG.hasNode in Hs, Ht. split.
    + unfold RPG.addEdge, Graphology.addEdgeWithKey. simpl.
      unfold Graphology.hasNode in *. simpl. rewrite Hs, Ht. simpl.
      replace (Graphology.hasEdge _ _) with true; [reflexivity|].
      symmetry. apply hasEdge_In. simpl. rewrite map_app. apply in_or_app.
      right. left. reflexivity.
    + unfold RPG.getEdges, Graphology.mapEdges. simpl.
      rewrite map_app, List.filter_app. simpl. rewrite sameIdentity_refl.
      rewrite filter_map_comm, filter_none; [reflexivity|].
      intros ed Hin. destruct (sameIdentity e (e_attributes ed)) eqn:Hsame; [|reflexivity].
      exfalso. pose proof (stored_identity_has_key _ _ _ Hc Hin Hsame) as Hkey.
      assert (Graphology.hasEdge (graph rpg) (RPG.edgeKey e) = true); [|congruence].
      apply hasEdge_In. rewrite <- Hkey. apply in_map. exact Hin.
  - intros n rpg' Hadd. unfold RPG.addNode in Hadd.
    destruct (Graphology.hasNode (graph rpg) (node_id n)) eqn:Hfree; [discriminate|].
    injection Hadd as <-. split.
    + unfold RPG.addNode. simpl. rewrite hasNode_addNode, String.eqb_refl, orb_true_r.
      reflexivity.
    + simpl. rewrite map_app, List.filter_app. simpl. rewrite String.eqb_refl.
      rewrite filter_none; [reflexivity|].
      intros k Hin. destruct (String.eqb_spec (node_id n) k) as [<-|]; [|reflexivity].
      apply hasNode_In in Hin. congruence.
Qed.

Lemma repeated_write_witness :
  exists rpg',
    RPG.addEdge Sample.tangled (Sample.child "c" "a") = Ok rpg'
    /\ RPG.addEdge rpg' (Sample.child "c" "a")
       = Throw ("Graph.addEdgeWithKey: the " ++ quoted "c->a:functional"
                ++ " edge already exists in the graph.")%string.
Proof.
  destruct (repeated_write_is_rejected Sample.tangled tangled_reachable) as [Hedge _].
  eexists. split; [reflexivity|].
  apply (Hedge (Sample.child "c" "a")). reflexivity.
Defined.

(** C5, as stated, fails: the repeated write does not succeed.  Adding the
    edge [a -> c] or the node [a] to [tangled], where they already are,
    throws. *)
Lemma repeated_write_throws_counterexample :
  RPG.addEdge Sample.tangled (Sample.child "a" "c")
  = Throw ("Graph.addEdgeWithKey: the " ++ quoted "a->c:functional"
           ++ " edge already exists in the graph.")%string
  /\ RPG.addNode Sample.tangled (Sample.highLevel "a")
     = Throw ("Node with id " ++ quoted "a" ++ " already exists")%string.
Proof. split; reflexivity. Qed.

(** ** Traversal (ExploreRPG) *)

Lemma forEach_preserves {A} (P : ExploreState -> Prop)
    (body : ExploreState -> A -> option ExploreState) (l : list A) :
  (forall s x s', In x l -> P s -> body s x = Some s' -> P s') ->
  forall st st', P st -> ExploreRPG.forEach body l st = Some st' -> P st'.
Proof.
  induction l as [|x l IH]; simpl; intros Hbody st st' HP Hrun.
  - injection Hrun as <-. exact HP.
  - destruct (body st x) as [s1|] eqn:Hb; [|discriminate].
    apply (IH (fun s y s' Hy => Hbody s y s' (or_intror Hy)) s1 st'); [|exact Hrun].
    eapply Hbody; [left; reflexivity | exact HP | exact Hb].
Qed.


Lemma maxOf_snoc (l : list Z) (d : Z) : maxOf (l ++ [d]) = Z.max (maxOf l) d.
Proof. unfold maxOf. rewrite fold_left_app. reflexivity. Qed.

Section Exploring.

Variable rpg : RepositoryPlanningGraph.
Variable edgeType : ExploreEdgeType.
Variable maxDepth : Z.
Variable direction : Direction.

Let explore := ExploreRPG.explore rpg edgeType maxDepth direction.

Lemma exploring_initial : exploring rpg maxDepth ExploreRPG.initial.
Proof. split; simpl; try constructor. intros id []. Qed.

Lemma exploring_pushEdge (e : Edge) (st : ExploreState) :
  exploring rpg maxDepth st -> exploring rpg maxDepth (ExploreRPG.pushEdge e st).
Proof. intros [H1 H2 H3 H4 H5]. split; assumption. Qed.

Lemma exploring_mark (id : string) (st : ExploreState) :
  exploring rpg maxDepth st -> exploring rpg maxDepth (ExploreRPG.markVisited id st).
Proof.
  intros [H1 H2 H3 H4 H5]. split; simpl; auto.
  intros x Hx. apply elem_of_union_r. apply H2. exact Hx.
Qed.

Lemma exploring_visit (id : string) (node : Node) (depth : Z) (st : ExploreState) :
  exploring rpg maxDepth st -> id ∉ visited st -> (depth <= maxDepth)%Z ->
  RPG.getNode rpg id = Some node ->
  exploring rpg maxDepth (ExploreRPG.pushNode id node depth (ExploreRPG.markVisited id st)).
Proof.
  intros [H1 H2 H3 H4 H5] Hnew Hdepth Hget. split; simpl.
  - rewrite map_app. simpl. apply NoDup_app. split; [exact H1|]. split.
    + intros x Hx Hx'%list_elem_of_In. destruct Hx' as [Hx'|[]]. subst x.
      apply Hnew. apply H2. apply list_elem_of_In. exact Hx.
    + apply NoDup_singleton.
  - intros x. rewrite map_app, in_app_iff. simpl. intros [Hx|[<-|[]]].
    + apply elem_of_union_r. apply H2. exact Hx.
    + apply elem_of_union_l. apply elem_of_singleton. reflexivity.
  - apply Forall2_app; [exact H3|]. constructor; [exact Hget | constructor].
  - apply Forall_app. split; [exact H4|]. constructor; [exact Hdepth | constructor].
  - rewrite map_app. simpl. rewrite maxOf_snoc, H5. reflexivity.
Qed.

(** Every call of [explore] that returns keeps the invariant. *)
Lemma explore_exploring (fuel : nat) :
  forall id depth st st',
    exploring rpg maxDepth st -> explore fuel id depth st = Some st' ->
    exploring rpg maxDepth st'.
Proof using Type.
  subst explore.
  induction fuel as [|fuel IH]; intros id depth st st' HI Hrun; simpl in Hrun.
  - destruct ((maxDepth <? depth)%Z || bool_decide (id ∈ visited st)); [|discriminate].
    injection Hrun as <-. exact HI.
  - destruct (maxDepth <? depth)%Z eqn:Hd; simpl in Hrun;
      [injection Hrun as <-; exact HI|].
    apply Z.ltb_ge in Hd.
    destruct (bool_decide (id ∈ visited st)) eqn:Hv; [injection Hrun as <-; exact HI|].
    apply bool_decide_eq_false in Hv.
    destruct (RPG.getNode rpg id) as [node|] eqn:Hget.
    + revert Hrun. apply forEach_preserves; [|apply exploring_visit; assumption].
      intros s et s' _ Hs Hbody.
      destruct (if ExploreRPG.goesOut direction then _ else _) as [s1|] eqn:Hout;
        [|discriminate].
      assert (exploring rpg maxDepth s1) as Hs1.
      { destruct (ExploreRPG.goesOut direction).
        - revert Hout. apply forEach_preserves; [|exact Hs].
          intros a e b _ Ha Hab. eapply IH; [|exact Hab].
          apply exploring_pushEdge. exact Ha.
        - injection Hout as <-. exact Hs. }
      destruct (ExploreRPG.goesIn direction).
      * revert Hbody. apply forEach_preserves; [|exact Hs1].
        intros a e b _ Ha Hab. eapply IH; [|exact Hab].
        apply exploring_pushEdge. exact Ha.
      * injection Hbody as <-. exact Hs1.
    + injection Hrun as <-. apply exploring_mark. exact HI.
Qed.


End Exploring.



(** ** Search by path and by feature *)

Lemma searchByPath_low_level_only (RegExp : string -> option (string -> bool))
    (rpg : RepositoryPlanningGraph) (pattern : string) (ns : list Node) :
  RPG.searchByPath RegExp rpg pattern = Ok ns ->
  forall n, In n ns -> isLowLevelNode n = true /\ In n (RPG.getNodes rpg).
Proof.
  unfold RPG.searchByPath. destruct (RegExp (Js.replaceStars pattern)); [|discriminate].
  intros [= <-] n Hin. apply filter_In in Hin as [Hin _].
  unfold RPG.getLowLevelNodes in Hin. apply filter_In in Hin as [Hin Hlow]. auto.
Qed.

(** C1 at the scenario of the grounding tests.  After grounding, the
    high-level node over [src/utils] and [tests/utils] carries both paths,
    yet [searchByPath("tests/utils*")] does not return it, whatever the
    regular expression engine answers: the search only looks at low-level
    nodes and only at [metadata.path]. *)
Theorem searchByPath_skips_grounded_high_level :
  exists grounded hl m e,
    ArtifactGrounder.ground Path.dirname 2 Scenario.crossCutting = Done grounded
    /\ RPG.getNode grounded "domain:CrossCutting" = Some hl
    /\ metadata hl = Some m /\ path m = Some "src/utils"
    /\ extra m = Some e /\ e !! "paths" = Some (JStrings ["src/utils"; "tests/utils"])
    /\ forall RegExp,
         match RPG.searchByPath RegExp grounded "tests/utils*" with
         | Ok ns => ~ In hl ns
         | Throw _ => True
         end.
Proof.
  do 4 eexists. split; [vm_compute; reflexivity|].
  split; [vm_compute; reflexivity|].
  split; [reflexivity|]. split; [reflexivity|]. split; [reflexivity|].
  split; [vm_compute; reflexivity|].
  intros RegExp.
  destruct (RPG.searchByPath RegExp _ "tests/utils*") as [ns|] eqn:Hs; [|exact I].
  intros Hin. apply (searchByPath_low_level_only _ _ _ _ Hs) in Hin as [Hlow _].
  discriminate Hlow.
Qed.

(** ** Strings: split, join and prefixes *)

Lemma append_cons (a : ascii) (s t : string) :
  (String a s ++ t)%string = String a (s ++ t)%string.
Proof. reflexivity. Qed.

Lemma append_nil_l (t : string) : ("" ++ t)%string = t.
Proof. reflexivity. Qed.

Ltac unfold_append := rewrite ?append_cons, ?append_nil_l in *.

Lemma append_assoc (a b c : string) : ((a ++ b) ++ c = a ++ (b ++ c))%string.
Proof.
  induction a as [|x a IH]; unfold_append; [reflexivity | rewrite IH; reflexivity].
Qed.

Lemma append_nil_r (a : string) : (a ++ "")%string = a.
Proof.
  induction a as [|x a IH]; unfold_append; [reflexivity | rewrite IH; reflexivity].
Qed.

Lemma split_not_nil (c : ascii) (s : string) : Js.split c s <> [].
Proof.
  induction s as [|a s IH]; simpl; [discriminate|].
  destruct (Ascii.eqb a c); [discriminate|].
  destruct (Js.split c s); discriminate.
Qed.

Lemma split_slashFree (s : string) :
  Forall (fun p => slashFree p = true) (Js.split "/" s).
Proof.
  induction s as [|a s IH]; simpl.
  - repeat constructor.
  - destruct (Ascii.eqb a "/") eqn:E.
    + constructor; [reflexivity | exact IH].
    + destruct (Js.split "/" s) as [|p ps]; [repeat constructor; simpl; rewrite E; reflexivity|].
      inversion IH; subst. constructor; [simpl; rewrite E; simpl; assumption | assumption].
Qed.

Lemma segmentsOf_segments (d : string) :
  Forall (fun s => isSegment s = true) (PathTrie.segmentsOf d).
Proof.
  unfold PathTrie.segmentsOf. apply Forall_forall. intros s Hin%list_elem_of_In.
  apply filter_In in Hin as [Hin Hne]. unfold isSegment. rewrite Hne. simpl.
  pose proof (split_slashFree d) as H. rewrite List.Forall_forall in H. auto.
Qed.

Lemma split_segment_slash (k rest : string) :
  slashFree k = true ->
  Js.split "/" (k ++ String "/" rest) = k :: Js.split "/" rest.
Proof.
  induction k as [|a k IH]; unfold_append; simpl; intros Hk; [reflexivity|].
  apply andb_true_iff in Hk as [Ha Hk]. apply negb_true_iff in Ha. rewrite Ha.
  rewrite (IH Hk). reflexivity.
Qed.

Lemma split_segment (k : string) : slashFree k = true -> Js.split "/" k = [k].
Proof.
  induction k as [|a k IH]; simpl; intros Hk; [reflexivity|].
  apply andb_true_iff in Hk as [Ha Hk]. apply negb_true_iff in Ha. rewrite Ha.
  rewrite (IH Hk). reflexivity.
Qed.

Lemma join_cons_cons (k y : string) (r : list string) :
  Js.join "/" (k :: y :: r) = (k ++ String "/" (Js.join "/" (y :: r)))%string.
Proof. reflexivity. Qed.

Lemma split_join (r : list string) :
  r <> [] -> Forall (fun s => slashFree s = true) r ->
  Js.split "/" (Js.join "/" r) = r.
Proof.
  induction r as [|k r IH]; [congruence|]. intros _ Hr. inversion Hr; subst.
  destruct r as [|y r].
  - simpl. apply split_segment. assumption.
  - rewrite join_cons_cons, split_segment_slash by assumption.
    f_equal. apply IH; [discriminate | assumption].
Qed.

Lemma isSegment_slashFree (s : string) : isSegment s = true -> slashFree s = true.
Proof. unfold isSegment. intros H. apply andb_true_iff in H. tauto. Qed.

Lemma isSegment_nonEmpty (s : string) : isSegment s = true -> Js.nonEmpty s = true.
Proof. unfold isSegment. intros H. apply andb_true_iff in H. tauto. Qed.

Lemma segmentsOf_join (r : list string) :
  Forall (fun s => isSegment s = true) r ->
  PathTrie.segmentsOf (Js.join "/" r) = r.
Proof.
  intros Hr. unfold PathTrie.segmentsOf. destruct r as [|k r]; [reflexivity|].
  rewrite split_join; [|discriminate|].
  - apply forallb_filter_id. apply forallb_forall. intros s Hs.
    rewrite List.Forall_forall in Hr. apply isSegment_nonEmpty. auto.
  - eapply List.Forall_impl; [|exact Hr]. apply isSegment_slashFree.
Qed.

Lemma slashed_cons (x : string) (p : list string) :
  slashed (x :: p) = (x ++ String "/" (slashed p))%string.
Proof. reflexivity. Qed.

Lemma slashed_app (p q : list string) : slashed (p ++ q) = (slashed p ++ slashed q)%string.
Proof.
  induction p as [|x p IH]; [reflexivity|].
  rewrite <- app_comm_cons, !slashed_cons, IH, append_assoc. reflexivity.
Qed.

Lemma join_slash (segs : list string) :
  segs <> [] -> (Js.join "/" segs ++ "/")%string = slashed segs.
Proof.
  induction segs as [|x r IH]; [congruence|]. intros _.
  destruct r as [|y r].
  - reflexivity.
  - rewrite join_cons_cons, slashed_cons, <- IH by discriminate.
    rewrite append_assoc. reflexivity.
Qed.

Lemma join_app (p q : list string) :
  q <> [] -> Js.join "/" (p ++ q) = (slashed p ++ Js.join "/" q)%string.
Proof.
  intros Hq. induction p as [|x p IH]; [reflexivity|].
  rewrite <- app_comm_cons, slashed_cons. destruct (p ++ q) as [|y r] eqn:E.
  - apply app_eq_nil in E as [_ ->]. congruence.
  - rewrite join_cons_cons, IH, append_assoc. reflexivity.
Qed.

Lemma prefix_cons (x y : ascii) (a b : string) :
  String.prefix (String x a) (String y b)
  = if ascii_dec x y then String.prefix a b else false.
Proof. reflexivity. Qed.

Lemma prefix_nil (r : string) : String.prefix "" r = true.
Proof. destruct r; reflexivity. Qed.

Lemma prefix_append (a b c : string) :
  String.prefix (a ++ b) (a ++ c) = String.prefix b c.
Proof.
  induction a as [|x a IH]; unfold_append; [reflexivity|].
  rewrite prefix_cons. destruct (ascii_dec x x); [exact IH | congruence].
Qed.

Lemma prefix_append_l (a b r : string) :
  String.prefix (a ++ b) r = true -> String.prefix a r = true.
Proof.
  revert r. induction a as [|x a IH]; intros r; unfold_append; [intros _; apply prefix_nil|].
  destruct r as [|y r]; [discriminate|]. rewrite !prefix_cons.
  destruct (ascii_dec x y); [apply IH | discriminate].
Qed.

(** A slash-free word followed by a slash is a prefix of another
    slash-free word followed by nothing or by a slash only when the words
    are equal and the slash is there. *)
Lemma prefix_segment (k' k t : string) :
  slashFree k' = true -> slashFree k = true ->
  (t = "" \/ exists u, t = String "/" u) ->
  String.prefix (k' ++ "/") (k ++ t) = true -> k' = k /\ t <> "".
Proof.
  revert k. induction k' as [|a' k' IH]; intros k Hk' Hk Ht; unfold_append.
  - destruct k as [|a k]; unfold_append.
    + destruct Ht as [->|[u ->]]; [discriminate|]. intros _.
      split; [reflexivity | discriminate].
    + simpl in Hk. apply andb_true_iff in Hk as [Ha _]. rewrite prefix_cons.
      destruct (ascii_dec "/" a) as [<-|]; [discriminate Ha | discriminate].
  - simpl in Hk'. apply andb_true_iff in Hk' as [Ha' Hk'].
    destruct k as [|a k]; unfold_append.
    + destruct Ht as [->|[u ->]]; [discriminate|]. rewrite prefix_cons.
      destruct (ascii_dec a' "/") as [->|]; [discriminate Ha' | discriminate].
    + simpl in Hk. apply andb_true_iff in Hk as [_ Hk]. rewrite prefix_cons.
      destruct (ascii_dec a' a) as [->|]; [|discriminate].
      intros H. destruct (IH k Hk' Hk Ht H) as [-> Hne]. auto.
Qed.

Lemma join_head (k : string) (q : list string) :
  exists t, Js.join "/" (k :: q) = (k ++ t)%string
            /\ (t = "" \/ exists u, t = String "/" u) /\ (t <> "" -> q <> []).
Proof.
  destruct q as [|y r].
  - exists "". rewrite append_nil_r. split; [reflexivity|]. split; [auto | congruence].
  - exists (String "/" (Js.join "/" (y :: r))). rewrite join_cons_cons.
    split; [reflexivity|]. split; [right; eexists; reflexivity | discriminate].
Qed.

(** An entry below [p/k] does not start with [p/k'/] when [k'] is another
    segment. *)
Lemma other_branch_kept (p : list string) (k k' : string) (q : list string) :
  isSegment k = true -> isSegment k' = true -> k <> k' ->
  Js.startsWith (Js.join "/" (p ++ k :: q)) (slashed (p ++ [k'])) = false.
Proof.
  intros Hk Hk' Hne. unfold Js.startsWith.
  rewrite join_app by discriminate. rewrite slashed_app, prefix_append.
  change (slashed [k']) with (k' ++ "/")%string.
  destruct (join_head k q) as (t & -> & Ht & _).
  destruct (String.prefix (k' ++ "/") (k ++ t)) eqn:E; [|reflexivity].
  apply prefix_segment in E as [E _]; auto using isSegment_slashFree. congruence.
Qed.

(** An entry strictly below [p] starts with [p/]. *)
Lemma below_pruned (p q : list string) :
  q <> [] -> Js.startsWith (Js.join "/" (p ++ q)) (slashed p) = true.
Proof.
  intros Hq. unfold Js.startsWith. rewrite join_app by assumption.
  rewrite <- (append_nil_r (slashed p)) at 1. rewrite prefix_append. apply prefix_nil.
Qed.

(** ** The trie *)

Lemma TrieNode_induction (P : TrieNode -> Prop) :
  (forall cs t, Forall (fun kc => P (snd kc)) cs -> P (mkTrieNode cs t)) ->
  forall node, P node.
Proof.
  intros Hnode. fix IH 1. intros [cs t]. apply Hnode.
  induction cs as [|[k c] cs IHcs]; constructor; [apply IH | exact IHcs].
Qed.

(** [results] after [postOrder]: the children contribute from left to
    right, then the node prunes and reports itself. *)
Lemma postOrder_results (node : TrieNode) (segs results : list string) :
  snd (PathTrie.postOrder node segs results)
  = let below :=
      fold_left (fun res kc => snd (PathTrie.postOrder (snd kc) (segs ++ [fst kc]) res))
                (children node) results in
    match segs with
    | [] => below
    | _ :: _ =>
        if isBranching node || isTerminal node
        then PathTrie.prune (Js.join "/" segs ++ "/")%string below ++ [Js.join "/" segs]
        else below
    end.
Proof.
  destruct node as [cs t]. cbn [PathTrie.postOrder children].
  match goal with
  | |- context [(fix visit (cs : list (string * TrieNode)) (results : list string) {struct cs} := _) cs results] =>
      set (visit := fix visit (cs : list (string * TrieNode)) (results : list string) {struct cs}
                      : list (string * TrieNode) * list string := _)
  end.
  assert (Hvisit : forall l res,
             snd (visit l res)
             = fold_left (fun res kc => snd (PathTrie.postOrder (snd kc) (segs ++ [fst kc]) res))
                         l res).
  { induction l as [|[k c] l IHl]; intros res; [reflexivity|].
    cbn [visit fold_left fst snd]. fold visit.
    destruct (PathTrie.postOrder c (segs ++ [k]) res) as [c' res1] eqn:Hc.
    specialize (IHl res1). destruct (visit l res1) as [l' res2]. exact IHl. }
  specialize (Hvisit cs results). destruct (visit cs results) as [cs' res1].
  cbn [snd] in Hvisit. subst res1. cbn zeta.
  destruct segs as [|s segs]; [reflexivity|]. cbn [length Nat.eqb].
  destruct (isBranching (mkTrieNode cs t) || isTerminal (mkTrieNode cs t)); reflexivity.
Qed.

Lemma reported_unfold (cs : list (string * TrieNode)) (t : bool) (segs : list string) :
  reported (mkTrieNode cs t) segs
  = let below := flat_map (fun kc => reported (snd kc) (segs ++ [fst kc])) cs in
    match segs with
    | [] => below
    | _ :: _ => if isBranching (mkTrieNode cs t) || isTerminal (mkTrieNode cs t)
                then [segs] else below
    end.
Proof. reflexivity. Qed.

(** Whatever is reported below a node extends the path of the node. *)
Lemma reported_extends (node : TrieNode) :
  forall segs r, In r (reported node segs) -> exists q, r = segs ++ q.
Proof.
  induction node as [cs t IH] using TrieNode_induction. intros segs r.
  rewrite reported_unfold. cbn zeta.
  assert (Hbelow : In r (flat_map (fun kc => reported (snd kc) (segs ++ [fst kc])) cs) ->
                   exists q, r = segs ++ q).
  { intros Hin. apply in_flat_map in Hin as (kc & Hkc & Hin).
    rewrite List.Forall_forall in IH. destruct (IH kc Hkc _ _ Hin) as [q ->].
    exists (fst kc :: q). rewrite <- app_assoc. reflexivity. }
  destruct segs as [|s segs]; [exact Hbelow|].
  destruct (isBranching _ || isTerminal _); [|exact Hbelow].
  intros [<-|[]]. exists []. rewrite app_nil_r. reflexivity.
Qed.

Lemma reported_below_child (cs : list (string * TrieNode)) (segs r : list string) :
  In r (flat_map (fun kc => reported (snd kc) (segs ++ [fst kc])) cs) ->
  exists kc q, In kc cs /\ In r (reported (snd kc) (segs ++ [fst kc]))
               /\ r = segs ++ fst kc :: q.
Proof.
  intros Hin. apply in_flat_map in Hin as (kc & Hkc & Hin).
  destruct (reported_extends _ _ _ Hin) as [q ->].
  exists kc, q. rewrite <- app_assoc in *. auto.
Qed.

Lemma prune_keeps (prefix : string) (results : list string) :
  Forall (fun r => Js.startsWith r prefix = false) results ->
  PathTrie.prune prefix results = results.
Proof.
  intros H. unfold PathTrie.prune. apply forallb_filter_id. apply forallb_forall.
  intros r Hr. rewrite List.Forall_forall in H. rewrite (H r Hr). reflexivity.
Qed.

Lemma prune_drops (prefix : string) (results : list string) :
  Forall (fun r => Js.startsWith r prefix = true) results ->
  PathTrie.prune prefix results = [].
Proof.
  intros H. unfold PathTrie.prune. apply filter_none.
  intros r Hr. rewrite List.Forall_forall in H. rewrite (H r Hr). reflexivity.
Qed.

Lemma wellFormed_inv (cs : list (string * TrieNode)) (t : bool) :
  wellFormed (mkTrieNode cs t) ->
  NoDup (map fst cs)
  /\ Forall (fun kc => isSegment (fst kc) = true /\ terminals (snd kc) <> []
                       /\ wellFormed (snd kc)) cs.
Proof. inversion 1; subst. auto. Qed.

(** On a well-formed trie [postOrder] appends what [reported] lists, joined
    with slashes, provided that no earlier result lies below the node. *)
Lemma postOrder_reported (node : TrieNode) :
  forall segs results,
    wellFormed node ->
    Forall (fun r => Js.startsWith r (slashed segs) = false) results ->
    snd (PathTrie.postOrder node segs results)
    = results ++ map (Js.join "/") (reported node segs).
Proof.
  induction node as [cs t IH] using TrieNode_induction.
  intros segs results Hwf Hres. apply wellFormed_inv in Hwf as [Hkeys Hcs].
  rewrite postOrder_results, reported_unfold. cbn [children]. cbn zeta.
  assert (Hbelow :
    forall l res,
      NoDup (map fst l) ->
      Forall (fun kc => isSegment (fst kc) = true /\ terminals (snd kc) <> []
                        /\ wellFormed (snd kc)) l ->
      Forall (fun kc => forall segs results,
                  wellFormed (snd kc) ->
                  Forall (fun r => Js.startsWith r (slashed segs) = false) results ->
                  snd (PathTrie.postOrder (snd kc) segs results)
                  = results ++ map (Js.join "/") (reported (snd kc) segs)) l ->
      Forall (fun r => forall kc, In kc l ->
                  Js.startsWith r (slashed (segs ++ [fst kc])) = false) res ->
      fold_left (fun res kc => snd (PathTrie.postOrder (snd kc) (segs ++ [fst kc]) res)) l res
      = res ++ map (Js.join "/")
                   (flat_map (fun kc => reported (snd kc) (segs ++ [fst kc])) l)).
  { induction l as [|[k c] l IHl]; intros res Hnd Hl HIH Hforeign.
    - simpl. rewrite app_nil_r. reflexivity.
    - cbn [fold_left flat_map fst snd].
      apply NoDup_cons in Hnd as [Hk Hnd].
      inversion Hl as [|? ? (Hseg & _ & Hwfc) Hl']; subst.
      inversion HIH as [|? ? Hc HIH']; subst. cbn [fst snd] in *.
      rewrite Hc; [|exact Hwfc|].
      + rewrite IHl; [|assumption..|].
        * rewrite map_app, app_assoc. reflexivity.
        * apply Forall_app. split.
          -- eapply List.Forall_impl; [|exact Hforeign].
             intros r Hr kc Hkc. apply Hr. right. exact Hkc.
          -- apply Forall_forall. intros r Hr%list_elem_of_In kc Hkc.
             apply in_map_iff in Hr as (r' & <- & Hr').
             destruct (reported_extends _ _ _ Hr') as [q ->].
             rewrite <- app_assoc. cbn [app].
             rewrite List.Forall_forall in Hl'. destruct (Hl' kc Hkc) as (Hseg' & _ & _).
             apply other_branch_kept; [assumption..|].
             intros ->. apply Hk. apply list_elem_of_In. apply in_map. exact Hkc.
      + eapply List.Forall_impl; [|exact Hforeign].
        intros r Hr. apply (Hr (k, c)). left. reflexivity. }
  rewrite Hbelow; [|assumption..|].
  - destruct segs as [|s segs]; [reflexivity|].
    destruct (isBranching _ || isTerminal _); [|reflexivity].
    unfold PathTrie.prune. rewrite List.filter_app. fold (PathTrie.prune (Js.join "/" (s :: segs) ++ "/")%string results).
    rewrite join_slash by discriminate.
    rewrite (prune_keeps _ results Hres).
    match goal with |- (_ ++ ?X) ++ _ = _ => replace X with (@nil string) end;
      [rewrite app_nil_r; reflexivity|].
    symmetry. apply prune_drops. apply Forall_forall. intros r Hr%list_elem_of_In.
    apply in_map_iff in Hr as (r' & <- & Hr').
    apply reported_below_child in Hr' as (kc & q & _ & _ & ->).
    apply below_pruned. discriminate.
  - eapply List.Forall_impl; [|exact Hres]. intros r Hr kc _.
    rewrite slashed_app. unfold Js.startsWith in *.
    destruct (String.prefix (slashed segs ++ slashed [fst kc]) r) eqn:E; [|reflexivity].
    apply prefix_append_l in E. congruence.
Qed.

(** *** Insertion *)

Lemma terminals_unfold (cs : list (string * TrieNode)) (t : bool) :
  terminals (mkTrieNode cs t) = (if t then [[]] else []) ++ below cs.
Proof. reflexivity. Qed.

Lemma below_cons (k : string) (c : TrieNode) (cs : list (string * TrieNode)) :
  below ((k, c) :: cs) = map (cons k) (terminals c) ++ below cs.
Proof. reflexivity. Qed.

Lemma in_below (cs : list (string * TrieNode)) (q : list string) :
  In q (below cs) <-> exists k c q', In (k, c) cs /\ q = k :: q' /\ In q' (terminals c).
Proof.
  unfold below. rewrite in_flat_map. split.
  - intros ([k c] & Hkc & Hin). apply in_map_iff in Hin as (q' & <- & Hq').
    exists k, c, q'. auto.
  - intros (k & c & q' & Hkc & -> & Hq'). exists (k, c). split; [exact Hkc|].
    apply in_map. exact Hq'.
Qed.

Lemma in_cons_map (k : string) (l : list (list string)) (q : list string) :
  In q (map (cons k) l) <-> exists q', q = k :: q' /\ In q' l.
Proof.
  rewrite in_map_iff. split; intros (q' & H1 & H2); exists q'; auto.
Qed.

Lemma step_keys (s : string) (walk : TrieNode -> TrieNode) (cs : list (string * TrieNode)) :
  map fst (PathTrie.step s walk cs)
  = if Js.mapHas s cs then map fst cs else map fst cs ++ [s].
Proof.
  unfold Js.mapHas. induction cs as [|[k c] cs IH]; [reflexivity|].
  cbn [PathTrie.step Js.mapGet]. destruct (String.eqb s k); [reflexivity|].
  cbn [map fst]. rewrite IH. destruct (Js.mapGet s cs); reflexivity.
Qed.

Lemma step_Forall (Q : string * TrieNode -> Prop) (s : string)
    (walk : TrieNode -> TrieNode) (cs : list (string * TrieNode)) :
  Forall Q cs -> (forall c, Q (s, c) -> Q (s, walk c)) -> Q (s, walk newTrieNode) ->
  Forall Q (PathTrie.step s walk cs).
Proof.
  intros Hcs Hwalk Hnew. induction Hcs as [|[k c] cs Hkc Hcs IH]; cbn [PathTrie.step].
  - constructor; [exact Hnew | constructor].
  - destruct (String.eqb_spec s k) as [<-|Hne]; constructor; auto.
Qed.

Lemma below_step (s : string) (rest : list string) (walk : TrieNode -> TrieNode)
    (cs : list (string * TrieNode)) (q : list string) :
  (forall c q', In q' (terminals (walk c)) <-> q' = rest \/ In q' (terminals c)) ->
  In q (below (PathTrie.step s walk cs)) <-> q = s :: rest \/ In q (below cs).
Proof.
  intros Hwalk. induction cs as [|[k c] cs IH]; cbn [PathTrie.step].
  - rewrite below_cons, in_app_iff, in_cons_map. cbn [below flat_map In].
    split.
    + intros [(q' & -> & Hq')|[]]. apply Hwalk in Hq' as [->|[]]. left. reflexivity.
    + intros [->|[]]. left. exists rest. split; [reflexivity|]. apply Hwalk. left. reflexivity.
  - destruct (String.eqb_spec s k) as [<-|Hne].
    + rewrite !below_cons, !in_app_iff, !in_cons_map. split.
      * intros [(q' & -> & Hq')|Hin]; [|auto].
        apply Hwalk in Hq' as [->|Hq']; [left; reflexivity|]. right. left. eauto.
      * intros [->|[(q' & -> & Hq')|Hin]]; [| |auto].
        -- left. exists rest. split; [reflexivity|]. apply Hwalk. auto.
        -- left. exists q'. split; [reflexivity|]. apply Hwalk. auto.
    + rewrite !below_cons, !in_app_iff, IH. tauto.
Qed.

Lemma terminals_insertSegments (p : list string) :
  forall node q,
    In q (terminals (PathTrie.insertSegments p node)) <-> q = p \/ In q (terminals node).
Proof.
  induction p as [|s rest IH]; intros [cs t] q; cbn [PathTrie.insertSegments children isTerminal].
  - rewrite !terminals_unfold, !in_app_iff. destruct t; simpl; split; intuition auto.
  - rewrite !terminals_unfold, !in_app_iff, (below_step s rest) by (intros; apply IH).
    tauto.
Qed.

Lemma wellFormed_new : wellFormed newTrieNode.
Proof. constructor; constructor. Qed.

Lemma wellFormed_insertSegments (p : list string) :
  Forall (fun s => isSegment s = true) p ->
  forall node, wellFormed node -> wellFormed (PathTrie.insertSegments p node).
Proof.
  induction 1 as [|s rest Hs Hrest IH]; intros [cs t] Hwf;
    cbn [PathTrie.insertSegments children isTerminal];
    apply wellFormed_inv in Hwf as [Hkeys Hcs].
  - constructor; assumption.
  - constructor.
    + rewrite step_keys. destruct (Js.mapHas s cs) eqn:Hhas; [exact Hkeys|].
      apply NoDup_app. split; [exact Hkeys|]. split; [|apply NoDup_singleton].
      intros x Hx Hx'%list_elem_of_In. destruct Hx' as [<-|[]].
      apply list_elem_of_In in Hx. apply mapHas_false_In in Hhas. contradiction.
    + assert (Hne : forall c, terminals (PathTrie.insertSegments rest c) <> []).
      { intros c Hnil.
        assert (In rest (terminals (PathTrie.insertSegments rest c))) as Hin
            by (apply terminals_insertSegments; auto).
        rewrite Hnil in Hin. destruct Hin. }
      apply step_Forall; [exact Hcs | |]; cbn [fst snd].
      * intros c (H1 & _ & H3). auto.
      * split; [exact Hs|]. split; [apply Hne|]. apply IH. apply wellFormed_new.
Qed.

Lemma trieOf_spec (dirPaths : list string) :
  forall start,
    wellFormed start ->
    wellFormed (trieOf dirPaths start)
    /\ forall q, In q (terminals (trieOf dirPaths start))
                 <-> In q (map PathTrie.segmentsOf dirPaths) \/ In q (terminals start).
Proof.
  induction dirPaths as [|d ds IH]; intros start Hwf; cbn [trieOf fold_left map In].
  - split; [exact Hwf|]. tauto.
  - destruct (IH (PathTrie.insert d start)) as [Hwf' Hin].
    { apply wellFormed_insertSegments; [apply segmentsOf_segments | exact Hwf]. }
    split; [exact Hwf'|]. intros q. fold (trieOf ds (PathTrie.insert d start)).
    rewrite Hin. unfold PathTrie.insert. rewrite terminals_insertSegments.
    intuition auto.
Qed.

(** *** What is reported, in terms of the inserted paths *)

Lemma keys_unique (cs : list (string * TrieNode)) (k : string) (c c' : TrieNode) :
  NoDup (map fst cs) -> In (k, c) cs -> In (k, c') cs -> c = c'.
Proof.
  induction cs as [|[k0 c0] cs IH]; cbn [map fst]; intros Hnd; [intros []|].
  apply NoDup_cons in Hnd as [Hk Hnd].
  assert (Hfresh : forall x, In (k0, x) cs -> False).
  { intros x Hx. apply Hk. apply list_elem_of_In.
    change k0 with (fst (k0, x)). apply in_map. exact Hx. }
  intros [[= -> ->]|H1] [[= ->]|H2]; try reflexivity.
  - exfalso. eauto.
  - subst. exfalso. eauto.
  - auto.
Qed.

Lemma terminal_iff (cs : list (string * TrieNode)) (t : bool) :
  In [] (terminals (mkTrieNode cs t)) <-> t = true.
Proof.
  rewrite terminals_unfold, in_app_iff, in_below. split.
  - intros [H|(k & c & q' & _ & H & _)]; [|discriminate].
    destruct t; [reflexivity | destruct H].
  - intros ->. left. left. reflexivity.
Qed.

Lemma path_iff (cs : list (string * TrieNode)) (t : bool) (k : string) (q : list string) :
  In (k :: q) (terminals (mkTrieNode cs t))
  <-> exists c, In (k, c) cs /\ In q (terminals c).
Proof.
  rewrite terminals_unfold, in_app_iff, in_below. split.
  - intros [H|(k' & c & q' & Hkc & [= -> ->] & Hq')]; [|eauto].
    destruct t; [destruct H as [H|[]]; discriminate | destruct H].
  - intros (c & Hkc & Hq). right. exists k, c, q. auto.
Qed.

Lemma child_path_iff (cs : list (string * TrieNode)) (t : bool)
    (k : string) (c : TrieNode) (q : list string) :
  NoDup (map fst cs) -> In (k, c) cs ->
  (In q (terminals c) <-> In (k :: q) (terminals (mkTrieNode cs t))).
Proof.
  intros Hkeys Hkc. rewrite path_iff. split; [eauto|].
  intros (c' & Hkc' & Hq). rewrite (keys_unique cs k c c' Hkeys Hkc Hkc'). exact Hq.
Qed.

Lemma child_marked_iff (cs : list (string * TrieNode)) (t : bool)
    (k : string) (c : TrieNode) (q : list string) :
  NoDup (map fst cs) -> In (k, c) cs ->
  (marked (terminals c) q <-> marked (terminals (mkTrieNode cs t)) (k :: q)).
Proof.
  intros Hkeys Hkc. unfold marked. rewrite (child_path_iff cs t k c q Hkeys Hkc).
  split; (intros [H|(k1 & k2 & q1 & q2 & Hne & H1 & H2)]; [left; exact H|]);
    right; exists k1, k2, q1, q2; (split; [exact Hne|]).
  - rewrite <- !app_comm_cons, <- !(child_path_iff cs t k c) by assumption. auto.
  - rewrite <- !app_comm_cons, <- !(child_path_iff cs t k c) in * by assumption. auto.
Qed.

Lemma marked_has_child (cs : list (string * TrieNode)) (t : bool)
    (k : string) (q : list string) :
  marked (terminals (mkTrieNode cs t)) (k :: q) -> exists c, In (k, c) cs.
Proof.
  intros [H|(k1 & k2 & q1 & q2 & _ & H & _)];
    [|rewrite <- app_comm_cons in H]; apply path_iff in H as (c & Hc & _); eauto.
Qed.

Lemma marked_here_iff (cs : list (string * TrieNode)) (t : bool) :
  NoDup (map fst cs) ->
  Forall (fun kc => isSegment (fst kc) = true /\ terminals (snd kc) <> []
                    /\ wellFormed (snd kc)) cs ->
  (marked (terminals (mkTrieNode cs t)) []
   <-> isBranching (mkTrieNode cs t) || isTerminal (mkTrieNode cs t) = true).
Proof.
  intros Hkeys Hcs.
  rewrite orb_true_iff. unfold isBranching. cbn [children isTerminal].
  rewrite Nat.ltb_lt. unfold marked. rewrite terminal_iff. cbn [app]. split.
  - intros [->|(k1 & k2 & q1 & q2 & Hne & H1 & H2)]; [right; reflexivity|]. left.
    apply path_iff in H1 as (c1 & H1 & _). apply path_iff in H2 as (c2 & H2 & _).
    destruct cs as [|kc1 [|kc2 l]]; [destruct H1 | | simpl; lia].
    destruct H1 as [->|[]]. destruct H2 as [[= ->]|[]]. congruence.
  - intros [Hlen| ->]; [|left; reflexivity]. right.
    destruct cs as [|[k1 c1] [|[k2 c2] l]]; [simpl in Hlen; lia..|].
    inversion Hcs as [|? ? (_ & Hc1 & _) Hcs']; subst.
    inversion Hcs' as [|? ? (_ & Hc2 & _) _]; subst. cbn [fst snd] in *.
    destruct (terminals c1) as [|q1 ?] eqn:E1; [congruence|].
    destruct (terminals c2) as [|q2 ?] eqn:E2; [congruence|].
    exists k1, k2, q1, q2. split.
    + intros ->. cbn [map fst] in Hkeys. apply NoDup_cons in Hkeys as [Hk _].
      apply Hk. left.
    + split; apply path_iff.
      * exists c1. split; [left; reflexivity|]. rewrite E1. left. reflexivity.
      * exists c2. split; [right; left; reflexivity|]. rewrite E2. left. reflexivity.
Qed.

Lemma reported_spec (node : TrieNode) :
  wellFormed node ->
  forall segs r,
    In r (reported node segs)
    <-> exists q, r = segs ++ q /\ topmost (terminals node) (atRoot segs) q.
Proof.
  induction node as [cs t IH] using TrieNode_induction.
  intros Hwf segs r. apply wellFormed_inv in Hwf as [Hkeys Hcs].
  pose proof (marked_here_iff cs t Hkeys Hcs) as Hhere.
  rewrite reported_unfold. cbn zeta.
  set (P := terminals (mkTrieNode cs t)) in *.
  assert (Hbelow :
    (atRoot segs = false -> ~ marked P []) ->
    (In r (flat_map (fun kc => reported (snd kc) (segs ++ [fst kc])) cs)
     <-> exists q, r = segs ++ q /\ topmost P (atRoot segs) q)).
  { intros Hnot. rewrite in_flat_map. split.
    - intros ([k c] & Hkc & Hin). cbn [fst snd] in Hin.
      rewrite List.Forall_forall in IH, Hcs.
      destruct (Hcs _ Hkc) as (_ & _ & Hwfc).
      apply (IH _ Hkc Hwfc) in Hin as (q & -> & Hq).
      replace (atRoot (segs ++ [k])) with false in Hq by (destruct segs; reflexivity).
      destruct Hq as (_ & Hm & Hmin).
      exists (k :: q). rewrite <- app_assoc. split; [reflexivity|].
      split; [discriminate|]. split; [apply (child_marked_iff cs t k c q Hkeys Hkc); exact Hm|].
      intros q1 q2 Heq Hq2 Hroot Hm1. destruct q1 as [|k1 q1].
      + destruct (atRoot segs) eqn:Hr; [apply Hroot; reflexivity | apply Hnot; auto].
      + injection Heq as <- ->.
        apply (Hmin q1 q2 eq_refl Hq2); [discriminate|].
        apply (child_marked_iff cs t k c q1 Hkeys Hkc). exact Hm1.
    - intros (q & -> & Hroot & Hm & Hmin).
      destruct q as [|k q].
      { exfalso. destruct (atRoot segs) eqn:Hr; [apply Hroot; reflexivity | apply Hnot; auto]. }
      destruct (marked_has_child cs t k q Hm) as [c Hkc].
      exists (k, c). split; [exact Hkc|]. cbn [fst snd].
      rewrite List.Forall_forall in IH, Hcs.
      destruct (Hcs _ Hkc) as (_ & _ & Hwfc).
      apply (IH _ Hkc Hwfc). exists q. rewrite <- app_assoc. split; [reflexivity|].
      replace (atRoot (segs ++ [k])) with false by (destruct segs; reflexivity).
      split; [discriminate|].
      split; [apply (child_marked_iff cs t k c q Hkeys Hkc); exact Hm|].
      intros q1 q2 -> Hq2 _ Hm1.
      apply (Hmin (k :: q1) q2 eq_refl Hq2); [discriminate|].
      apply (child_marked_iff cs t k c q1 Hkeys Hkc). exact Hm1. }
  destruct segs as [|s segs]; [apply Hbelow; discriminate|].
  destruct (isBranching _ || isTerminal _) eqn:Hbt.
  - split.
    + intros [<-|[]]. exists []. rewrite app_nil_r. split; [reflexivity|].
      split; [discriminate|]. split; [apply Hhere; reflexivity|].
      intros q1 q2 Heq Hq2. symmetry in Heq. apply app_eq_nil in Heq as [_ ->]. congruence.
    + intros (q & -> & _ & _ & Hmin). destruct q as [|k q].
      * rewrite app_nil_r. left. reflexivity.
      * exfalso. apply (Hmin [] (k :: q) eq_refl); [discriminate..|].
        apply Hhere. reflexivity.
  - apply Hbelow. intros _ Hm. apply Hhere in Hm. congruence.
Qed.

Lemma reported_NoDup (node : TrieNode) :
  wellFormed node -> forall segs, NoDup (reported node segs).
Proof.
  induction node as [cs t IH] using TrieNode_induction.
  intros Hwf segs. apply wellFormed_inv in Hwf as [Hkeys Hcs].
  rewrite reported_unfold. cbn zeta.
  assert (Hbelow : NoDup (flat_map (fun kc => reported (snd kc) (segs ++ [fst kc])) cs)).
  { clear t. induction cs as [|[k c] cs IHcs]; [constructor|].
    cbn [flat_map fst snd]. cbn [map fst] in Hkeys.
    apply NoDup_cons in Hkeys as [Hk Hkeys].
    inversion Hcs as [|? ? (_ & _ & Hwfc) Hcs']; subst.
    inversion IH as [|? ? Hc IH']; subst. cbn [fst snd] in *.
    apply NoDup_app. split; [apply Hc; exact Hwfc|]. split; [|apply IHcs; assumption].
    intros r Hr%list_elem_of_In Hr'%list_elem_of_In.
    destruct (reported_extends _ _ _ Hr) as [q Hq].
    apply reported_below_child in Hr' as ([k' c'] & q' & Hkc' & _ & ->).
    rewrite <- app_assoc in Hq. apply app_inv_head in Hq. injection Hq as -> _.
    apply Hk. apply list_elem_of_In. change k with (fst (k, c')). apply in_map. exact Hkc'. }
  destruct segs as [|s segs]; [exact Hbelow|].
  destruct (isBranching _ || isTerminal _); [apply NoDup_singleton | exact Hbelow].
Qed.

Lemma marked_ext (P P' : list (list string)) (q : list string) :
  (forall x, In x P <-> In x P') -> (marked P q <-> marked P' q).
Proof.
  intros H. unfold marked. rewrite (H q). split;
    (intros [Hq|(k1 & k2 & q1 & q2 & Hne & H1 & H2)]; [left; exact Hq|]);
    right; exists k1, k2, q1, q2; (split; [exact Hne|]); split; apply H; assumption.
Qed.

Lemma isLCA_topmost (P : list (list string)) (q : list string) :
  isLCA P q <-> topmost P true q.
Proof.
  unfold isLCA, topmost, strictPrefix. split.
  - intros (Hq & Hm & Hmin). split; [auto|]. split; [exact Hm|].
    intros q1 q2 -> Hq2 Hq1. apply Hmin; [auto|]. exists q2. auto.
  - intros (Hq & Hm & Hmin). split; [auto|]. split; [exact Hm|].
    intros q' Hq' (q2 & Hq2 & ->). apply (Hmin q' q2); auto.
Qed.

Lemma isLCA_ext (P P' : list (list string)) (q : list string) :
  (forall x, In x P <-> In x P') -> (isLCA P q <-> isLCA P' q).
Proof.
  intros H. unfold isLCA. rewrite (marked_ext P P' q H). split;
    intros (Hq & Hm & Hmin); (split; [exact Hq|]); (split; [exact Hm|]);
    intros q' Hq' Hpre Hm'; apply (Hmin q' Hq' Hpre); apply (marked_ext P P' q' H); exact Hm'.
Qed.

(** With two or more directories [computeLCA] goes through the trie. *)
Lemma computeLCA_trie (dirPaths : list string) :
  (2 <= length dirPaths)%nat ->
  computeLCA dirPaths
  = map (Js.join "/") (reported (trieOf dirPaths newTrieNode) []).
Proof.
  intros Hlen. unfold computeLCA, PathTrie.computeLCA.
  destruct dirPaths as [|d1 [|d2 ds]]; [simpl in Hlen; lia..|].
  cbn [length Nat.eqb]. fold (trieOf (d1 :: d2 :: ds) newTrieNode).
  rewrite postOrder_reported; [reflexivity | | constructor].
  apply trieOf_spec. apply wellFormed_new.
Qed.

Lemma terminals_trieOf (dirPaths : list string) (q : list string) :
  In q (terminals (trieOf dirPaths newTrieNode)) <-> In q (map PathTrie.segmentsOf dirPaths).
Proof.
  destruct (trieOf_spec dirPaths newTrieNode wellFormed_new) as [_ H].
  rewrite H. cbn. tauto.
Qed.

Lemma reported_trieOf (dirPaths : list string) (q : list string) :
  In q (reported (trieOf dirPaths newTrieNode) [])
  <-> isLCA (map PathTrie.segmentsOf dirPaths) q.
Proof.
  destruct (trieOf_spec dirPaths newTrieNode wellFormed_new) as [Hwf _].
  rewrite (reported_spec _ Hwf [] q). cbn [app atRoot].
  rewrite (isLCA_ext _ (terminals (trieOf dirPaths newTrieNode)) q)
    by (intros x; symmetry; apply terminals_trieOf).
  rewrite isLCA_topmost. split; [intros (q' & <- & H); exact H | eauto].
Qed.

(** Every marked path is made of segments. *)
Lemma marked_segments (dirPaths : list string) (q : list string) :
  marked (map PathTrie.segmentsOf dirPaths) q -> Forall (fun s => isSegment s = true) q.
Proof.
  assert (H : forall x, In x (map PathTrie.segmentsOf dirPaths) ->
                        Forall (fun s => isSegment s = true) x).
  { intros x Hx. apply in_map_iff in Hx as (d & <- & _). apply segmentsOf_segments. }
  intros [Hq|(k1 & _ & q1 & _ & _ & Hq & _)]; [auto|].
  apply H in Hq. apply Forall_app in Hq as [Hq _]. exact Hq.
Qed.

(** The result of [computeLCA] on two or more directories: the lowest
    common ancestors of the inserted paths, each joined with slashes. *)
Lemma computeLCA_spec (dirPaths : list string) (r : string) :
  (2 <= length dirPaths)%nat ->
  (In r (computeLCA dirPaths)
   <-> exists q, r = Js.join "/" q /\ isLCA (map PathTrie.segmentsOf dirPaths) q).
Proof.
  intros Hlen. rewrite computeLCA_trie by exact Hlen. rewrite in_map_iff. split.
  - intros (q & <- & Hq). exists q. split; [reflexivity|]. apply reported_trieOf. exact Hq.
  - intros (q & -> & Hq). exists q. split; [reflexivity|]. apply reported_trieOf. exact Hq.
Qed.

Lemma computeLCA_permutation (S S' : list string) :
  Permutation S S' -> Permutation (computeLCA S) (computeLCA S').
Proof.
  intros Hperm. pose proof (Permutation_length Hperm) as Hlen.
  destruct S as [|d1 [|d2 ds]].
  - apply Permutation_nil in Hperm. subst. constructor.
  - apply Permutation_length_1_inv in Hperm. subst. apply Permutation_refl.
  - rewrite !computeLCA_trie by (rewrite <- ?Hlen; simpl; lia).
    apply Permutation_map. apply NoDup_Permutation.
    + apply reported_NoDup. apply trieOf_spec. apply wellFormed_new.
    + apply reported_NoDup. apply trieOf_spec. apply wellFormed_new.
    + intros q. rewrite !list_elem_of_In, !reported_trieOf. apply isLCA_ext. intros x.
      split; apply Permutation_in; [|symmetry]; apply Permutation_map; exact Hperm.
Qed.

Lemma computeLCA_prefix_free (S : list string) (p q : string) :
  In p (computeLCA S) -> In q (computeLCA S) ->
  ~ strictPrefix (PathTrie.segmentsOf p) (PathTrie.segmentsOf q).
Proof.
  intros Hp Hq Hpre. destruct S as [|d1 [|d2 ds]].
  - destruct Hp.
  - cbn in Hp, Hq. destruct Hp as [<-|[]]. destruct Hq as [<-|[]].
    destruct Hpre as (x & Hx & Heq).
    apply (f_equal (@length string)) in Heq. rewrite length_app in Heq.
    destruct x; [congruence | simpl in Heq; lia].
  - apply computeLCA_spec in Hp as (p' & -> & Hp); [|simpl; lia].
    apply computeLCA_spec in Hq as (q' & -> & Hq); [|simpl; lia].
    destruct Hp as (Hp0 & Hpm & _). destruct Hq as (_ & Hqm & Hqmin).
    rewrite !segmentsOf_join in Hpre by (eapply marked_segments; eassumption).
    apply (Hqmin p' Hp0 Hpre Hpm).
Qed.

(** Below the root every well-formed subtree that holds a terminal path
    reports something. *)
Lemma reported_nonempty (node : TrieNode) :
  wellFormed node -> terminals node <> [] ->
  forall segs, segs <> [] -> reported node segs <> [].
Proof.
  induction node as [cs t IH] using TrieNode_induction.
  intros Hwf Hterm segs Hsegs. apply wellFormed_inv in Hwf as [_ Hcs].
  rewrite reported_unfold. cbn zeta. destruct segs as [|s segs]; [congruence|].
  destruct (isBranching _ || isTerminal _) eqn:Hbt; [discriminate|].
  apply orb_false_iff in Hbt as [_ Ht]. cbn [isTerminal] in Ht. subst t.
  rewrite terminals_unfold in Hterm. cbn [app] in Hterm.
  destruct cs as [|[k c] cs]; [contradiction|].
  inversion Hcs as [|? ? (_ & Hc & Hwfc) _]; subst.
  inversion IH as [|? ? IHc _]; subst. cbn [fst snd flat_map] in *.
  intros Hnil. apply app_eq_nil in Hnil as [Hnil _].
  revert Hnil. apply IHc; [assumption..|]. destruct segs; discriminate.
Qed.

(** [computeLCA] yields a path as soon as one of the directories has a
    segment (for a single directory, always). *)
Lemma computeLCA_nonempty (dirPaths : list string) :
  (exists d, In d dirPaths /\ PathTrie.segmentsOf d <> []) -> computeLCA dirPaths <> [].
Proof.
  intros (d & Hd & Hsegs). destruct dirPaths as [|d1 [|d2 ds]]; [destruct Hd | discriminate|].
  rewrite computeLCA_trie by (simpl; lia).
  destruct (trieOf_spec (d1 :: d2 :: ds) newTrieNode wellFormed_new) as [Hwf Hin].
  assert (Hpath : In (PathTrie.segmentsOf d) (terminals (trieOf (d1 :: d2 :: ds) newTrieNode))).
  { apply Hin. left. apply in_map. exact Hd. }
  destruct (trieOf (d1 :: d2 :: ds) newTrieNode) as [cs t].
  destruct (PathTrie.segmentsOf d) as [|k q]; [congruence|].
  apply path_iff in Hpath as (c & Hkc & Hq).
  apply wellFormed_inv in Hwf as [_ Hcs]. rewrite List.Forall_forall in Hcs.
  destruct (Hcs _ Hkc) as (_ & Hterm & Hwfc). cbn [fst snd] in *.
  rewrite reported_unfold. cbn zeta. cbn [app].
  intros Hnil. apply map_eq_nil in Hnil.
  assert (Hsub : forall r, In r (reported c [k]) -> False).
  { intros r Hr. assert (In r (flat_map (fun kc => reported (snd kc) [fst kc]) cs)) as Hr'
      by (apply in_flat_map; exists (k, c); auto).
    rewrite Hnil in Hr'. destruct Hr'. }
  pose proof (reported_nonempty c Hwfc Hterm [k] ltac:(discriminate)) as Hne.
  destruct (reported c [k]) as [|r rs]; [congruence|]. apply (Hsub r). left. reflexivity.
Qed.

(** C7.  [computeLCA] returns the same paths whatever the order in which
    the set lists its directories (the array may list them in another
    order, it is a rearrangement); no returned path is a proper prefix,
    segment by segment, of another one; [a/b], [a/c], [a/d] give [a]; and
    [src/graph], [src/graph-store] are different segments, so they give
    [src]. *)
Theorem computeLCA_order_free_and_prefix_free :
  (forall S S', Permutation S S' -> Permutation (computeLCA S) (computeLCA S'))
  /\ (forall S p q,
        In p (computeLCA S) -> In q (computeLCA S) ->
        ~ strictPrefix (PathTrie.segmentsOf p) (PathTrie.segmentsOf q))
  /\ computeLCA ["a/b"; "a/c"; "a/d"] = ["a"]
  /\ computeLCA ["src/graph"; "src/graph-store"] = ["src"].
Proof.
  split; [exact computeLCA_permutation|].
  split; [exact computeLCA_prefix_free|].
  split; reflexivity.
Qed.

Lemma computeLCA_order_witness :
  Permutation (computeLCA ["src/graph"; "tests/encoder"])
              (computeLCA ["tests/encoder"; "src/graph"]).
Proof.
  apply (proj1 computeLCA_order_free_and_prefix_free). apply perm_swap.
Defined.

(** The array itself follows the insertion order of the set. *)
Example computeLCA_array_order :
  computeLCA ["src/graph"; "tests/encoder"] = ["src/graph"; "tests/encoder"]
  /\ computeLCA ["tests/encoder"; "src/graph"] = ["tests/encoder"; "src/graph"].
Proof. split; reflexivity. Qed.

(** ** Sorting *)

Lemma compareUnit_eq (x y : N) : (x ?= y)%N = Eq <-> x = y.
Proof. apply N.compare_eq_iff. Qed.

Lemma compareUnit_opp (x y : N) : (y ?= x)%N = CompOpp (x ?= y)%N.
Proof. apply N.compare_antisym. Qed.

Lemma compareUnit_trans (x y z : N) (c : comparison) :
  (x ?= y)%N = c -> (y ?= z)%N = c -> (x ?= z)%N = c.
Proof.
  destruct c; rewrite ?N.compare_eq_iff, ?N.compare_lt_iff, ?N.compare_gt_iff; lia.
Qed.

Lemma compareUnits_same (u : list N) : List.list_compare N.compare u u = Eq.
Proof. apply (list_compare_refl _ compareUnit_eq). reflexivity. Qed.

Lemma strLe_refl (a : string) : strLe a a.
Proof.
  unfold strLe, Js.lessEq. rewrite compareUnits_same.
  destruct (String.leb_total a a); assumption.
Qed.

Lemma strLe_trans (a b c : string) : strLe a b -> strLe b c -> strLe a c.
Proof.
  unfold strLe, Js.lessEq. intros H1 H2.
  destruct (List.list_compare N.compare (Js.codeUnits a) (Js.codeUnits b)) eqn:Hab;
    [| |discriminate];
    (destruct (List.list_compare N.compare (Js.codeUnits b) (Js.codeUnits c)) eqn:Hbc;
     [| |discriminate]).
  - apply (list_compare_refl _ compareUnit_eq) in Hab. rewrite Hab, Hbc.
    pose proof (@transitivity _ String.le _ a b c) as Ht.
    unfold String.le in Ht. apply Is_true_true. apply Ht; apply Is_true_true; assumption.
  - apply (list_compare_refl _ compareUnit_eq) in Hab. rewrite Hab, Hbc. reflexivity.
  - apply (list_compare_refl _ compareUnit_eq) in Hbc. rewrite <- Hbc, Hab. reflexivity.
  - rewrite (list_compare_trans _ compareUnit_eq _ _ _ compareUnit_trans compareUnit_opp
               Hab Hbc).
    reflexivity.
Qed.

Lemma strLe_total (a b : string) : strLe a b \/ strLe b a.
Proof.
  unfold strLe, Js.lessEq.
  rewrite (list_compare_antisym _ compareUnit_eq (Js.codeUnits a) (Js.codeUnits b)
             compareUnit_opp).
  destruct (List.list_compare N.compare (Js.codeUnits a) (Js.codeUnits b)); cbn [CompOpp];
    [apply String.leb_total | left; reflexivity | right; reflexivity].
Qed.

Lemma strLe_antisym (a b : string) : strLe a b -> strLe b a -> a = b.
Proof.
  unfold strLe, Js.lessEq.
  rewrite (list_compare_antisym _ compareUnit_eq (Js.codeUnits a) (Js.codeUnits b)
             compareUnit_opp).
  destruct (List.list_compare N.compare (Js.codeUnits a) (Js.codeUnits b)); cbn [CompOpp];
    [apply String.leb_antisym | discriminate | discriminate].
Qed.

Lemma insertSorted_perm (x : string) (l : list string) :
  Permutation (Js.insertSorted x l) (x :: l).
Proof.
  induction l as [|y l IH]; simpl; [reflexivity|].
  destruct (Js.lessEq x y); [reflexivity|].
  rewrite IH. apply perm_swap.
Qed.

Lemma sort_perm (l : list string) : Permutation (Js.sort l) l.
Proof.
  induction l as [|x l IH]; simpl; [reflexivity|].
  rewrite insertSorted_perm. constructor. exact IH.
Qed.

Lemma insertSorted_sorted (x : string) (l : list string) :
  StronglySorted strLe l -> StronglySorted strLe (Js.insertSorted x l).
Proof.
  induction 1 as [|y l Hl IH Hy]; simpl.
  - constructor; constructor.
  - destruct (Js.lessEq x y) eqn:E.
    + constructor; [constructor; assumption|]. constructor; [exact E|].
      eapply List.Forall_impl; [|exact Hy]. intros z Hz. eapply strLe_trans; eassumption.
    + constructor; [exact IH|].
      assert (Hyx : strLe y x).
      { destruct (strLe_total x y) as [H|H]; [unfold strLe in H; congruence | exact H]. }
      apply Forall_forall. intros z Hz%list_elem_of_In.
      apply (Permutation_in _ (insertSorted_perm x l)) in Hz as [<-|Hz]; [exact Hyx|].
      rewrite List.Forall_forall in Hy. auto.
Qed.

Lemma sort_sorted (l : list string) : StronglySorted strLe (Js.sort l).
Proof.
  induction l as [|x l IH]; simpl; [constructor | apply insertSorted_sorted; exact IH].
Qed.

(** The first element of the sorted array is the smallest one. *)
Lemma sort_head_least (l : list string) (first : string) (rest : list string) :
  Js.sort l = first :: rest ->
  In first l /\ forall q, In q l -> strLe first q.
Proof.
  intros Hs. pose proof (sort_perm l) as Hp. pose proof (sort_sorted l) as Hsorted.
  rewrite Hs in Hp, Hsorted. split.
  - apply (Permutation_in _ Hp). left. reflexivity.
  - intros q Hq. apply (Permutation_in _ (Permutation_sym Hp)) in Hq as [<-|Hq].
    + apply strLe_refl.
    + apply StronglySorted_inv in Hsorted as [_ Hall].
      rewrite List.Forall_forall in Hall. auto.
Qed.

Lemma sort_nil_inv (l : list string) : Js.sort l = [] -> l = [].
Proof.
  intros H. pose proof (sort_perm l) as Hp. rewrite H in Hp.
  apply Permutation_nil in Hp. exact Hp.
Qed.

(** Code units, not code points: a character outside the basic plane is
    a pair of surrogates, which sorts before a character from the end of
    the basic plane. *)
Example sort_compares_code_units :
  Js.sort ["docs/～"; "docs/😀"; "docs/z"] = ["docs/z"; "docs/😀"; "docs/～"]
  /\ Js.codeUnits "～" = [65374%N]
  /\ Js.codeUnits "😀" = [55357%N; 56832%N].
Proof. repeat split. Qed.

(** ** Grounded metadata *)

Lemma setMetadata_same (n : Node) : setMetadata n (metadata n) = n.
Proof. destruct n. reflexivity. Qed.

Lemma setMetadata_twice (n : Node) (a b : option StructuralMetadata) :
  setMetadata (setMetadata n a) b = setMetadata n b.
Proof. reflexivity. Qed.

Lemma assign_metadata (cur : Node) (m : StructuralMetadata) :
  Graphology.assign cur (ArtifactGrounder.metadataUpdate m) = setMetadata cur (Some m).
Proof. reflexivity. Qed.

Lemma sort_two (a b : string) (r : list string) :
  exists first rest, Js.sort (a :: b :: r) = first :: rest.
Proof.
  destruct (Js.sort (a :: b :: r)) as [|first rest] eqn:E; [|eauto].
  apply sort_nil_inv in E. discriminate.
Qed.

Lemma withPaths_again (m : option StructuralMetadata) (p1 p : string) (l1 l : list string) :
  ArtifactGrounder.withPaths (Some (ArtifactGrounder.withPaths m p1 l1)) p l
  = ArtifactGrounder.withPaths m p l.
Proof.
  unfold ArtifactGrounder.withPaths, ArtifactGrounder.extraWithPaths.
  destruct m as [m|]; cbn [extra qualifiedName language startLine endLine];
    rewrite insert_insert_eq; reflexivity.
Qed.

Lemma withPath_again (m : option StructuralMetadata) (p1 p : string) :
  ArtifactGrounder.withPath (Some (ArtifactGrounder.withPath m p1)) p
  = ArtifactGrounder.withPath m p.
Proof. destruct m; reflexivity. Qed.

(** Assigning the paths a second time, from any rearrangement of the LCA
    paths, gives what assigning them once gives. *)
Lemma groundedMetadata_again (m : option StructuralMetadata) (L1 L : list string) :
  Permutation L1 L ->
  groundedMetadata (groundedMetadata m L1) L = groundedMetadata m L.
Proof.
  intros Hperm. destruct L as [|a [|b r]].
  - apply Permutation_sym, Permutation_nil in Hperm. subst. reflexivity.
  - apply Permutation_sym, Permutation_length_1_inv in Hperm. subst.
    cbn [groundedMetadata]. rewrite withPath_again. reflexivity.
  - pose proof (Permutation_length Hperm) as Hlen.
    destruct L1 as [|a1 [|b1 r1]]; [discriminate Hlen..|].
    cbn [groundedMetadata].
    destruct (sort_two a b r) as (f & rest & ->).
    destruct (sort_two a1 b1 r1) as (f1 & rest1 & ->).
    rewrite withPaths_again. reflexivity.
Qed.

(** *** What the assigned metadata says *)

Lemma groundedMetadata_single (old : option StructuralMetadata) (p : string) :
  exists m, groundedMetadata old [p] = Some m
            /\ entityType m = Emodule /\ path m = Some p /\ extra m = extraOf old.
Proof.
  eexists. split; [reflexivity|]. destruct old; repeat split.
Qed.

Lemma groundedMetadata_several (old : option StructuralMetadata) (L : list string) :
  (2 <= length L)%nat ->
  exists m first e,
    groundedMetadata old L = Some m
    /\ entityType m = Emodule /\ path m = Some first
    /\ In first L /\ (forall q, In q L -> strLe first q)
    /\ extra m = Some e
    /\ e !! "paths" = Some (JStrings (Js.sort L))
    /\ (forall k, k <> "paths" ->
          e !! k = match extraOf old with Some e0 => e0 !! k | None => None end).
Proof.
  intros Hlen. destruct L as [|a [|b r]]; [simpl in Hlen; lia..|].
  destruct (sort_two a b r) as (first & rest & Hs).
  destruct (sort_head_least _ _ _ Hs) as [Hin Hleast].
  cbn [groundedMetadata]. rewrite Hs.
  exists (ArtifactGrounder.withPaths old first (first :: rest)), first,
         (ArtifactGrounder.extraWithPaths old (first :: rest)).
  split; [reflexivity|].
  split; [destruct old; reflexivity|]. split; [destruct old; reflexivity|].
  split; [exact Hin|]. split; [exact Hleast|].
  split; [destruct old; reflexivity|].
  unfold ArtifactGrounder.extraWithPaths. split.
  - apply lookup_insert_eq.
  - intros k Hk. rewrite lookup_insert_ne by congruence.
    destruct old as [m|]; cbn [extraOf]; [destruct (extra m)|]; try reflexivity;
      apply lookup_empty.
Qed.

(** ** Graphs that differ by grounding only *)

Lemma mapHas_keys {V} (k : string) (l l' : list (string * V)) :
  map fst l = map fst l' -> Js.mapHas k l = Js.mapHas k l'.
Proof.
  intros Hk. destruct (Js.mapHas k l') eqn:E.
  - apply mapHas_In. rewrite Hk. apply mapHas_In. exact E.
  - apply mapHas_false_In. rewrite Hk. apply mapHas_false_In. exact E.
Qed.

Lemma setAdd_In (x d : string) (s : list string) :
  In d (Js.setAdd x s) <-> d = x \/ In d s.
Proof.
  induction s as [|y s IH]; cbn [Js.setAdd In]; [intuition congruence|].
  destruct (String.eqb_spec x y) as [->|Hne]; cbn [In]; [intuition congruence|].
  rewrite IH. intuition congruence.
Qed.

Lemma setAdd_NoDup (x : string) (s : list string) : NoDup s -> NoDup (Js.setAdd x s).
Proof.
  induction s as [|y s IH]; cbn [Js.setAdd]; intros Hnd.
  - apply NoDup_singleton.
  - destruct (String.eqb_spec x y) as [->|Hne]; [exact Hnd|].
    apply NoDup_cons in Hnd as [Hy Hnd]. apply NoDup_cons. split; [|auto].
    rewrite list_elem_of_In, setAdd_In. rewrite list_elem_of_In in Hy.
    intros [->|H]; [congruence | contradiction].
Qed.

Lemma addAll_spec (dirs s : list string) :
  NoDup s ->
  NoDup (fold_left (fun s dir => Js.setAdd dir s) dirs s)
  /\ forall d, In d (fold_left (fun s dir => Js.setAdd dir s) dirs s) <-> In d s \/ In d dirs.
Proof.
  revert s. induction dirs as [|x dirs IH]; intros s Hnd; cbn [fold_left In].
  - split; [exact Hnd | intros d; tauto].
  - destruct (IH (Js.setAdd x s) (setAdd_NoDup x s Hnd)) as [H1 H2].
    split; [exact H1|]. intros d. rewrite H2, setAdd_In. intuition congruence.
Qed.

Section Grounding.

Variable dirname : string -> string.
Variable rpg0 : RepositoryPlanningGraph.

Local Abbreviation groundingOf := (groundingOf dirname rpg0).
Local Abbreviation grounded := (grounded dirname rpg0).
Local Abbreviation listing := (listing dirname rpg0).
Local Abbreviation covers := (covers dirname rpg0).
Local Abbreviation reaches := (reaches rpg0).
Local Abbreviation version := (version dirname rpg0).
Local Abbreviation propagated := (propagated dirname rpg0).

Lemma groundingOf_refl : groundingOf rpg0.
Proof. split; auto. Qed.

Lemma hasNode_grounding (rpg : RepositoryPlanningGraph) (u : string) :
  groundingOf rpg ->
  Graphology.hasNode (graph rpg) u = Graphology.hasNode (graph rpg0) u.
Proof. intros [_ Hk _]. apply mapHas_keys. exact Hk. Qed.

Lemma getNode_grounding (rpg : RepositoryPlanningGraph) (u : string) :
  groundingOf rpg ->
  match RPG.getNode rpg u, RPG.getNode rpg0 u with
  | Some n, Some n0 => sameKind n n0
  | None, None => True
  | _, _ => False
  end.
Proof.
  intros [_ _ Hn]. destruct (Hn u) as [->|(node0 & S & H0 & Hhl & _ & ->)].
  - destruct (RPG.getNode rpg0 u); [|exact I]. repeat split.
  - rewrite H0. split; [reflexivity|]. split; [reflexivity|].
    unfold isLowLevelNode, isHighLevelNode in *. destruct (node_type node0); discriminate.
Qed.

Lemma getOutEdges_grounding (rpg : RepositoryPlanningGraph) (u : string) t :
  groundingOf rpg -> RPG.getOutEdges rpg u t = RPG.getOutEdges rpg0 u t.
Proof.
  intros H. unfold RPG.getOutEdges, Graphology.mapOutEdges, Graphology.outEdges.
  rewrite (hasNode_grounding rpg u H), (same_edges _ _ _ H). reflexivity.
Qed.

Lemma getInEdges_grounding (rpg : RepositoryPlanningGraph) (u : string) t :
  groundingOf rpg -> RPG.getInEdges rpg u t = RPG.getInEdges rpg0 u t.
Proof.
  intros H. unfold RPG.getInEdges, Graphology.mapInEdges, Graphology.inEdges.
  rewrite (hasNode_grounding rpg u H), (same_edges _ _ _ H). reflexivity.
Qed.

Lemma childIds_grounding (rpg : RepositoryPlanningGraph) (v : string) :
  groundingOf rpg -> childIds rpg v = childIds rpg0 v.
Proof.
  intros H. unfold childIds, RPG.getChildren, RPG.nodesAt.
  rewrite (getOutEdges_grounding rpg v _ H).
  induction (RPG.getOutEdges rpg0 v (Some Functional)) as [|e l IH]; [reflexivity|].
  cbn [omap list_omap]. pose proof (getNode_grounding rpg (target e) H) as Hn.
  destruct (RPG.getNode rpg (target e)) as [n|], (RPG.getNode rpg0 (target e)) as [n0|];
    try contradiction; cbn [map]; [|exact IH].
  destruct Hn as (-> & _). f_equal. exact IH.
Qed.

Lemma getParent_grounding (rpg : RepositoryPlanningGraph) (v : string) :
  groundingOf rpg -> (RPG.getParent rpg v = None <-> RPG.getParent rpg0 v = None).
Proof.
  intros H. unfold RPG.getParent. rewrite (getInEdges_grounding rpg v _ H).
  destruct (RPG.getInEdges rpg0 v (Some Functional)) as [|e l]; [tauto|].
  pose proof (getNode_grounding rpg (source e) H) as Hn.
  destruct (RPG.getNode rpg (source e)), (RPG.getNode rpg0 (source e));
    try contradiction; split; congruence.
Qed.

Lemma listing_perm (v : string) (S1 S2 : list string) :
  listing v S1 -> listing v S2 -> Permutation S1 S2.
Proof.
  intros [Hn1 H1] [Hn2 H2]. apply NoDup_Permutation; [assumption..|].
  intros d. rewrite !list_elem_of_In, H1, H2. tauto.
Qed.


(** *** One assignment *)

Lemma version_of (rpg : RepositoryPlanningGraph) (v : string) (node0 node : Node) :
  groundingOf rpg -> RPG.getNode rpg0 v = Some node0 -> RPG.getNode rpg v = Some node ->
  version v node0 node.
Proof.
  intros [_ _ Hn] H0 Hv. destruct (Hn v) as [Heq|(n0 & S1 & H0' & _ & Hl & Hg)].
  - left. congruence.
  - right. exists S1. split; [exact Hl|]. congruence.
Qed.

Lemma version_grounds (v : string) (node0 node : Node) (S : list string) :
  listing v S -> version v node0 node ->
  forall cur, version v node0 cur ->
  setMetadata cur (groundedMetadata (metadata node) (computeLCA S))
  = setMetadata node0 (groundedMetadata (metadata node0) (computeLCA S)).
Proof.
  intros Hl Hnode cur Hcur.
  assert (Hmeta : groundedMetadata (metadata node) (computeLCA S)
                  = groundedMetadata (metadata node0) (computeLCA S)).
  { destruct Hnode as [->|(S1 & Hl1 & ->)]; [reflexivity|].
    cbn [setMetadata metadata]. apply groundedMetadata_again.
    apply computeLCA_permutation. eapply listing_perm; eassumption. }
  rewrite Hmeta. destruct Hcur as [->|(S1 & _ & ->)]; reflexivity.
Qed.

Lemma version_unchanged (v : string) (node0 cur : Node) (S : list string) :
  listing v S -> computeLCA S = [] -> version v node0 cur -> cur = node0.
Proof.
  intros Hl HL [->|(S1 & Hl1 & ->)]; [reflexivity|].
  assert (computeLCA S1 = []) as ->.
  { apply Permutation_nil. rewrite <- HL. apply computeLCA_permutation.
    eapply listing_perm; eassumption. }
  apply setMetadata_same.
Qed.

Lemma version_highLevel (v : string) (node0 node : Node) :
  version v node0 node -> isHighLevelNode node = isHighLevelNode node0.
Proof. intros [->|(S1 & _ & ->)]; reflexivity. Qed.

(** What [assignPaths] does to the graph. *)
Lemma assignPaths_cases (rpg : RepositoryPlanningGraph) (v : string) (node : Node)
    (S : list string) :
  Graphology.hasNode (graph rpg) v = true -> isHighLevelNode node = true ->
  (computeLCA S = [] /\ ArtifactGrounder.assignPaths rpg v node S = Ok rpg)
  \/ (exists m,
        groundedMetadata (metadata node) (computeLCA S) = Some m
        /\ computeLCA S <> []
        /\ ArtifactGrounder.assignPaths rpg v node S
           = Ok (RPG.withGraph rpg
                   (Graphology.mergeNodeAttributes (graph rpg) v
                      (ArtifactGrounder.metadataUpdate m)))).
Proof.
  intros Hhas Hhl. unfold ArtifactGrounder.assignPaths. rewrite Hhl. cbn [andb].
  destruct S as [|d S]; [left; split; reflexivity|]. cbn [length Nat.ltb Nat.leb].
  destruct (computeLCA (d :: S)) as [|a [|b r]] eqn:HL.
  - left. split; reflexivity.
  - right. eexists. split; [reflexivity|]. split; [discriminate|].
    unfold RPG.updateNode. rewrite Hhas. reflexivity.
  - right. destruct (sort_two a b r) as (first & rest & Hs).
    cbn [groundedMetadata]. rewrite Hs. eexists. split; [reflexivity|].
    split; [discriminate|]. unfold RPG.updateNode. rewrite Hhas. reflexivity.
Qed.

Lemma getNode_hasNode (rpg : RepositoryPlanningGraph) (v : string) (n : Node) :
  RPG.getNode rpg v = Some n -> Graphology.hasNode (graph rpg) v = true.
Proof. intros H. apply getNode_Some_has in H as [H _]. exact H. Qed.

(** After the assignment the node is grounded, and nothing else changed. *)
Lemma assignPaths_grounds (rpg1 rpg2 : RepositoryPlanningGraph) (v : string)
    (node0 node : Node) (S : list string) :
  groundingOf rpg1 ->
  RPG.getNode rpg0 v = Some node0 -> isHighLevelNode node0 = true ->
  listing v S -> version v node0 node ->
  ArtifactGrounder.assignPaths rpg1 v node S = Ok rpg2 ->
  groundingOf rpg2 /\ grounded rpg2 v
  /\ forall u, u <> v -> RPG.getNode rpg2 u = RPG.getNode rpg1 u.
Proof.
  intros Hg H0 Hhl Hl Hnode Hassign.
  pose proof (getNode_grounding rpg1 v Hg) as Hcur.
  rewrite H0 in Hcur. destruct (RPG.getNode rpg1 v) as [cur|] eqn:Hcur1; [|contradiction].
  clear Hcur. pose proof (version_of rpg1 v node0 cur Hg H0 Hcur1) as Hver.
  assert (Hhl' : isHighLevelNode node = true)
    by (rewrite (version_highLevel v node0 node Hnode); exact Hhl).
  destruct (assignPaths_cases rpg1 v node S (getNode_hasNode _ _ _ Hcur1) Hhl')
    as [[HL Hsame]|(m & Hm & HL & Hupd)].
  - rewrite Hsame in Hassign. injection Hassign as <-.
    split; [exact Hg|]. split; [|auto].
    exists node0, S. split; [exact H0|]. split; [exact Hhl|]. split; [exact Hl|].
    rewrite HL. cbn [groundedMetadata]. rewrite setMetadata_same, Hcur1.
    f_equal. eapply version_unchanged; eassumption.
  - rewrite Hupd in Hassign. injection Hassign as <-.
    assert (Hv : RPG.getNode
                   (RPG.withGraph rpg1
                      (Graphology.mergeNodeAttributes (graph rpg1) v
                         (ArtifactGrounder.metadataUpdate m))) v
                 = Some (setMetadata node0
                           (groundedMetadata (metadata node0) (computeLCA S)))).
    { rewrite getNode_updateNode_same, Hcur1. cbn [option_map].
      rewrite assign_metadata, <- Hm. f_equal. eapply version_grounds; eassumption. }
    assert (Hgr : grounded
                    (RPG.withGraph rpg1
                       (Graphology.mergeNodeAttributes (graph rpg1) v
                          (ArtifactGrounder.metadataUpdate m))) v).
    { exists node0, S. auto. }
    split; [|split; [exact Hgr|]].
    + destruct Hg as [He Hk Hn]. split.
      * exact He.
      * cbn. rewrite map_fst_merge. exact Hk.
      * intros u. destruct (String.eqb_spec u v) as [->|Hne]; [right; exact Hgr|].
        rewrite (getNode_updateNode_other rpg1 v u _ Hne).
        destruct (Hn u) as [Hu|(n0 & S1 & Hu0 & Hhl1 & Hl1 & Hu)]; [left; exact Hu|].
        right. exists n0, S1. rewrite (getNode_updateNode_other rpg1 v u _ Hne). auto.
    + intros u Hne. apply getNode_updateNode_other. exact Hne.
Qed.


(** *** The recursion *)

Lemma grounded_transfer (rpg1 rpg2 : RepositoryPlanningGraph) (u : string) :
  grounded rpg1 u -> RPG.getNode rpg2 u = RPG.getNode rpg1 u -> grounded rpg2 u.
Proof.
  intros (n0 & S & H0 & Hhl & Hl & Hu) Heq. exists n0, S. rewrite Heq. auto.
Qed.

Lemma collect_sound
    (visit : RepositoryPlanningGraph -> string
             -> outcome (RepositoryPlanningGraph * list string)) :
  (forall rpg c rpg' S,
      groundingOf rpg -> visit rpg c = Done (rpg', S) -> propagated rpg c rpg' S) ->
  forall cs rpg acc rpg1 S1,
    groundingOf rpg -> NoDup acc ->
    ArtifactGrounder.collect visit cs rpg acc = Done (rpg1, S1) ->
    groundingOf rpg1
    /\ (forall u, grounded rpg u -> grounded rpg1 u)
    /\ NoDup S1
    /\ (forall d, In d S1 <-> In d acc \/ exists c, In c (map node_id cs) /\ covers c d)
    /\ (forall c u n0,
          In c (map node_id cs) -> reaches c u -> RPG.getNode rpg0 u = Some n0 ->
          isHighLevelNode n0 = true -> grounded rpg1 u).
Proof.
  intros Hvisit. induction cs as [|child cs IH]; intros rpg acc rpg1 S1 Hg Hacc Hrun;
    cbn [ArtifactGrounder.collect] in Hrun.
  - injection Hrun as <- <-. split; [exact Hg|]. split; [auto|]. split; [exact Hacc|].
    split.
    + intros d. split; [auto|]. intros [H|(c & [] & _)]. exact H.
    + intros c u n0 [].
  - destruct (visit rpg (node_id child)) as [[rpg' childDirs]| |] eqn:Hchild;
      cbn [bind] in Hrun; try discriminate.
    destruct (Hvisit _ _ _ _ Hg Hchild) as [Hg' Hkeep [Hnd Hlist] Hreach].
    destruct (addAll_spec childDirs acc Hacc) as [Hnd' Hin'].
    destruct (IH _ _ _ _ Hg' Hnd' Hrun) as (Hg1 & Hkeep1 & Hnd1 & Hin1 & Hreach1).
    split; [exact Hg1|]. split; [auto|]. split; [exact Hnd1|]. split.
    + intros d. rewrite Hin1, Hin'. cbn [map In]. split.
      * intros [[H|H]|(c & Hc & Hcov)]; [left; exact H | | ].
        -- right. exists (node_id child). split; [left; reflexivity|].
           apply Hlist. exact H.
        -- right. exists c. auto.
      * intros [H|(c & [<-|Hc] & Hcov)]; [auto | |].
        -- left. right. apply Hlist. exact Hcov.
        -- right. exists c. auto.
    + intros c u n0 [<-|Hc] Hr H0 Hhl.
      * apply Hkeep1. eapply Hreach; eassumption.
      * eapply Hreach1; eassumption.
Qed.

Lemma isLowLevel_not_high (n : Node) : isLowLevelNode n = negb (isHighLevelNode n).
Proof. unfold isLowLevelNode, isHighLevelNode. destruct (node_type n); reflexivity. Qed.

Lemma sameKind_low (n n0 : Node) : sameKind n n0 -> isLowLevelNode n = isLowLevelNode n0.
Proof. intros (_ & Ht & _). unfold isLowLevelNode. rewrite Ht. reflexivity. Qed.

Lemma propagate_sound (fuel : nat) :
  forall rpg v rpg' S,
    groundingOf rpg ->
    ArtifactGrounder.propagate dirname fuel rpg v = Done (rpg', S) ->
    propagated rpg v rpg' S.
Proof.
  induction fuel as [|fuel IH]; intros rpg v rpg' S Hg Hrun;
    cbn [ArtifactGrounder.propagate] in Hrun; [discriminate|].
  pose proof (getNode_grounding rpg v Hg) as Hkind.
  destruct (RPG.getNode rpg v) as [node|] eqn:Hv.
  - destruct (RPG.getNode rpg0 v) as [node0|] eqn:H0; [|contradiction].
    pose proof (sameKind_low _ _ Hkind) as Hlow.
    destruct (isLowLevelNode node) eqn:Hll.
    + (* a low-level node: its own directory *)
      assert (node = node0) as -> by (apply Hkind; congruence).
      assert (Hleaf : forall u n0, reaches v u -> RPG.getNode rpg0 u = Some n0 ->
                                   isHighLevelNode n0 = true -> grounded rpg u).
      { intros u n0 Hr Hu Hhl. exfalso. inversion Hr; subst.
        - rewrite H0 in Hu. injection Hu as <-.
          rewrite isLowLevel_not_high, Hhl in Hll. discriminate.
        - congruence. }
      destruct (RPG.pathOf node0) as [p|] eqn:Hp;
        [destruct (Js.nonEmpty p) eqn:Hne|]; injection Hrun as <- <-;
        (split; [exact Hg | auto | | exact Hleaf]).
      * split; [apply NoDup_singleton|]. intros d. split.
        -- intros [<-|[]]. eapply covers_here; eassumption.
        -- intros Hc. inversion Hc; subst; [|congruence].
           left. congruence.
      * split; [constructor|]. intros d. split; [intros []|].
        intros Hc. inversion Hc; subst; congruence.
      * split; [constructor|]. intros d. split; [intros []|].
        intros Hc. inversion Hc; subst; congruence.
    + (* a high-level node: the children, then the assignment *)
      destruct (ArtifactGrounder.collect _ _ _ _) as [[rpg1 dirSet]| |] eqn:Hcollect;
        cbn [bind] in Hrun; try discriminate.
      destruct (ArtifactGrounder.assignPaths rpg1 v node dirSet) as [rpg2|] eqn:Hassign;
        cbn [lift bind] in Hrun; [|discriminate].
      injection Hrun as <- <-.
      destruct (collect_sound _ (IH) _ _ _ _ _ Hg ltac:(constructor) Hcollect)
        as (Hg1 & Hkeep1 & Hnd1 & Hin1 & Hreach1).
      fold (childIds rpg v) in Hin1, Hreach1.
      rewrite (childIds_grounding rpg v Hg) in Hin1, Hreach1.
      assert (Hhl0 : isHighLevelNode node0 = true).
      { rewrite isLowLevel_not_high in Hlow.
        destruct (isHighLevelNode node0); [reflexivity | discriminate Hlow]. }
      assert (Hlist : listing v dirSet).
      { split; [exact Hnd1|]. intros d. rewrite Hin1. split.
        - intros [[]|(c & Hc & Hcov)]. eapply covers_below; eauto.
        - intros Hc. inversion Hc; subst; [congruence|]. right. eauto. }
      destruct (assignPaths_grounds rpg1 rpg2 v node0 node dirSet Hg1 H0 Hhl0 Hlist
                  (version_of rpg v node0 node Hg H0 Hv) Hassign)
        as (Hg2 & Hgv & Hother).
      assert (Hstep : forall u, grounded rpg1 u -> grounded rpg2 u).
      { intros u Hu. destruct (String.eqb_spec u v) as [->|Hne]; [exact Hgv|].
        eapply grounded_transfer; [exact Hu | auto]. }
      split; [exact Hg2 | auto | exact Hlist |].
      intros u n0 Hr Hu Hhl. inversion Hr; subst; [exact Hgv|].
      apply Hstep. eapply Hreach1; eassumption.
  - destruct (RPG.getNode rpg0 v) eqn:H0; [contradiction|].
    injection Hrun as <- <-. split; [exact Hg | auto | |].
    + split; [constructor|]. intros d. split; [intros []|].
      intros Hc. inversion Hc; subst; congruence.
    + intros u n0 Hr Hu Hhl. inversion Hr; subst; congruence.
Qed.

Lemma groundRoots_sound (fuel : nat) (hs : list Node) :
  forall rpg rpg',
    groundingOf rpg ->
    ArtifactGrounder.groundRoots dirname fuel hs rpg = Done rpg' ->
    groundingOf rpg'
    /\ (forall u, grounded rpg u -> grounded rpg' u)
    /\ (forall root u n0,
          In root hs -> RPG.getParent rpg0 (node_id root) = None ->
          reaches (node_id root) u -> RPG.getNode rpg0 u = Some n0 ->
          isHighLevelNode n0 = true -> grounded rpg' u).
Proof.
  induction hs as [|h hs IH]; intros rpg rpg' Hg Hrun;
    cbn [ArtifactGrounder.groundRoots] in Hrun.
  - injection Hrun as <-. split; [exact Hg|]. split; [auto|]. intros root u n0 [].
  - pose proof (getParent_grounding rpg (node_id h) Hg) as Hparent.
    destruct (RPG.getParent rpg (node_id h)) as [parent|] eqn:Hp.
    + destruct (IH _ _ Hg Hrun) as (Hg' & Hkeep & Hreach).
      split; [exact Hg'|]. split; [exact Hkeep|].
      intros root u n0 [<-|Hin] Hroot; [|eauto].
      apply Hparent in Hroot. discriminate.
    + destruct (ArtifactGrounder.propagate dirname fuel rpg (node_id h))
        as [[rpg1 S]| |] eqn:Hprop; cbn [bind] in Hrun; try discriminate.
      destruct (propagate_sound _ _ _ _ _ Hg Hprop) as [Hg1 Hkeep1 _ Hreach1].
      destruct (IH _ _ Hg1 Hrun) as (Hg' & Hkeep & Hreach).
      split; [exact Hg'|]. split; [auto|].
      intros root u n0 [<-|Hin] Hroot Hr Hu Hhl; [|eauto].
      apply Hkeep. eapply Hreach1; eassumption.
Qed.

(** *** Enough fuel *)

Lemma assignPaths_returns (rpg : RepositoryPlanningGraph) (v : string) (node : Node)
    (S : list string) :
  Graphology.hasNode (graph rpg) v = true ->
  exists rpg', ArtifactGrounder.assignPaths rpg v node S = Ok rpg'.
Proof.
  intros Hhas. unfold ArtifactGrounder.assignPaths.
  destruct (isHighLevelNode node && (0 <? length S)%nat); [|eauto].
  destruct (computeLCA S) as [|a [|b r]]; [eauto | |].
  - unfold RPG.updateNode. rewrite Hhas. eauto.
  - destruct (Js.sort (a :: b :: r)); [eauto|].
    unfold RPG.updateNode. rewrite Hhas. eauto.
Qed.

Lemma collect_returns
    (visit : RepositoryPlanningGraph -> string
             -> outcome (RepositoryPlanningGraph * list string)) :
  (forall rpg c rpg' S,
      groundingOf rpg -> visit rpg c = Done (rpg', S) -> propagated rpg c rpg' S) ->
  forall cs rpg acc,
    groundingOf rpg ->
    (forall rpg c, In c (map node_id cs) -> groundingOf rpg ->
                   exists rpg' S, visit rpg c = Done (rpg', S)) ->
    exists rpg1 S1, ArtifactGrounder.collect visit cs rpg acc = Done (rpg1, S1).
Proof.
  intros Hsound. induction cs as [|child cs IH]; intros rpg acc Hg Hret;
    cbn [ArtifactGrounder.collect]; [eauto|].
  destruct (Hret rpg (node_id child) (or_introl eq_refl) Hg) as (rpg' & S & Hchild).
  rewrite Hchild. cbn [bind].
  apply IH.
  - apply (Hsound _ _ _ _ Hg Hchild).
  - intros r c Hc. apply Hret. right. exact Hc.
Qed.

Lemma propagate_returns (fuel : nat) :
  forall rpg v,
    groundingOf rpg -> settles rpg0 fuel v ->
    exists rpg' S, ArtifactGrounder.propagate dirname fuel rpg v = Done (rpg', S).
Proof.
  induction fuel as [|fuel IH]; intros rpg v Hg Hsettles; [destruct Hsettles|].
  cbn [ArtifactGrounder.propagate settles] in *.
  pose proof (getNode_grounding rpg v Hg) as Hkind.
  destruct (RPG.getNode rpg v) as [node|] eqn:Hv; [|eauto].
  destruct (RPG.getNode rpg0 v) as [node0|] eqn:H0; [|contradiction].
  rewrite (sameKind_low _ _ Hkind).
  destruct (isLowLevelNode node0) eqn:Hll.
  - destruct (RPG.pathOf node) as [p|]; [destruct (Js.nonEmpty p)|]; eauto.
  - destruct Hsettles as [Hs|Hs]; [discriminate|].
    rewrite <- (childIds_grounding rpg v Hg) in Hs. rewrite List.Forall_forall in Hs.
    destruct (collect_returns _ (propagate_sound fuel) (RPG.getChildren rpg v) rpg [] Hg)
      as (rpg1 & S1 & Hcollect).
    { intros r c Hc Hr. apply IH; [exact Hr|]. apply Hs. exact Hc. }
    rewrite Hcollect. cbn [bind].
    destruct (collect_sound _ (propagate_sound fuel) _ _ _ _ _ Hg ltac:(constructor) Hcollect)
      as (Hg1 & _).
    destruct (assignPaths_returns rpg1 v node S1) as [rpg2 Hassign].
    { rewrite (hasNode_grounding rpg1 v Hg1), <- (hasNode_grounding rpg v Hg).
      eapply getNode_hasNode. exact Hv. }
    rewrite Hassign. cbn [lift bind]. eauto.
Qed.

Lemma groundRoots_returns (fuel : nat) (hs : list Node) :
  forall rpg,
    groundingOf rpg ->
    Forall (fun h => settles rpg0 fuel (node_id h)) hs ->
    exists rpg', ArtifactGrounder.groundRoots dirname fuel hs rpg = Done rpg'.
Proof.
  induction hs as [|h hs IH]; intros rpg Hg Hs; cbn [ArtifactGrounder.groundRoots];
    [eauto|].
  inversion Hs as [|? ? Hh Hs']; subst.
  destruct (RPG.getParent rpg (node_id h)); [apply IH; assumption|].
  destruct (propagate_returns fuel rpg (node_id h) Hg Hh) as (rpg1 & S & Hprop).
  rewrite Hprop. cbn [bind]. apply IH; [|exact Hs'].
  apply (propagate_sound _ _ _ _ _ Hg Hprop).
Qed.

End Grounding.


(** ** Loops *)

Lemma forEach_inv {A S} (P : S -> Prop) (body : S -> A -> option S) (l : list A) :
  (forall s x s', In x l -> P s -> body s x = Some s' -> P s') ->
  forall st st', P st -> ExploreRPG.forEach body l st = Some st' -> P st'.
Proof.
  induction l as [|x l IH]; intros Hbody st st' HP Hrun; simpl in Hrun.
  - congruence.
  - destruct (body st x) as [s1|] eqn:Hx; [|discriminate].
    apply (IH (fun s y s' Hy => Hbody s y s' (or_intror Hy)) s1 st'); [|exact Hrun].
    apply (Hbody st x s1); auto. left. reflexivity.
Qed.

Lemma forEach_returns {A S} (P : S -> Prop) (body : S -> A -> option S) (l : list A) :
  (forall s x, In x l -> P s -> exists s', body s x = Some s' /\ P s') ->
  forall st, P st -> exists st', ExploreRPG.forEach body l st = Some st' /\ P st'.
Proof.
  induction l as [|x l IH]; intros Hbody st HP; simpl.
  - eauto.
  - destruct (Hbody st x (or_introl eq_refl) HP) as (s1 & -> & HP1).
    apply IH; [|exact HP1]. intros s y Hy. apply Hbody. right. exact Hy.
Qed.

(** ** graph/rpg.ts: topological order *)

Section Topological.

Variable rpg : RepositoryPlanningGraph.

Local Abbreviation keys := (list_to_set (map fst (g_nodes (graph rpg))) : gset string).

Lemma hasNode_keys (id : string) :
  Graphology.hasNode (graph rpg) id = true <-> id ∈ keys.
Proof. rewrite hasNode_In, elem_of_list_to_set, list_elem_of_In. reflexivity. Qed.

Lemma size_keys : (size keys <= length (g_nodes (graph rpg)))%nat.
Proof.
  rewrite <- (length_map fst). generalize (map fst (g_nodes (graph rpg))) as l.
  induction l as [|k l IH].
  - rewrite list_to_set_nil, size_empty. simpl. lia.
  - rewrite list_to_set_cons. simpl.
    destruct (decide (k ∈ (list_to_set l : gset string))) as [Hin|Hout].
    + replace ({[k]} ∪ list_to_set l) with (list_to_set l : gset string) by set_solver. lia.
    + rewrite size_union by set_solver. rewrite size_singleton. lia.
Qed.

Lemma visit_returns (fuel : nat) :
  forall id st,
    (size (keys ∖ topo_visited st) < fuel)%nat ->
    exists st', TopologicalOrder.visit fuel rpg id st = Some st'
                /\ topo_visited st ⊆ topo_visited st'.
Proof.
  induction fuel as [|fuel IH]; intros id st Hfuel; [lia|].
  cbn [TopologicalOrder.visit]. case_bool_decide as Hseen; [eauto|].
  set (st1 := mkTopoState ({[id]} ∪ topo_visited st) (topo_result st)).
  assert (Hloop : exists s, ExploreRPG.forEach
                    (fun st dep => TopologicalOrder.visit fuel rpg (target dep) st)
                    (RPG.getOutEdges rpg id (Some Dependency)) st1 = Some s
                  /\ topo_visited st1 ⊆ topo_visited s).
  { destruct (Graphology.hasNode (graph rpg) id) eqn:Hhas.
    - apply hasNode_keys in Hhas.
      assert (Hless : (size (keys ∖ topo_visited st1) < fuel)%nat).
      { assert (size (keys ∖ topo_visited st1) < size (keys ∖ topo_visited st))%nat; [|lia].
        apply subset_size. cbn. set_solver. }
      apply (forEach_returns (fun s => topo_visited st1 ⊆ topo_visited s)); [|reflexivity].
      intros s e _ Hs.
      destruct (IH (target e) s) as (s' & Hrun & Hsub).
      { assert (size (keys ∖ topo_visited s) <= size (keys ∖ topo_visited st1))%nat; [|lia].
        apply subseteq_size. set_solver. }
      exists s'. split; [exact Hrun | set_solver].
    - unfold RPG.getOutEdges. rewrite Hhas. cbn. eauto. }
  destruct Hloop as (s & -> & Hsub). cbn in Hsub.
  destruct (RPG.getNode rpg id); eexists; (split; [reflexivity|cbn; set_solver]).
Qed.

Lemma visitAll_returns :
  exists st, TopologicalOrder.visitAll (S (length (g_nodes (graph rpg)))) rpg = Some st.
Proof.
  unfold TopologicalOrder.visitAll.
  destruct (forEach_returns (fun _ : TopoState => True)
              (fun st node => TopologicalOrder.visit (S (length (g_nodes (graph rpg)))) rpg
                                (node_id node) st)
              (RPG.getNodes rpg)) with (st := TopologicalOrder.initial) as (st & Hrun & _);
    [|exact I|eauto].
  intros s n _ _.
  destruct (visit_returns (S (length (g_nodes (graph rpg)))) (node_id n) s) as (s' & Hs' & _).
  - pose proof size_keys. assert (size (keys ∖ topo_visited s) <= size keys)%nat; [|lia].
    apply subseteq_size. set_solver.
  - eauto.
Qed.

(** A call marks its argument and unmarks nothing. *)
Lemma visit_marks (fuel : nat) :
  forall id st st',
    TopologicalOrder.visit fuel rpg id st = Some st' ->
    topo_visited st ⊆ topo_visited st' /\ id ∈ topo_visited st'.
Proof.
  induction fuel as [|fuel IH]; intros id st st'; cbn [TopologicalOrder.visit];
    case_bool_decide as Hseen; intros Hrun; try (injection Hrun as <-; auto; fail);
    [discriminate|].
  destruct (ExploreRPG.forEach _ _ _) as [s|] eqn:Hloop; [|discriminate].
  assert (Hs : {[id]} ∪ topo_visited st ⊆ topo_visited s).
  { revert Hloop.
    apply (forEach_inv (fun s => {[id]} ∪ topo_visited st ⊆ topo_visited s)); [|reflexivity].
    intros s0 e s1 _ Hs0 Hstep. apply IH in Hstep as [Hsub _]. set_solver. }
  destruct (RPG.getNode rpg id); injection Hrun as <-; cbn; set_solver.
Qed.

Lemma loop_marks {A} (fuel : nat) (pick : A -> string) (l : list A) :
  forall st st',
    ExploreRPG.forEach (fun st x => TopologicalOrder.visit fuel rpg (pick x) st) l st = Some st' ->
    topo_visited st ⊆ topo_visited st' /\ forall x, In x l -> pick x ∈ topo_visited st'.
Proof.
  induction l as [|x l IH]; intros st st' Hrun; simpl in Hrun.
  - injection Hrun as <-. split; [reflexivity | intros ? []].
  - destruct (TopologicalOrder.visit fuel rpg (pick x) st) as [s|] eqn:Hx; [|discriminate].
    apply visit_marks in Hx as [Hsub Hin]. apply IH in Hrun as [Hsub' Hall].
    split; [set_solver|]. intros y [<-|Hy]; [set_solver | auto].
Qed.

(** Every node is read back under its own id. *)
Local Abbreviation selfKeyed := (forall k n, RPG.getNode rpg k = Some n -> node_id n = k).

(** The node stored under [k], if any, has been pushed. *)
Local Abbreviation finished st k :=
  (forall n, RPG.getNode rpg k = Some n -> In n (topo_result st)).

Local Abbreviation ordered := (dependenciesFirst rpg).
Local Abbreviation topoInv := (topoInv rpg).

Lemma ordered_snoc (l : list Node) (node : Node) :
  ordered l ->
  (forall b nb, dependsOn rpg (node_id node) b -> RPG.getNode rpg b = Some nb -> In nb l) ->
  ordered (l ++ [node]).
Proof.
  intros Hl Hnode l1 n l2 Heq b nb Hdep Hb.
  destruct l2 as [|x l2 _] using rev_ind.
  - apply app_inj_tail in Heq as [-> ->]. eauto.
  - rewrite app_comm_cons, app_assoc in Heq. apply app_inj_tail in Heq as [-> _]. eauto.
Qed.

Lemma visit_sound (fuel : nat) :
  selfKeyed ->
  forall id st st',
    topoInv st ->
    (forall k, k ∈ topo_visited st -> finished st k \/ dependsOnStar rpg k id) ->
    TopologicalOrder.visit fuel rpg id st = Some st' ->
    topoInv st'
    /\ (exists new, topo_result st' = topo_result st ++ new
                    /\ forall n, In n new -> node_id n ∉ topo_visited st)
    /\ (forall k, k ∈ topo_visited st' -> k ∉ topo_visited st -> finished st' k).
Proof.
  intros Hkeyed.
  induction fuel as [|fuel IH]; intros id st st' Hinv Hgray; cbn [TopologicalOrder.visit];
    case_bool_decide as Hseen; intros Hrun;
    try (injection Hrun as <-; split; [exact Hinv|]; split;
         [exists []; rewrite app_nil_r; split; [reflexivity | intros ? []]
         | intros k Hk Hk'; contradiction]);
    [discriminate|].
  set (st1 := mkTopoState ({[id]} ∪ topo_visited st) (topo_result st)) in *.
  destruct (ExploreRPG.forEach _ _ st1) as [s|] eqn:Hloop; [|discriminate].
  pose proof (loop_marks fuel target _ _ _ Hloop) as [Hsub Htargets].
  assert (HL : topoInv s
               /\ topo_visited st1 ⊆ topo_visited s
               /\ (exists new, topo_result s = topo_result st ++ new
                               /\ forall n, In n new -> node_id n ∉ topo_visited st1)
               /\ (forall k, k ∈ topo_visited s -> k ∉ topo_visited st1 -> finished s k)).
  { refine (forEach_inv
              (fun s => topoInv s
                        /\ topo_visited st1 ⊆ topo_visited s
                        /\ (exists new, topo_result s = topo_result st ++ new
                                        /\ forall n, In n new -> node_id n ∉ topo_visited st1)
                        /\ (forall k, k ∈ topo_visited s -> k ∉ topo_visited st1 -> finished s k))
              _ _ _ st1 s _ Hloop).
    - intros s0 e s1 He (Hinv0 & Hsub0 & (new0 & Hres0 & Hnew0) & Hfin0) Hstep.
      pose proof (visit_marks _ _ _ _ Hstep) as [Hsub01 _].
      destruct (IH (target e) s0 s1 Hinv0) as (Hinv1 & (new1 & Hres1 & Hnew1) & Hfin1);
        [|exact Hstep|].
      { intros k Hk. destruct (decide (k ∈ topo_visited st1)) as [Hk1|Hk1].
        - cbn in Hk1. apply elem_of_union in Hk1 as [Hk1|Hk1].
          + apply elem_of_singleton in Hk1 as ->. right.
            apply dependsOnStar_step with (b := id); [constructor|]. exists e. auto.
          + destruct (Hgray k Hk1) as [Hf|Hp].
            * left. intros n Hn. rewrite Hres0. apply in_or_app. left. auto.
            * right. apply dependsOnStar_step with (b := id); [exact Hp|]. exists e. auto.
        - left. exact (Hfin0 k Hk Hk1). }
      split; [exact Hinv1|]. split; [set_solver|]. split.
      + exists (new0 ++ new1). rewrite Hres1, Hres0, app_assoc. split; [reflexivity|].
        intros n [Hn|Hn]%in_app_or; [auto|].
        intros Hin. apply (Hnew1 n Hn). set_solver.
      + intros k Hk Hk1. destruct (decide (k ∈ topo_visited s0)) as [Hk0|Hk0].
        * intros n Hn. rewrite Hres1. apply in_or_app. left. exact (Hfin0 k Hk0 Hk1 n Hn).
        * exact (Hfin1 k Hk Hk0).
    - split; [|split; [reflexivity|split]].
      + destruct Hinv as [H1 H2 H3]. split; cbn; [exact H1| |exact H3].
        intros n Hn. destruct (H2 n Hn). split; [assumption | set_solver].
      + exists []. rewrite app_nil_r. split; [reflexivity | intros ? []].
      + intros k Hk Hk'. contradiction. }
  destruct HL as (Hinvs & Hsubs & (new & Hres & Hnew) & Hfin).
  destruct (RPG.getNode rpg id) as [node|] eqn:Hnode; injection Hrun as <-.
  - pose proof (Hkeyed _ _ Hnode) as Hid.
    assert (Hfresh : ~ In id (map node_id (topo_result s))).
    { rewrite Hres, map_app. intros [Hin|Hin]%in_app_or.
      - apply in_map_iff in Hin as (n & Hn & Hin).
        destruct Hinv as [_ Hstored _]. destruct (Hstored n Hin) as [_ Hv].
        rewrite Hn in Hv. contradiction.
      - apply in_map_iff in Hin as (n & Hn & Hin). apply (Hnew n Hin). rewrite Hn.
        cbn. set_solver. }
    split; [|split].
    + destruct Hinvs as [H1 H2 H3]. split; cbn.
      * rewrite map_app. cbn. rewrite Hid.
        apply NoDup_app. split; [exact H1|]. split; [|apply NoDup_singleton].
        intros x Hx [->|[]]%list_elem_of_In. apply Hfresh. apply list_elem_of_In. exact Hx.
      * intros n [Hn|[<-|[]]]%in_app_or; [auto|]. rewrite Hid. split; [exact Hnode|].
        apply Hsubs. cbn. set_solver.
      * intros Hacyc. apply ordered_snoc; [exact (H3 Hacyc)|].
        intros b nb Hdep Hb. rewrite Hid in Hdep.
        destruct Hdep as (e & He & <-).
        pose proof (Htargets e He) as Hvis.
        destruct (decide (target e ∈ topo_visited st1)) as [Hk1|Hk1];
          [|exact (Hfin _ Hvis Hk1 nb Hb)].
        cbn in Hk1. apply elem_of_union in Hk1 as [Hk1|Hk1].
        -- apply elem_of_singleton in Hk1. exfalso.
           apply (Hacyc id id); [constructor|]. exists e. auto.
        -- destruct (Hgray _ Hk1) as [Hf|Hp].
           ++ rewrite Hres. apply in_or_app. left. auto.
           ++ exfalso. apply (Hacyc _ _ Hp). exists e. auto.
    + exists (new ++ [node]). cbn. rewrite Hres, app_assoc. split; [reflexivity|].
      intros n [Hn|[<-|[]]]%in_app_or.
      * intros Hin. apply (Hnew n Hn). cbn. set_solver.
      * rewrite Hid. exact Hseen.
    + cbn. intros k Hk Hk' n Hn. apply in_or_app.
      destruct (decide (k = id)) as [->|Hne].
      * right. left. congruence.
      * left. apply (Hfin k Hk); [|exact Hn]. cbn. set_solver.
  - split; [exact Hinvs|]. split.
    + exists new. split; [exact Hres|]. intros n Hn Hin. apply (Hnew n Hn). cbn. set_solver.
    + intros k Hk Hk' n Hn. destruct (decide (k = id)) as [->|Hne]; [congruence|].
      apply (Hfin k Hk); [|exact Hn]. cbn. set_solver.
Qed.


Lemma visitAll_sound (fuel : nat) (st : TopoState) :
  selfKeyed ->
  TopologicalOrder.visitAll fuel rpg = Some st ->
  topoInv st
  /\ (forall n, In n (RPG.getNodes rpg) -> node_id n ∈ topo_visited st)
  /\ (forall k, k ∈ topo_visited st -> finished st k).
Proof.
  intros Hkeyed Hrun. unfold TopologicalOrder.visitAll in Hrun.
  pose proof (loop_marks fuel node_id _ _ _ Hrun) as [_ Hall].
  refine ((fun H => conj (proj1 H) (conj Hall (proj2 H))) _).
  refine (forEach_inv
            (fun s => topoInv s /\ forall k, k ∈ topo_visited s -> finished s k)
            _ _ _ TopologicalOrder.initial st _ Hrun).
  - intros s n s' _ [Hinv Hfin] Hstep.
    destruct (visit_sound fuel Hkeyed (node_id n) s s' Hinv) as (Hinv' & (new & Hres & _) & Hfin');
      [intros k Hk; left; exact (Hfin k Hk) | exact Hstep |].
    split; [exact Hinv'|]. intros k Hk. destruct (decide (k ∈ topo_visited s)) as [Hk0|Hk0].
    + intros m Hm. rewrite Hres. apply in_or_app. left. exact (Hfin k Hk0 m Hm).
    + exact (Hfin' k Hk Hk0).
  - split.
    + split; cbn; [constructor | intros ? [] |].
      intros _ l1 n l2 Heq. destruct l1; discriminate.
    + intros k Hk. cbn in Hk. set_solver.
Qed.

End Topological.

(** ** Reading nodes and edges back *)

Lemma mapGet_In {V} (k : string) (v : V) (l : list (string * V)) :
  Js.mapGet k l = Some v -> In (k, v) l.
Proof.
  induction l as [|[k' v'] l IH]; simpl; [discriminate|].
  destruct (String.eqb_spec k k') as [->|Hne].
  - intros [= ->]. left. reflexivity.
  - intros H. right. auto.
Qed.

Lemma In_mapGet {V} (k : string) (v : V) (l : list (string * V)) :
  NoDup (map fst l) -> In (k, v) l -> Js.mapGet k l = Some v.
Proof.
  induction l as [|[k' v'] l IH]; simpl; [intros _ []|].
  intros Hnd%NoDup_cons [Heq|Hin]; destruct Hnd as [Hout Hnd].
  - injection Heq as -> ->. rewrite String.eqb_refl. reflexivity.
  - destruct (String.eqb_spec k k') as [->|Hne]; [|auto].
    exfalso. apply Hout. apply list_elem_of_In. apply in_map_iff. exists (k', v). auto.
Qed.

Lemma getNode_In (rpg : RepositoryPlanningGraph) (k : string) (n : Node) :
  RPG.getNode rpg k = Some n -> In (k, n) (g_nodes (graph rpg)).
Proof. rewrite getNode_mapGet. apply mapGet_In. Qed.

Lemma In_getNode (rpg : RepositoryPlanningGraph) (k : string) (n : Node) :
  NoDup (map fst (g_nodes (graph rpg))) -> In (k, n) (g_nodes (graph rpg)) ->
  RPG.getNode rpg k = Some n.
Proof. rewrite getNode_mapGet. apply In_mapGet. Qed.

Lemma getNodes_snd (rpg : RepositoryPlanningGraph) :
  RPG.getNodes rpg = map snd (g_nodes (graph rpg)).
Proof. reflexivity. Qed.

Lemma keyed_ids (g : Graph) : keyed g -> map node_id (map snd (g_nodes g)) = map fst (g_nodes g).
Proof.
  unfold keyed. induction 1 as [|kn l Hkn _ IH]; simpl; [reflexivity|]. rewrite Hkn, IH.
  reflexivity.
Qed.

Lemma keyed_getNode (rpg : RepositoryPlanningGraph) (k : string) (n : Node) :
  keyed (graph rpg) -> RPG.getNode rpg k = Some n -> node_id n = k.
Proof.
  intros Hk Hn%getNode_In. unfold keyed in Hk. rewrite List.Forall_forall in Hk.
  exact (Hk _ Hn).
Qed.

Lemma In_ofType (t : option EdgeType) (edges : list Edge) (e : Edge) :
  In e (RPG.ofType t edges)
  <-> In e edges /\ match t with Some ty => edge_type e = ty | None => True end.
Proof.
  destruct t as [ty|]; simpl; [|tauto].
  rewrite filter_In, EdgeType_eqb_eq. reflexivity.
Qed.

(** *** Adjacency: the same edges in another order *)

Lemma attach_perm (neighbor : string) (e : EdgeData)
    (adjacency : list (string * list EdgeData)) :
  Permutation (flat_map snd (Graphology.attach neighbor e adjacency))
              (e :: flat_map snd adjacency).
Proof.
  induction adjacency as [|[k chain] tl IH]; cbn [Graphology.attach]; [reflexivity|].
  destruct (String.eqb neighbor k); cbn [flat_map snd]; [reflexivity|].
  rewrite IH. symmetry. apply Permutation_middle.
Qed.

Lemma adjacencyOf_perm (neighborOf : EdgeData -> string) (incident : list EdgeData) :
  Permutation (flat_map snd (Graphology.adjacencyOf neighborOf incident)) incident.
Proof.
  unfold Graphology.adjacencyOf.
  enough (H : forall adjacency,
             Permutation
               (flat_map snd
                  (fold_left (fun adj e => Graphology.attach (neighborOf e) e adj)
                     incident adjacency))
               (flat_map snd adjacency ++ incident)) by apply (H []).
  induction incident as [|e l IH]; intros adjacency; cbn [fold_left].
  - rewrite app_nil_r. reflexivity.
  - rewrite IH, attach_perm. cbn [app]. apply Permutation_middle.
Qed.

Lemma insertByIndex_perm {V} (kv : string * V) (l : list (string * V)) :
  Permutation (Js.insertByIndex kv l) (kv :: l).
Proof.
  induction l as [|kv' l IH]; cbn [Js.insertByIndex]; [reflexivity|].
  destruct (Js.indexOf (fst kv) <=? Js.indexOf (fst kv'))%N; [reflexivity|].
  rewrite IH. apply perm_swap.
Qed.

Lemma forIn_perm {V} (object : list (string * V)) : Permutation (Js.forIn object) object.
Proof.
  unfold Js.forIn.
  transitivity (List.filter (fun kv => Js.isArrayIndex (fst kv)) object
                ++ List.filter (fun kv => negb (Js.isArrayIndex (fst kv))) object).
  - apply Permutation_app_tail.
    induction (List.filter (fun kv => Js.isArrayIndex (fst kv)) object) as [|kv l IH];
      cbn [fold_right]; [reflexivity|].
    rewrite insertByIndex_perm. constructor. exact IH.
  - induction object as [|kv l IH]; cbn [List.filter]; [reflexivity|].
    destruct (Js.isArrayIndex (fst kv)); cbn [negb app].
    + constructor. exact IH.
    + rewrite <- Permutation_middle. constructor. exact IH.
Qed.

Lemma chained_perm (neighborOf : EdgeData -> string) (incident : list EdgeData) :
  Permutation (Graphology.chained (Graphology.adjacencyOf neighborOf incident)) incident.
Proof.
  unfold Graphology.chained.
  rewrite (Permutation_flat_map snd (forIn_perm (Graphology.adjacencyOf neighborOf incident))).
  apply adjacencyOf_perm.
Qed.

Lemma In_outEdges (g : Graph) (a : string) (ed : EdgeData) :
  In ed (Graphology.outEdges g a) <-> In ed (g_edges g) /\ e_source ed = a.
Proof.
  unfold Graphology.outEdges. split.
  - intros Hin. apply (Permutation_in _ (chained_perm _ _)) in Hin.
    apply filter_In in Hin as [Hin Hsrc%String.eqb_eq]. auto.
  - intros [Hin <-]. apply (Permutation_in _ (Permutation_sym (chained_perm _ _))).
    apply filter_In. split; [exact Hin | apply String.eqb_refl].
Qed.

Lemma In_inEdges (g : Graph) (a : string) (ed : EdgeData) :
  In ed (Graphology.inEdges g a) <-> In ed (g_edges g) /\ e_target ed = a.
Proof.
  unfold Graphology.inEdges. split.
  - intros Hin. apply (Permutation_in _ (chained_perm _ _)) in Hin.
    apply filter_In in Hin as [Hin Hsrc%String.eqb_eq]. auto.
  - intros [Hin <-]. apply (Permutation_in _ (Permutation_sym (chained_perm _ _))).
    apply filter_In. split; [exact Hin | apply String.eqb_refl].
Qed.

Lemma In_getOutEdges (rpg : RepositoryPlanningGraph) (a : string) (t : option EdgeType)
    (e : Edge) :
  In e (RPG.getOutEdges rpg a t)
  <-> RPG.hasNode rpg a = true
      /\ (exists ed, In ed (g_edges (graph rpg)) /\ e_attributes ed = e /\ e_source ed = a)
      /\ match t with Some ty => edge_type e = ty | None => True end.
Proof.
  unfold RPG.getOutEdges, RPG.hasNode, Graphology.mapOutEdges.
  destruct (Graphology.hasNode (graph rpg) a); cbn [negb].
  - rewrite In_ofType, in_map_iff. split.
    + intros [(ed & <- & [Hin Hsrc]%In_outEdges) Ht]. eauto 8.
    + intros (_ & (ed & Hin & <- & <-) & Ht). split; [|exact Ht].
      exists ed. split; [reflexivity|]. apply In_outEdges. auto.
  - split; [intros [] | intros [? _]; discriminate].
Qed.

Lemma In_getInEdges (rpg : RepositoryPlanningGraph) (b : string) (t : option EdgeType)
    (e : Edge) :
  In e (RPG.getInEdges rpg b t)
  <-> RPG.hasNode rpg b = true
      /\ (exists ed, In ed (g_edges (graph rpg)) /\ e_attributes ed = e /\ e_target ed = b)
      /\ match t with Some ty => edge_type e = ty | None => True end.
Proof.
  unfold RPG.getInEdges, RPG.hasNode, Graphology.mapInEdges.
  destruct (Graphology.hasNode (graph rpg) b); cbn [negb].
  - rewrite In_ofType, in_map_iff. split.
    + intros [(ed & <- & [Hin Hsrc]%In_inEdges) Ht]. eauto 8.
    + intros (_ & (ed & Hin & <- & <-) & Ht). split; [|exact Ht].
      exists ed. split; [reflexivity|]. apply In_inEdges. auto.
  - split; [intros [] | intros [? _]; discriminate].
Qed.

Lemma In_getEdges (rpg : RepositoryPlanningGraph) (e : Edge) :
  In e (RPG.getEdges rpg) <-> exists ed, In ed (g_edges (graph rpg)) /\ e_attributes ed = e.
Proof.
  unfold RPG.getEdges, Graphology.mapEdges. rewrite in_map_iff.
  split; intros (ed & H1 & H2); exists ed; auto.
Qed.

(** ** graph/rpg.ts: topological order, the statements *)

Lemma getTopologicalOrder_permutation (rpg : RepositoryPlanningGraph) (order : list Node) :
  NoDup (map fst (g_nodes (graph rpg))) -> keyed (graph rpg) ->
  TopologicalOrder.getTopologicalOrder rpg = Some order ->
  Permutation order (RPG.getNodes rpg).
Proof.
  intros Hnd Hkeyed. unfold TopologicalOrder.getTopologicalOrder.
  destruct (TopologicalOrder.visitAll _ rpg) as [st|] eqn:Hrun; [|discriminate].
  intros [= <-].
  destruct (visitAll_sound rpg _ st (fun k n => keyed_getNode rpg k n Hkeyed) Hrun)
    as ([Honce Hstored _] & Hall & Hfin).
  rewrite <- Permutation_rev.
  assert (Hids : NoDup (map node_id (RPG.getNodes rpg))).
  { rewrite getNodes_snd, keyed_ids by exact Hkeyed. exact Hnd. }
  apply NoDup_Permutation.
  - eapply NoDup_fmap_1. exact Honce.
  - eapply NoDup_fmap_1. exact Hids.
  - intros n. rewrite !list_elem_of_In. split.
    + intros Hn. destruct (Hstored n Hn) as [Hget _]. apply getNode_In in Hget.
      rewrite getNodes_snd. apply in_map_iff. exists (node_id n, n). auto.
    + intros Hn. pose proof (Hall n Hn) as Hvis. apply (Hfin _ Hvis).
      rewrite getNodes_snd in Hn. apply in_map_iff in Hn as ([k m] & <- & Hin).
      unfold keyed in Hkeyed. rewrite List.Forall_forall in Hkeyed.
      rewrite (Hkeyed _ Hin). apply In_getNode; assumption.
Qed.

Lemma getTopologicalOrder_returns (rpg : RepositoryPlanningGraph) :
  exists order, TopologicalOrder.getTopologicalOrder rpg = Some order.
Proof.
  unfold TopologicalOrder.getTopologicalOrder.
  destruct (visitAll_returns rpg) as [st ->]. eauto.
Qed.

(** X1: [getTopologicalOrder()] always returns, also on graphs with
    dependency cycles, and in a graph whose nodes are stored under their own
    ids it lists every node exactly once. *)
Theorem topological_order_lists_every_node (rpg : RepositoryPlanningGraph) :
  (exists order, TopologicalOrder.getTopologicalOrder rpg = Some order)
  /\ (RPG.reachable rpg -> keyed (graph rpg) ->
      forall order,
        TopologicalOrder.getTopologicalOrder rpg = Some order ->
        Permutation order (RPG.getNodes rpg)).
Proof.
  split; [apply getTopologicalOrder_returns|].
  intros Hreach Hkeyed order. apply getTopologicalOrder_permutation; [|exact Hkeyed].
    apply reachable_consistent in Hreach. apply Hreach.
Qed.

Lemma layered_reachable : RPG.reachable Imports.layered.
Proof.
  apply (build_reachable Imports.layeredWrites (RPG.create Sample.cfg));
    [constructor | reflexivity].
Qed.

Lemma layered_keyed : keyed (graph Imports.layered).
Proof. repeat constructor. Qed.

Lemma topological_order_lists_witness :
  exists order,
    TopologicalOrder.getTopologicalOrder Imports.layered = Some order
    /\ Permutation order (RPG.getNodes Imports.layered).
Proof.
  destruct (topological_order_lists_every_node Imports.layered) as [[order Horder] Hperm].
  exists order. split; [exact Horder|].
  exact (Hperm layered_reachable layered_keyed order Horder).
Defined.

Lemma dependsOnStar_rank (rpg : RepositoryPlanningGraph) (rank : string -> nat) :
  (forall a b, dependsOn rpg a b -> (rank b < rank a)%nat) ->
  forall a b, dependsOnStar rpg a b -> (rank b <= rank a)%nat.
Proof.
  intros Hrank a b. induction 1 as [|a b c _ IH Hstep]; [lia|].
  specialize (Hrank _ _ Hstep). lia.
Qed.

Lemma acyclic_by_rank (rpg : RepositoryPlanningGraph) (rank : string -> nat) :
  (forall a b, dependsOn rpg a b -> (rank b < rank a)%nat) -> acyclic rpg.
Proof.
  intros Hrank a b Hstar Hback.
  pose proof (dependsOnStar_rank rpg rank Hrank a b Hstar).
  specialize (Hrank _ _ Hback). lia.
Qed.

Lemma layered_acyclic : acyclic Imports.layered.
Proof.
  apply (acyclic_by_rank _ Imports.rank).
  intros a b (e & He & <-). apply In_getOutEdges in He as (_ & (ed & Hin & <- & <-) & _).
  cbn in Hin. destruct Hin as [<-|[<-|[<-|[]]]]; cbn; lia.
Qed.

(** X2: in a graph built through the public operations whose nodes are
    stored under their own ids, when no node depends on itself through a
    chain of dependency edges, [getTopologicalOrder()] lists every node
    before the nodes it depends on. *)
Theorem topological_order_dependents_first (rpg : RepositoryPlanningGraph) :
  RPG.reachable rpg -> keyed (graph rpg) -> acyclic rpg ->
  forall order a b na nb,
    TopologicalOrder.getTopologicalOrder rpg = Some order ->
    dependsOn rpg a b ->
    RPG.getNode rpg a = Some na -> RPG.getNode rpg b = Some nb ->
    precedes order na nb.
Proof.
  intros Hreach Hkeyed Hacyc order a b na nb Horder Hdep Ha Hb.
  pose proof (getTopologicalOrder_permutation rpg order
                (nodes_unique _ (reachable_consistent _ Hreach)) Hkeyed Horder) as Hperm.
  unfold TopologicalOrder.getTopologicalOrder in Horder.
  destruct (TopologicalOrder.visitAll _ rpg) as [st|] eqn:Hrun; [|discriminate].
  injection Horder as <-.
  destruct (visitAll_sound rpg _ st (fun k n => keyed_getNode rpg k n Hkeyed) Hrun)
    as ([_ _ Hordered] & _ & _).
  assert (Hna : In na (topo_result st)).
  { apply in_rev. eapply Permutation_in; [symmetry; exact Hperm|].
    rewrite getNodes_snd. apply in_map_iff. exists (a, na). split; [reflexivity|].
    apply getNode_In. exact Ha. }
  apply in_split in Hna as (l1 & l2 & Hsplit).
  assert (Hnb : In nb l1).
  { apply (Hordered Hacyc l1 na l2 Hsplit b nb); [|exact Hb].
    rewrite (keyed_getNode rpg a na Hkeyed Ha). exact Hdep. }
  apply in_split in Hnb as (l3 & l4 & ->).
  exists (rev l2), (rev l4), (rev l3). rewrite Hsplit.
  rewrite rev_app_distr. cbn [rev]. rewrite rev_app_distr. cbn [rev].
  rewrite <- !app_assoc. reflexivity.
Qed.

Lemma topological_order_dependents_witness :
  exists order,
    TopologicalOrder.getTopologicalOrder Imports.layered = Some order
    /\ precedes order (Sample.fileNode "app" "src/app.ts") (Sample.fileNode "util" "src/util.ts").
Proof.
  destruct (getTopologicalOrder_returns Imports.layered) as [order Horder].
  exists order. split; [exact Horder|].
  apply (topological_order_dependents_first Imports.layered
           layered_reachable layered_keyed layered_acyclic order "app" "util");
    [exact Horder | | reflexivity | reflexivity].
  exists (Imports.uses "app" "util"). split; [|reflexivity].
  cbn. right. left. reflexivity.
Defined.

(** ** graph/rpg.ts: serialization *)

(** The record under which [addEdge] stores an edge. *)
Local Abbreviation recordOf e := (mkEdgeData (RPG.edgeKey e) (source e) (target e) e).

Lemma addNodes_Ok (nodes : list Node) :
  forall rpg,
    NoDup (map node_id nodes) ->
    (forall n, In n nodes -> RPG.hasNode rpg (node_id n) = false) ->
    Serialization.addNodes nodes rpg
    = Ok (RPG.withGraph rpg
            (mkGraph (g_nodes (graph rpg) ++ map (fun n => (node_id n, n)) nodes)
                     (g_edges (graph rpg)))).
Proof.
  induction nodes as [|n nodes IH]; intros rpg Hnd Hfree; cbn [Serialization.addNodes map].
  - rewrite app_nil_r. destruct rpg as [[ns es] c]. reflexivity.
  - apply NoDup_cons in Hnd as [Hout Hnd].
    unfold RPG.addNode. pose proof (Hfree n (or_introl eq_refl)) as Hn.
    unfold RPG.hasNode in Hn. rewrite Hn. rewrite IH.
    + unfold RPG.withGraph, Graphology.addNode. cbn. rewrite <- app_assoc. reflexivity.
    + exact Hnd.
    + intros m Hm. unfold RPG.hasNode, RPG.withGraph. cbn [graph].
      rewrite hasNode_addNode. fold (RPG.hasNode rpg (node_id m)).
      rewrite (Hfree m (or_intror Hm)). cbn.
      apply String.eqb_neq. intros Heq. apply Hout. rewrite <- Heq.
      apply list_elem_of_In. apply in_map. exact Hm.
Qed.

Lemma addNodes_inv (nodes : list Node) :
  forall rpg rpg',
    Serialization.addNodes nodes rpg = Ok rpg' ->
    NoDup (map node_id nodes)
    /\ forall n, In n nodes -> RPG.hasNode rpg (node_id n) = false.
Proof.
  induction nodes as [|n nodes IH]; intros rpg rpg'; cbn [Serialization.addNodes map].
  - intros _. split; [constructor | intros ? []].
  - unfold RPG.addNode.
    destruct (Graphology.hasNode (graph rpg) (node_id n)) eqn:Hn; [discriminate|].
    intros Hrest. apply IH in Hrest as [Hnd Hfree].
    assert (Hlater : forall m, In m nodes ->
                       RPG.hasNode rpg (node_id m) = false /\ node_id m <> node_id n).
    { intros m Hm. specialize (Hfree m Hm).
      unfold RPG.hasNode, RPG.withGraph in Hfree. cbn [graph] in Hfree.
      rewrite hasNode_addNode in Hfree. apply orb_false_iff in Hfree as [H1 H2].
      split; [exact H1 | apply String.eqb_neq; exact H2]. }
    split.
    + apply NoDup_cons. split; [|exact Hnd].
      intros Hin%list_elem_of_In. apply in_map_iff in Hin as (m & Hid & Hm).
      destruct (Hlater m Hm) as [_ Hne]. contradiction.
    + intros m [<-|Hm]; [exact Hn | apply Hlater; exact Hm].
Qed.

Lemma hasEdge_app (g : Graph) (eds : list EdgeData) (key : string) :
  Graphology.hasEdge (mkGraph (g_nodes g) (g_edges g ++ eds)) key
  = Graphology.hasEdge g key || existsb (fun e => String.eqb key (e_key e)) eds.
Proof. unfold Graphology.hasEdge. cbn. apply existsb_app. Qed.

Lemma addEdges_Ok (edges : list Edge) :
  forall rpg,
    NoDup (map RPG.edgeKey edges) ->
    (forall e, In e edges ->
       RPG.hasNode rpg (source e) = true /\ RPG.hasNode rpg (target e) = true
       /\ Graphology.hasEdge (graph rpg) (RPG.edgeKey e) = false) ->
    Serialization.addEdges edges rpg
    = Ok (RPG.withGraph rpg
            (mkGraph (g_nodes (graph rpg))
                     (g_edges (graph rpg) ++ map (fun e => recordOf e) edges))).
Proof.
  induction edges as [|e edges IH]; intros rpg Hnd Hfree; cbn [Serialization.addEdges map].
  - rewrite app_nil_r. destruct rpg as [[ns es] c]. reflexivity.
  - apply NoDup_cons in Hnd as [Hout Hnd].
    destruct (Hfree e (or_introl eq_refl)) as (Hs & Ht & Hk).
    rewrite (addEdge_accepts rpg e Hs Ht Hk). rewrite IH.
    + unfold RPG.withGraph. cbn. rewrite <- app_assoc. reflexivity.
    + exact Hnd.
    + intros e' He'. destruct (Hfree e' (or_intror He')) as (Hs' & Ht' & Hk').
      unfold RPG.hasNode, RPG.withGraph in *. cbn [graph].
      split; [exact Hs'|]. split; [exact Ht'|].
      rewrite hasEdge_app, Hk'. cbn. rewrite orb_false_r.
      apply String.eqb_neq. intros Heq. apply Hout. rewrite <- Heq.
      apply list_elem_of_In. apply in_map. exact He'.
Qed.

Lemma addEdges_inv (edges : list Edge) :
  forall rpg rpg',
    Serialization.addEdges edges rpg = Ok rpg' ->
    NoDup (map RPG.edgeKey edges)
    /\ forall e, In e edges ->
         RPG.hasNode rpg (source e) = true /\ RPG.hasNode rpg (target e) = true
         /\ Graphology.hasEdge (graph rpg) (RPG.edgeKey e) = false.
Proof.
  induction edges as [|e edges IH]; intros rpg rpg'; cbn [Serialization.addEdges map].
  - intros _. split; [constructor | intros ? []].
  - destruct (RPG.addEdge rpg e) as [rpg1|] eqn:He; [|discriminate].
    apply addEdge_Ok in He as (Hs & Ht & Hk & ->).
    intros Hrest. apply IH in Hrest as [Hnd Hfree].
    assert (Hlater : forall e', In e' edges ->
              (RPG.hasNode rpg (source e') = true /\ RPG.hasNode rpg (target e') = true
               /\ Graphology.hasEdge (graph rpg) (RPG.edgeKey e') = false)
              /\ RPG.edgeKey e' <> RPG.edgeKey e).
    { intros e' He'. destruct (Hfree e' He') as (Hs' & Ht' & Hk').
      unfold RPG.hasNode, RPG.withGraph in *. cbn [graph] in *.
      rewrite hasEdge_app in Hk'. apply orb_false_iff in Hk' as [Hk1 Hk2].
      cbn in Hk2. rewrite orb_false_r in Hk2.
      split; [auto | apply String.eqb_neq; exact Hk2]. }
    split.
    + apply NoDup_cons. split; [|exact Hnd].
      intros Hin%list_elem_of_In. apply in_map_iff in Hin as (e' & Hid & He').
      destruct (Hlater e' He') as [_ Hne]. contradiction.
    + intros e' [<-|He']; [auto | apply Hlater; exact He'].
Qed.

Lemma map_snd_keyed (ids : list Node) :
  map snd (map (fun n => (node_id n, n)) ids) = ids.
Proof. rewrite map_map. cbn. apply map_id. Qed.

Lemma map_attributes_record (edges : list Edge) :
  map e_attributes (map (fun e => recordOf e) edges) = edges.
Proof. rewrite map_map. cbn. apply map_id. Qed.

Lemma deserialize_reads_back (data : SerializedRPG) (rpg : RepositoryPlanningGraph) :
  Serialization.deserialize data = Ok rpg ->
  RPG.getNodes rpg = ser_nodes data /\ RPG.getEdges rpg = ser_edges data
  /\ config rpg = ser_config data.
Proof.
  unfold Serialization.deserialize.
  destruct (Serialization.addNodes _ _) as [rpg1|] eqn:Hnodes; [|discriminate].
  pose proof (addNodes_inv _ _ _ Hnodes) as [Hnd _].
  rewrite (addNodes_Ok _ _ Hnd) in Hnodes by (intros; reflexivity).
  injection Hnodes as <-. intros Hrun.
  pose proof (addEdges_inv _ _ _ Hrun) as [Hkeys Hends].
  rewrite (addEdges_Ok _ _ Hkeys Hends) in Hrun. injection Hrun as <-.
  unfold RPG.getNodes, RPG.getEdges, Graphology.mapNodes, Graphology.mapEdges. cbn.
  rewrite !map_map. cbn. rewrite !map_id. auto.
Qed.

(** X3: [deserialize] accepts exactly the data whose node ids are distinct,
    whose edges run between listed nodes and whose edge keys
    [source->target:type] are distinct; the graph it builds gives the
    nodes, the edges and the configuration back in the order of the
    data. *)
Theorem deserialize_accepts_well_formed_data (data : SerializedRPG) :
  (NoDup (map node_id (ser_nodes data))
   /\ NoDup (map RPG.edgeKey (ser_edges data))
   /\ (forall e, In e (ser_edges data) ->
         In (source e) (map node_id (ser_nodes data))
         /\ In (target e) (map node_id (ser_nodes data))))
  <-> exists rpg,
        Serialization.deserialize data = Ok rpg
        /\ RPG.getNodes rpg = ser_nodes data /\ RPG.getEdges rpg = ser_edges data
        /\ config rpg = ser_config data.
Proof.
  assert (H : NoDup (map node_id (ser_nodes data))
              /\ NoDup (map RPG.edgeKey (ser_edges data))
              /\ (forall e, In e (ser_edges data) ->
                    In (source e) (map node_id (ser_nodes data))
                    /\ In (target e) (map node_id (ser_nodes data)))
              <-> exists rpg, Serialization.deserialize data = Ok rpg);
    [|rewrite H; split;
      [intros [rpg Hrpg]; exists rpg; split;
         [exact Hrpg | apply deserialize_reads_back; exact Hrpg]
      |intros (rpg & Hrpg & _); exists rpg; exact Hrpg]].
  unfold Serialization.deserialize. split.
  - intros (Hnodes & Hkeys & Hends).
    rewrite (addNodes_Ok _ _ Hnodes) by (intros; reflexivity).
    cbn [RPG.create graph Graphology.empty g_nodes g_edges app RPG.withGraph].
    rewrite addEdges_Ok; [eauto|exact Hkeys|].
    intros e He. destruct (Hends e He) as [Hs Ht].
    unfold RPG.hasNode. rewrite !hasNode_In. cbn [graph RPG.withGraph g_nodes].
    rewrite map_map. cbn [fst]. auto.
  - intros [rpg Hrun].
    destruct (Serialization.addNodes _ _) as [rpg1|] eqn:Hnodes; [|discriminate].
    pose proof (addNodes_inv _ _ _ Hnodes) as [Hnd _].
    rewrite (addNodes_Ok _ _ Hnd) in Hnodes by (intros; reflexivity).
    injection Hnodes as <-.
    apply addEdges_inv in Hrun as [Hkeys Hends].
    split; [exact Hnd|]. split; [exact Hkeys|].
    intros e He. destruct (Hends e He) as (Hs & Ht & _).
    unfold RPG.hasNode in Hs, Ht. cbn [graph RPG.withGraph RPG.create] in Hs, Ht.
    rewrite hasNode_In in Hs, Ht. cbn [g_nodes Graphology.empty app] in Hs, Ht.
    rewrite map_map in Hs, Ht. auto.
Qed.


Lemma deserialize_accepts_witness :
  exists rpg,
    Serialization.deserialize
      (mkSerializedRPG "1.0.0" Sample.cfg
         [Sample.highLevel "root"; Sample.fileNode "func" "/test.ts"]
         [Sample.child "root" "func"]) = Ok rpg
    /\ RPG.getNodes rpg = [Sample.highLevel "root"; Sample.fileNode "func" "/test.ts"].
Proof.
  destruct (proj1 (deserialize_accepts_well_formed_data
                     (mkSerializedRPG "1.0.0" Sample.cfg
                        [Sample.highLevel "root"; Sample.fileNode "func" "/test.ts"]
                        [Sample.child "root" "func"])))
    as (rpg & Hrun & Hnodes & _).
  - cbn. split; [|split].
    + apply NoDup_cons. split; [|apply NoDup_singleton].
      intros H. apply list_elem_of_In in H. destruct H as [H|[]]. discriminate.
    + apply NoDup_singleton.
    + intros e [<-|[]]. cbn. auto.
  - exists rpg. split; [exact Hrun | exact Hnodes].
Defined.

Lemma keyed_rebuild (ns : list (string * Node)) :
  Forall (fun kn => node_id (snd kn) = fst kn) ns ->
  map (fun n => (node_id n, n)) (map snd ns) = ns.
Proof.
  induction 1 as [|[k n] l Hkn _ IH]; cbn; [reflexivity|].
  cbn in Hkn. rewrite Hkn, IH. reflexivity.
Qed.

Lemma recorded_rebuild (es : list EdgeData) :
  Forall edgeRecorded es -> map (fun e => recordOf e) (map e_attributes es) = es.
Proof.
  induction 1 as [|[k s t e] l (Hk & Hs & Ht) _ IH]; cbn; [reflexivity|].
  cbn in Hk, Hs, Ht. rewrite <- Hk, <- Hs, <- Ht, IH. reflexivity.
Qed.

Lemma recorded_keys (es : list EdgeData) :
  Forall edgeRecorded es -> map RPG.edgeKey (map e_attributes es) = map e_key es.
Proof.
  induction 1 as [|ed l (Hk & _) _ IH]; cbn; [reflexivity|]. rewrite <- Hk, IH. reflexivity.
Qed.

(** X4: on a graph built through the public operations whose nodes are
    stored under their own ids, [deserialize(serialize())] gives the graph
    back: same nodes and edges in the same order, same configuration. *)
Theorem serialize_deserialize_round_trip (rpg : RepositoryPlanningGraph) :
  RPG.reachable rpg -> keyed (graph rpg) ->
  Serialization.deserialize (Serialization.serialize rpg) = Ok rpg.
Proof.
  intros [Hnodes Hkeys Hrec Hanch]%reachable_consistent Hkeyed.
  destruct rpg as [[ns es] c]. cbn [graph g_nodes g_edges] in *.
  unfold Serialization.deserialize, Serialization.serialize, RPG.getNodes, RPG.getEdges,
    Graphology.mapNodes, Graphology.mapEdges.
  cbn [ser_nodes ser_edges ser_config graph g_nodes g_edges].
  change (map (fun kn : string * Node => snd kn) ns) with (map snd ns).
  change (map (fun e : EdgeData => e_attributes e) es) with (map e_attributes es).
  pose proof (keyed_ids (mkGraph ns es) Hkeyed) as Hids. cbn [g_nodes] in Hids.
  rewrite addNodes_Ok; [|rewrite Hids; exact Hnodes|intros; reflexivity].
  cbn [RPG.create RPG.withGraph graph Graphology.empty g_nodes g_edges app config].
  rewrite (keyed_rebuild ns Hkeyed).
  rewrite addEdges_Ok.
  - cbn [RPG.withGraph graph g_nodes g_edges app config].
    rewrite (recorded_rebuild es Hrec). reflexivity.
  - rewrite (recorded_keys es Hrec). exact Hkeys.
  - intros e He. apply in_map_iff in He as (ed & <- & Hed).
    rewrite List.Forall_forall in Hrec, Hanch.
    destruct (Hrec ed Hed) as (_ & Hs & Ht). destruct (Hanch ed Hed) as [Hsn Htn].
    unfold RPG.hasNode. cbn [graph]. rewrite <- Hs, <- Ht.
    split; [exact Hsn|]. split; [exact Htn | reflexivity].
Qed.

Lemma serialize_deserialize_witness :
  Serialization.deserialize (Serialization.serialize Sample.tangled) = Ok Sample.tangled.
Proof.
  apply serialize_deserialize_round_trip; [exact tangled_reachable | repeat constructor].
Defined.

(** ** graph/rpg.ts: statistics *)

Lemma filter_split_length {A} (p q : A -> bool) (l : list A) :
  (forall x, q x = negb (p x)) ->
  length l = (length (List.filter p l) + length (List.filter q l))%nat.
Proof.
  intros Hq. induction l as [|x l IH]; cbn; [reflexivity|].
  rewrite (Hq x). destruct (p x); cbn; lia.
Qed.

(** X5: the counts of [getStats()] add up: every node is counted as
    high-level or as low-level, every edge as functional or as dependency,
    and the totals are the lengths of [getNodes()] and [getEdges()]. *)
Theorem stats_counts_add_up (rpg : RepositoryPlanningGraph) :
  nodeCount (getStats rpg)
  = (highLevelNodeCount (getStats rpg) + lowLevelNodeCount (getStats rpg))%nat
  /\ edgeCount (getStats rpg)
     = (functionalEdgeCount (getStats rpg) + dependencyEdgeCount (getStats rpg))%nat
  /\ nodeCount (getStats rpg) = length (RPG.getNodes rpg)
  /\ edgeCount (getStats rpg) = length (RPG.getEdges rpg).
Proof.
  assert (Hn : nodeCount (getStats rpg) = length (RPG.getNodes rpg)).
  { cbn. unfold RPG.getNodes, Graphology.mapNodes. rewrite length_map. reflexivity. }
  assert (He : edgeCount (getStats rpg) = length (RPG.getEdges rpg)).
  { cbn. unfold RPG.getEdges, Graphology.mapEdges. rewrite length_map. reflexivity. }
  split; [|split; [|split; assumption]].
  - rewrite Hn. cbn. apply filter_split_length. apply isLowLevel_not_high.
  - rewrite He. cbn. apply filter_split_length. intros e. destruct e; reflexivity.
Qed.

(** ** graph/rpg.ts: removing a node *)

Lemma mapGet_filter_other {V} (id k : string) (l : list (string * V)) :
  k <> id ->
  Js.mapGet k (List.filter (fun kn => negb (String.eqb id (fst kn))) l) = Js.mapGet k l.
Proof.
  intros Hne. induction l as [|[k' v] l IH]; cbn; [reflexivity|].
  destruct (String.eqb_spec id k') as [<-|Hk']; cbn.
  - destruct (String.eqb_spec k id); [contradiction | exact IH].
  - rewrite IH. reflexivity.
Qed.

Lemma filter_all {A} (p : A -> bool) (l : list A) :
  (forall x, In x l -> p x = true) -> List.filter p l = l.
Proof.
  induction l as [|x l IH]; intros Hall; cbn; [reflexivity|].
  rewrite (Hall x (or_introl eq_refl)), IH; [reflexivity|]. intros y Hy. apply Hall. right. exact Hy.
Qed.

(** X6: [removeNode(id)] takes away the node and exactly the edges that
    start or end at it; every other node and edge stays, in order. *)
Theorem removeNode_drops_incident_edges
    (rpg : RepositoryPlanningGraph) (id : string) (rpg' : RepositoryPlanningGraph) :
  RPG.reachable rpg -> RPG.removeNode rpg id = Ok rpg' ->
  RPG.hasNode rpg' id = false
  /\ (forall k, k <> id -> RPG.getNode rpg' k = RPG.getNode rpg k)
  /\ RPG.getEdges rpg'
     = List.filter (fun e => negb (String.eqb id (source e)) && negb (String.eqb id (target e)))
                   (RPG.getEdges rpg).
Proof.
  intros [_ _ Hrec _]%reachable_consistent. unfold RPG.removeNode.
  destruct (Graphology.hasNode (graph rpg) id) eqn:Hhas; [|discriminate].
  intros [= <-]. split; [|split].
  - unfold RPG.hasNode, RPG.withGraph. cbn [graph]. rewrite hasNode_dropNode.
    rewrite String.eqb_refl. apply andb_false_r.
  - intros k Hk. rewrite !getNode_mapGet. cbn. apply mapGet_filter_other. exact Hk.
  - unfold RPG.getEdges, Graphology.mapEdges. cbn [graph RPG.withGraph Graphology.dropNode g_edges].
    rewrite filter_map_comm. f_equal. apply filter_ext_in.
    intros ed Hed. rewrite List.Forall_forall in Hrec.
    destruct (Hrec ed Hed) as (_ & -> & ->). reflexivity.
Qed.

Lemma removeNode_drops_witness :
  exists rpg',
    RPG.removeNode Sample.tangled "c" = Ok rpg'
    /\ RPG.getEdges rpg' = [Sample.child "a" "b"; Sample.child "b" "a"].
Proof.
  eexists. split; [reflexivity|].
  destruct (removeNode_drops_incident_edges Sample.tangled "c" _ tangled_reachable eq_refl)
    as (_ & _ & ->).
  reflexivity.
Defined.

(** X7: removing a node right after adding it gives back the graph as it
    was. *)
Theorem removeNode_undoes_addNode
    (rpg : RepositoryPlanningGraph) (n : Node) (rpg1 : RepositoryPlanningGraph) :
  RPG.reachable rpg -> RPG.addNode rpg n = Ok rpg1 ->
  RPG.removeNode rpg1 (node_id n) = Ok rpg.
Proof.
  intros [_ _ _ Hanch]%reachable_consistent. unfold RPG.addNode.
  destruct (Graphology.hasNode (graph rpg) (node_id n)) eqn:Hhas; [discriminate|].
  intros [= <-]. unfold RPG.removeNode, RPG.withGraph. cbn [graph config].
  rewrite hasNode_addNode, String.eqb_refl, orb_true_r. cbn [negb].
  destruct rpg as [[ns es] c]. cbn [graph config g_nodes g_edges] in *.
  unfold Graphology.dropNode, Graphology.addNode. cbn [g_nodes g_edges].
  rewrite List.filter_app. cbn [List.filter fst]. rewrite String.eqb_refl. cbn [negb].
  rewrite app_nil_r. rewrite !filter_all; [reflexivity| |].
  - intros ed Hed. rewrite List.Forall_forall in Hanch. destruct (Hanch ed Hed) as [Hs Ht].
    destruct (String.eqb_spec (node_id n) (e_source ed)) as [Heq|_]; [congruence|].
    destruct (String.eqb_spec (node_id n) (e_target ed)) as [Heq|_]; [congruence|].
    reflexivity.
  - intros [k m] Hkm. cbn. destruct (String.eqb_spec (node_id n) k) as [<-|_]; [|reflexivity].
    exfalso. unfold Graphology.hasNode in Hhas. apply mapHas_false_In in Hhas. apply Hhas.
    apply in_map_iff. exists (node_id n, m). auto.
Qed.

Lemma removeNode_undoes_witness :
  exists rpg1,
    RPG.addNode Sample.tangled (Sample.highLevel "d") = Ok rpg1
    /\ RPG.removeNode rpg1 "d" = Ok Sample.tangled.
Proof.
  eexists. split; [reflexivity|].
  apply (removeNode_undoes_addNode Sample.tangled (Sample.highLevel "d"));
    [exact tangled_reachable | reflexivity].
Defined.

(** ** graph/rpg.ts: edges and their endpoints *)

(** The order of the adjacency at work.  In [twoParents] the functional
    edge from [a] is the head of the chain under the oldest property of
    [c], so [a] is the parent of [c] although [b] became a parent
    earlier.  In [numbered] the neighbours [9] and [10] are array indices
    and come first, in numeric order; [x] and [07] follow in the order of
    their first edge, the newer edge to [x] before the older one. *)
Example getParent_follows_adjacency :
  Sample.build Parallel.twoParentsWrites (RPG.create Sample.cfg) = Ok Parallel.twoParents
  /\ RPG.getInEdges Parallel.twoParents "c" None
     = [Sample.child "a" "c"; Imports.uses "a" "c"; Sample.child "b" "c"]
  /\ option_map node_id (RPG.getParent Parallel.twoParents "c") = Some "a".
Proof. repeat split. Qed.

Example getOutEdges_follows_adjacency :
  Sample.build Parallel.numberedWrites (RPG.create Sample.cfg) = Ok Parallel.numbered
  /\ RPG.getOutEdges Parallel.numbered "r" None
     = [Sample.child "r" "9"; Sample.child "r" "10"; Imports.uses "r" "x";
        Sample.child "r" "x"; Sample.child "r" "07"]
  /\ map node_id (RPG.getChildren Parallel.numbered "r") = ["9"; "10"; "x"; "07"].
Proof. repeat split. Qed.

(** X8: a stored edge is listed among the outgoing edges of its source and
    among the incoming edges of its target, with or without the type
    filter, and nothing else is listed there. *)
Theorem stored_edge_seen_from_both_ends (rpg : RepositoryPlanningGraph) :
  RPG.reachable rpg ->
  forall a t e,
    (In e (RPG.getOutEdges rpg a t)
     <-> In e (RPG.getEdges rpg) /\ source e = a
         /\ match t with Some ty => edge_type e = ty | None => True end)
    /\ (In e (RPG.getInEdges rpg a t)
        <-> In e (RPG.getEdges rpg) /\ target e = a
            /\ match t with Some ty => edge_type e = ty | None => True end).
Proof.
  intros [_ _ Hrec Hanch]%reachable_consistent a t e.
  rewrite List.Forall_forall in Hrec, Hanch.
  rewrite In_getOutEdges, In_getInEdges, In_getEdges. unfold RPG.hasNode. split; split.
  - intros (_ & (ed & Hed & <- & <-) & Ht). destruct (Hrec ed Hed) as (_ & Hs & _).
    split; [eauto|]. split; [congruence | exact Ht].
  - intros ((ed & Hed & <-) & <- & Ht). destruct (Hrec ed Hed) as (_ & Hs & _).
    destruct (Hanch ed Hed) as [Hsn _]. rewrite <- Hs. split; [exact Hsn|]. split; [eauto | exact Ht].
  - intros (_ & (ed & Hed & <- & <-) & Ht). destruct (Hrec ed Hed) as (_ & _ & Htg).
    split; [eauto|]. split; [congruence | exact Ht].
  - intros ((ed & Hed & <-) & <- & Ht). destruct (Hrec ed Hed) as (_ & _ & Htg).
    destruct (Hanch ed Hed) as [_ Htn]. rewrite <- Htg. split; [exact Htn|]. split; [eauto | exact Ht].
Qed.

Lemma stored_edge_witness :
  In (Sample.child "a" "c") (RPG.getOutEdges Sample.tangled "a" (Some Functional))
  /\ In (Sample.child "a" "c") (RPG.getInEdges Sample.tangled "c" None).
Proof.
  split.
  - apply (stored_edge_seen_from_both_ends Sample.tangled tangled_reachable).
    cbn. auto.
  - apply (stored_edge_seen_from_both_ends Sample.tangled tangled_reachable).
    cbn. auto.
Defined.

Lemma In_nodesAt (rpg : RepositoryPlanningGraph) (pick : Edge -> string) (edges : list Edge)
    (n : Node) :
  In n (RPG.nodesAt rpg pick edges)
  <-> exists e, In e edges /\ RPG.getNode rpg (pick e) = Some n.
Proof.
  unfold RPG.nodesAt. rewrite <- list_elem_of_In, list_elem_of_omap.
  split; intros (e & He & Hn); exists e; [rewrite <- list_elem_of_In|rewrite list_elem_of_In];
    auto.
Qed.

Lemma hasNode_getNode (rpg : RepositoryPlanningGraph) (id : string) :
  RPG.hasNode rpg id = true -> exists n, RPG.getNode rpg id = Some n.
Proof.
  unfold RPG.hasNode, RPG.getNode, Graphology.hasNode, Graphology.getNodeAttributes.
  intros H. rewrite H. cbn. apply mapGet_Some_has. exact H.
Qed.

(** X9: in a graph whose nodes are stored under their own ids, the parent
    reported for a node lists that node among its children, and every
    child has a parent. *)
Theorem parent_and_children_agree (rpg : RepositoryPlanningGraph) :
  RPG.reachable rpg -> keyed (graph rpg) ->
  (forall c p, RPG.getParent rpg c = Some p ->
     exists n, RPG.getNode rpg c = Some n /\ In n (RPG.getChildren rpg (node_id p)))
  /\ (forall p n, In n (RPG.getChildren rpg p) ->
        exists q, RPG.getParent rpg (node_id n) = Some q).
Proof.
  intros Hreach Hkeyed.
  pose proof (reachable_consistent _ Hreach) as [_ _ Hrec Hanch].
  rewrite List.Forall_forall in Hrec, Hanch. split.
  - intros c p. unfold RPG.getParent.
    destruct (RPG.getInEdges rpg c (Some Functional)) as [|e rest] eqn:Hin; [discriminate|].
    intros Hp. assert (He : In e (RPG.getInEdges rpg c (Some Functional)))
      by (rewrite Hin; left; reflexivity).
    apply In_getInEdges in He as (Hc & (ed & Hed & <- & <-) & Hty).
    destruct (hasNode_getNode _ _ Hc) as [n Hn]. exists n. split; [exact Hn|].
    rewrite (keyed_getNode _ _ _ Hkeyed Hp).
    apply In_nodesAt. exists (e_attributes ed). destruct (Hrec ed Hed) as (_ & Hs & Ht).
    split; [|rewrite <- Ht; exact Hn].
    apply In_getOutEdges. split; [|split; [eauto|exact Hty]].
    apply getNode_hasNode in Hp. exact Hp.
  - intros p n (e & He & Hn)%In_nodesAt.
    apply In_getOutEdges in He as (_ & (ed & Hed & <- & <-) & Hty).
    destruct (Hrec ed Hed) as (_ & Hs & Ht). destruct (Hanch ed Hed) as [Hsn Htn].
    rewrite (keyed_getNode _ _ _ Hkeyed Hn). unfold RPG.getParent.
    destruct (RPG.getInEdges rpg (target (e_attributes ed)) (Some Functional))
      as [|first rest] eqn:Hin.
    + assert (Hmem : In (e_attributes ed)
                       (RPG.getInEdges rpg (target (e_attributes ed)) (Some Functional))).
      { apply In_getInEdges. unfold RPG.hasNode. rewrite <- Ht. split; [exact Htn|].
        split; [eauto | exact Hty]. }
      rewrite Hin in Hmem. destruct Hmem.
    + assert (Hfirst : In first (RPG.getInEdges rpg (target (e_attributes ed)) (Some Functional)))
        by (rewrite Hin; left; reflexivity).
      apply In_getInEdges in Hfirst as (_ & (ed' & Hed' & <- & _) & _).
      destruct (Hrec ed' Hed') as (_ & Hs' & _). destruct (Hanch ed' Hed') as [Hsn' _].
      rewrite <- Hs'. apply hasNode_getNode. exact Hsn'.
Qed.

Lemma parent_and_children_witness :
  exists n, RPG.getNode Scenario.crossCutting "src/utils/helper.ts:file" = Some n
            /\ In n (RPG.getChildren Scenario.crossCutting "domain:CrossCutting").
Proof.
  assert (Hreach : RPG.reachable Scenario.crossCutting).
  { apply (build_reachable Scenario.crossCuttingWrites (RPG.create Sample.cfg));
      [constructor | reflexivity]. }
  destruct (parent_and_children_agree Scenario.crossCutting Hreach ltac:(repeat constructor))
    as [Hparent _].
  apply (Hparent "src/utils/helper.ts:file" (Sample.highLevel "domain:CrossCutting")).
  reflexivity.
Defined.

(** ** graph/rpg.ts: updates and keys *)

(** X10: [updateNode] never moves a node to another key: [hasNode] answers
    as before for every id, also when the update carries an [id]; the node
    then stays under its old key and reports the new id. *)
Theorem updateNode_never_rekeys
    (rpg : RepositoryPlanningGraph) (id : string) (updates : NodeUpdates)
    (rpg' : RepositoryPlanningGraph) :
  RPG.updateNode rpg id updates = Ok rpg' ->
  (forall k, RPG.hasNode rpg' k = RPG.hasNode rpg k)
  /\ map fst (g_nodes (graph rpg')) = map fst (g_nodes (graph rpg))
  /\ forall new, u_id updates = Some new ->
       option_map node_id (RPG.getNode rpg' id) = Some new.
Proof.
  unfold RPG.updateNode.
  destruct (Graphology.hasNode (graph rpg) id) eqn:Hhas; [|discriminate].
  intros [= <-]. split; [|split].
  - intros k. unfold RPG.hasNode, RPG.withGraph. cbn [graph]. apply hasNode_merge.
  - cbn. apply map_fst_merge.
  - intros new Hnew. rewrite getNode_updateNode_same.
    destruct (hasNode_getNode rpg id Hhas) as [n ->]. cbn.
    unfold Graphology.assign. cbn. rewrite Hnew. reflexivity.
Qed.

Lemma updateNode_never_rekeys_witness :
  exists rpg',
    RPG.updateNode Sample.withLogin "login" (mkUpdates (Some "signin") None None None None None)
    = Ok rpg'
    /\ RPG.hasNode rpg' "signin" = false
    /\ option_map node_id (RPG.getNode rpg' "login") = Some "signin".
Proof.
  eexists. split; [reflexivity|].
  destruct (updateNode_never_rekeys Sample.withLogin "login"
              (mkUpdates (Some "signin") None None None None None) _ eq_refl)
    as (Hhas & _ & Hid).
  split; [rewrite Hhas; reflexivity | apply Hid; reflexivity].
Defined.

(** ** tools/fetch.ts *)

Lemma climb_lineage (rpg : RepositoryPlanningGraph) (node : Node) (l : list Node) :
  lineage rpg node l ->
  forall fuel acc,
    (length l <= fuel)%nat ->
    FetchNode.climb fuel rpg (Some node) acc
    = Some (map (fun n => description (feature n)) l ++ acc).
Proof.
  induction 1 as [node Htop|node parent l Hup _ IH]; intros fuel acc Hfuel.
  - destruct fuel as [|fuel]; [cbn in Hfuel; lia|]. cbn. rewrite Htop.
    destruct fuel; reflexivity.
  - rewrite length_app in Hfuel. cbn in Hfuel.
    destruct fuel as [|fuel]; [lia|]. cbn [FetchNode.climb]. rewrite Hup.
    rewrite IH by lia. rewrite map_app, <- app_assoc. reflexivity.
Qed.

(** X11: when the chain of parents of a node ends, [getFeaturePaths]
    returns one string: the descriptions of the node and its ancestors,
    from the topmost ancestor down, joined by [" / "]. *)
Theorem getFeaturePaths_joins_lineage
    (rpg : RepositoryPlanningGraph) (id : string) (node : Node) (l : list Node) (fuel : nat) :
  RPG.getNode rpg id = Some node -> lineage rpg node l -> (length l <= fuel)%nat ->
  FetchNode.getFeaturePaths fuel rpg id
  = Some [Js.join " / " (map (fun n => description (feature n)) l)].
Proof.
  intros Hnode Hl Hfuel. unfold FetchNode.getFeaturePaths. rewrite Hnode.
  rewrite (climb_lineage rpg node l Hl fuel [] Hfuel), app_nil_r. reflexivity.
Qed.

Lemma getFeaturePaths_witness :
  FetchNode.getFeaturePaths 2 Parallel.twoParents "c" = Some ["a / c"]
  /\ Sample.build Parallel.twoParentsWrites (RPG.create Sample.cfg) = Ok Parallel.twoParents.
Proof.
  split; [|reflexivity].
  apply (getFeaturePaths_joins_lineage Parallel.twoParents "c" (Sample.highLevel "c")
           [Sample.highLevel "a"; Sample.highLevel "c"]).
  - reflexivity.
  - apply (lineage_up _ _ (Sample.highLevel "a") [_]); [reflexivity|].
    apply lineage_top. reflexivity.
  - cbn. lia.
Defined.

Lemma climb_endless (rpg : RepositoryPlanningGraph) (P : Node -> Prop) :
  (forall n, P n -> exists p, RPG.getParent rpg (node_id n) = Some p /\ P p) ->
  forall fuel node acc, P node -> FetchNode.climb fuel rpg (Some node) acc = None.
Proof.
  intros Hclosed. induction fuel as [|fuel IH]; intros node acc Hnode; [reflexivity|].
  cbn [FetchNode.climb]. destruct (Hclosed node Hnode) as (p & -> & Hp). apply IH. exact Hp.
Qed.

Lemma fetchAll_stuck (fuel : nat) (rpg : RepositoryPlanningGraph) (id : string) (node : Node) :
  RPG.getNode rpg id = Some node ->
  FetchNode.getFeaturePaths fuel rpg (node_id node) = None ->
  forall ids entities notFound,
    In id ids -> FetchNode.fetchAll fuel rpg ids entities notFound = None.
Proof.
  intros Hnode Hstuck. induction ids as [|x ids IH]; intros entities notFound Hin; [destruct Hin|].
  cbn [FetchNode.fetchAll]. destruct Hin as [->|Hin].
  - rewrite Hnode, Hstuck. reflexivity.
  - destruct (RPG.getNode rpg x) as [nx|]; [|apply IH; exact Hin].
    destruct (FetchNode.getFeaturePaths fuel rpg (node_id nx)); [apply IH; exact Hin|reflexivity].
Qed.

(** X12: [get] does not return when the chain of parents of a requested
    node never ends: if [getParent], applied again and again from that
    node, always finds a parent, no number of rounds of the loop of
    [getFeaturePaths] is enough. *)
Theorem fetch_never_returns_below_cycle
    (rpg : RepositoryPlanningGraph) (options : FetchOptions) (P : Node -> Prop)
    (id : string) (node : Node) :
  (forall n, P n -> exists p, RPG.getParent rpg (node_id n) = Some p /\ P p) ->
  In id (FetchNode.allIds options) ->
  RPG.getNode rpg id = Some node -> RPG.getNode rpg (node_id node) = Some node -> P node ->
  forall fuel, FetchNode.get fuel rpg options = None.
Proof.
  intros Hclosed Hin Hnode Hself HP fuel. unfold FetchNode.get.
  apply (fetchAll_stuck fuel rpg id node Hnode); [|exact Hin].
  unfold FetchNode.getFeaturePaths. rewrite Hself.
  rewrite (climb_endless rpg P Hclosed fuel node [] HP). reflexivity.
Qed.

Lemma fetch_never_returns_witness :
  FetchNode.get 1000 Sample.tangled (mkFetchOptions None (Some ["c"; "a"])) = None.
Proof.
  apply (fetch_never_returns_below_cycle Sample.tangled
           (mkFetchOptions None (Some ["c"; "a"]))
           (fun n => n = Sample.highLevel "a" \/ n = Sample.highLevel "b")
           "a" (Sample.highLevel "a")).
  - intros n [-> | ->]; [exists (Sample.highLevel "b") | exists (Sample.highLevel "a")];
      (split; [reflexivity|auto]).
  - cbn. auto.
  - reflexivity.
  - reflexivity.
  - left. reflexivity.
Defined.

Lemma fetchAll_spec (fuel : nat) (rpg : RepositoryPlanningGraph) (ids : list string) :
  forall entities notFound r,
    FetchNode.fetchAll fuel rpg ids entities notFound = Some r ->
    map fd_node (fr_entities r) = map fd_node entities ++ omap (RPG.getNode rpg) ids
    /\ fr_notFound r
       = notFound ++ List.filter (fun id => negb (RPG.hasNode rpg id)) ids
    /\ (Forall (fun d => fd_sourceCode d = sourceCode (fd_node d)
                         /\ length (fd_featurePaths d) = 1%nat) entities ->
        Forall (fun d => fd_sourceCode d = sourceCode (fd_node d)
                         /\ length (fd_featurePaths d) = 1%nat) (fr_entities r)).
Proof.
  induction ids as [|id ids IH]; intros entities notFound r; cbn [FetchNode.fetchAll].
  - intros [= <-]. cbn. rewrite !app_nil_r. auto.
  - destruct (RPG.getNode rpg id) as [node|] eqn:Hnode.
    + destruct (FetchNode.getFeaturePaths fuel rpg (node_id node)) as [fp|] eqn:Hfp;
        [|discriminate].
      intros Hrun. apply IH in Hrun as (Hnodes & Hnot & Hall).
      split; [|split].
      * rewrite Hnodes, map_app. cbn. rewrite Hnode, <- app_assoc. reflexivity.
      * rewrite Hnot. cbn. apply getNode_hasNode in Hnode. unfold RPG.hasNode.
        rewrite Hnode. reflexivity.
      * intros Hent. apply Hall. apply Forall_app. split; [exact Hent|].
        constructor; [|constructor]. cbn. split; [reflexivity|].
        unfold FetchNode.getFeaturePaths in Hfp.
        destruct (FetchNode.climb _ _ _ _); [injection Hfp as <-; reflexivity | discriminate].
    + intros Hrun. apply IH in Hrun as (Hnodes & Hnot & Hall).
      split; [|split; [|exact Hall]].
      * rewrite Hnodes. cbn. rewrite Hnode. reflexivity.
      * rewrite Hnot, <- app_assoc. cbn. unfold RPG.hasNode.
        unfold RPG.getNode in Hnode.
        destruct (Graphology.hasNode (graph rpg) id) eqn:Hhas; [|reflexivity].
        cbn in Hnode. apply mapGet_Some_has in Hhas as [n Hn].
        unfold Graphology.getNodeAttributes in Hnode. congruence.
Qed.

(** X13: when [get] returns, the requested ids are split in two, in the
    order of the request and with repetitions kept: [entities] holds the
    stored node of every id that has one, with its source code and a
    single feature path, and [notFound] holds the ids that have none. *)
Theorem fetch_splits_found_and_missing
    (fuel : nat) (rpg : RepositoryPlanningGraph) (options : FetchOptions) (r : FetchResult) :
  FetchNode.get fuel rpg options = Some r ->
  map fd_node (fr_entities r) = omap (RPG.getNode rpg) (FetchNode.allIds options)
  /\ fr_notFound r
     = List.filter (fun id => negb (RPG.hasNode rpg id)) (FetchNode.allIds options)
  /\ (length (fr_entities r) + length (fr_notFound r)
      = length (FetchNode.allIds options))%nat
  /\ Forall (fun d => fd_sourceCode d = sourceCode (fd_node d)
                      /\ length (fd_featurePaths d) = 1%nat) (fr_entities r).
Proof.
  intros Hrun. apply fetchAll_spec in Hrun as (Hnodes & Hnot & Hall).
  cbn in Hnodes, Hnot. split; [exact Hnodes|]. split; [exact Hnot|]. split; [|apply Hall; constructor].
  rewrite <- (length_map fd_node), Hnodes, Hnot.
  generalize (FetchNode.allIds options) as ids. induction ids as [|id ids IH]; cbn; [reflexivity|].
  unfold RPG.hasNode, RPG.getNode at 1.
  destruct (Graphology.hasNode (graph rpg) id) eqn:Hhas; cbn.
  - apply mapGet_Some_has in Hhas as [n Hn]. unfold Graphology.getNodeAttributes. rewrite Hn.
    cbn. unfold RPG.hasNode in IH. lia.
  - unfold RPG.hasNode in IH. lia.
Qed.

Lemma fetch_splits_witness :
  exists r,
    FetchNode.get 2 Scenario.crossCutting
      (mkFetchOptions (Some ["src/utils/helper.ts:file"; "ghost"]) None) = Some r
    /\ fr_notFound r = ["ghost"]
    /\ map fd_node (fr_entities r)
       = [Sample.fileNode "src/utils/helper.ts:file" "src/utils/helper.ts"].
Proof.
  eexists. split; [reflexivity|].
  destruct (fetch_splits_found_and_missing 2 Scenario.crossCutting
              (mkFetchOptions (Some ["src/utils/helper.ts:file"; "ghost"]) None) _ eq_refl)
    as (Hnodes & Hnot & _).
  split; [rewrite Hnot; reflexivity | rewrite Hnodes; reflexivity].
Defined.

(** ** tools/search.ts: deduplication *)

Lemma mapSet_keys {V} (k : string) (v : V) (m : list (string * V)) :
  map fst (SearchNode.mapSet k v m) = Js.setAdd k (map fst m).
Proof.
  induction m as [|[k' v'] m IH]; cbn; [reflexivity|].
  destruct (String.eqb k k'); cbn; [reflexivity|]. rewrite IH. reflexivity.
Qed.

Lemma mapSet_Forall {V} (Q : string * V -> Prop) (k : string) (v : V) (m : list (string * V)) :
  Forall Q m -> Q (k, v) -> Forall Q (SearchNode.mapSet k v m).
Proof.
  intros Hm Hkv. induction Hm as [|[k' v'] m Hx Hm IH]; cbn; [repeat constructor; exact Hkv|].
  destruct (String.eqb_spec k k') as [<-|_]; constructor; auto.
Qed.

Lemma byId_keys (results : list Node) :
  forall m,
    map fst (fold_left (fun m n => SearchNode.mapSet (node_id n) n m) results m)
    = fold_left (fun s x => Js.setAdd x s) (map node_id results) (map fst m).
Proof.
  induction results as [|n results IH]; intros m; cbn [fold_left map]; [reflexivity|].
  rewrite IH, mapSet_keys. reflexivity.
Qed.

Lemma byId_Forall (Q : string * Node -> Prop) (results : list Node) :
  (forall n, In n results -> Q (node_id n, n)) ->
  forall m, Forall Q m ->
    Forall Q (fold_left (fun m n => SearchNode.mapSet (node_id n) n m) results m).
Proof.
  induction results as [|n results IH]; intros Hres m Hm; cbn [fold_left]; [exact Hm|].
  apply IH; [intros x Hx; apply Hres; right; exact Hx|].
  apply mapSet_Forall; [exact Hm|]. apply Hres. left. reflexivity.
Qed.

Lemma uniqueById_spec (results : list Node) :
  map node_id (SearchNode.uniqueById results) = Js.setOf (map node_id results)
  /\ NoDup (map node_id (SearchNode.uniqueById results))
  /\ (forall n, In n (SearchNode.uniqueById results) -> In n results)
  /\ (forall n, In n results -> In (node_id n) (map node_id (SearchNode.uniqueById results))).
Proof.
  unfold SearchNode.uniqueById, Js.setOf.
  pose proof (byId_keys results []) as Hkeys. cbn [map] in Hkeys.
  pose proof (byId_Forall (fun kn => node_id (snd kn) = fst kn /\ In (snd kn) results) results
                ltac:(cbn; auto) [] ltac:(constructor)) as Hall.
  set (m := fold_left (fun m n => SearchNode.mapSet (node_id n) n m) results []) in *.
  assert (Hids : map node_id (map snd m) = map fst m).
  { clear Hkeys. induction Hall as [|kn l [Hid _] _ IH]; cbn; [reflexivity|].
    rewrite Hid, IH. reflexivity. }
  destruct (addAll_spec (map node_id results) [] ltac:(constructor)) as [Hnd Hmem].
  rewrite Hids, Hkeys. split; [reflexivity|]. split; [exact Hnd|]. split.
  - intros n (kn & <- & Hkn)%in_map_iff. rewrite List.Forall_forall in Hall.
    apply (Hall kn Hkn).
  - intros n Hn. apply Hmem. right. apply in_map. exact Hn.
Qed.

(** C2, as the code has it.  In [auto] mode [query] runs the feature
    search, one [searchByFeature] per feature term, and, as soon as a file
    pattern is given, the path search as well, whether or not the feature
    search found a node.  The matches of the feature search come first,
    those of the path search after them, and the result keeps one node
    for each id, in the order in which the ids were first met. *)
Theorem auto_mode_runs_both_searches
    (RegExp : string -> option (string -> bool)) (toLowerCase : string -> string)
    (rpg : RepositoryPlanningGraph) (options : SearchOptions)
    (pattern : string) (matches : list Node) :
  mode options = auto ->
  filePattern options = Some pattern -> Js.nonEmpty pattern = true ->
  RPG.searchByPath RegExp rpg pattern = Ok matches ->
  exists r,
    SearchNode.query RegExp toLowerCase rpg options = Ok r
    /\ map node_id (sr_nodes r)
       = Js.setOf (map node_id
                     (match featureTerms options with
                      | Some terms => flat_map (RPG.searchByFeature toLowerCase rpg) terms
                      | None => []
                      end ++ matches))
    /\ NoDup (map node_id (sr_nodes r))
    /\ (forall n, In n matches -> In (node_id n) (map node_id (sr_nodes r)))
    /\ (forall terms term n,
          featureTerms options = Some terms -> In term terms ->
          In n (RPG.searchByFeature toLowerCase rpg term) ->
          In (node_id n) (map node_id (sr_nodes r)))
    /\ (forall n, In n (sr_nodes r) ->
          In n matches
          \/ exists terms term,
               featureTerms options = Some terms /\ In term terms
               /\ In n (RPG.searchByFeature toLowerCase rpg term)).
Proof.
  intros Hmode Hpattern Hnonempty Hpath.
  unfold SearchNode.query, SearchNode.pathMatches, SearchNode.featureMatches.
  rewrite Hmode, Hpattern, Hnonempty, Hpath. cbn [SearchNode.isFeaturesOrAuto
    SearchNode.isSnippetsOrAuto sr_nodes].
  eexists. split; [reflexivity|]. cbn [sr_nodes].
  destruct (uniqueById_spec
              (match featureTerms options with
               | Some terms => flat_map (RPG.searchByFeature toLowerCase rpg) terms
               | None => []
               end ++ matches)) as (Hids & Hnodup & Hsound & Hcomplete).
  split; [exact Hids|]. split; [exact Hnodup|]. split; [|split].
  - intros n Hn. apply Hcomplete. apply in_or_app. right. exact Hn.
  - intros terms term n Hterms Hterm Hn. apply Hcomplete. apply in_or_app. left.
    rewrite Hterms. apply in_flat_map. exists term. split; assumption.
  - intros n Hn. apply Hsound in Hn. apply in_app_or in Hn as [Hn|Hn]; [|left; exact Hn].
    right. destruct (featureTerms options) as [terms|]; [|destruct Hn].
    apply in_flat_map in Hn as (term & Hterm & Hn). exists terms, term. auto.
Qed.

Lemma auto_mode_witness :
  exists r,
    SearchNode.query (fun _ => Some (String.prefix "src/")) Literal.toLowerCase
      Scenario.twoFiles Scenario.autoQuery = Ok r
    /\ map node_id (sr_nodes r) = ["lib/auth.ts:file"; "src/view.ts:file"].
Proof.
  destruct (auto_mode_runs_both_searches (fun _ => Some (String.prefix "src/"))
              Literal.toLowerCase Scenario.twoFiles Scenario.autoQuery "src/*"
              [Scenario.viewNode] eq_refl eq_refl eq_refl eq_refl)
    as (r & Hquery & Hids & _).
  exists r. split; [exact Hquery|]. rewrite Hids. reflexivity.
Defined.

(** C2, as stated, fails at the scenario of the spec.  The feature search
    for [authentication] finds the file under [lib], so the path search
    should be skipped; it runs all the same, and the file under [src],
    which no feature term matches, is returned too. *)
Lemma auto_mode_fallback_counterexample :
  SearchNode.featureMatches Literal.toLowerCase Scenario.twoFiles Scenario.autoQuery
  = [Scenario.authNode]
  /\ RPG.searchByPath (fun _ => Some (String.prefix "src/")) Scenario.twoFiles "src/*"
     = Ok [Scenario.viewNode]
  /\ SearchNode.query (fun _ => Some (String.prefix "src/")) Literal.toLowerCase
       Scenario.twoFiles Scenario.autoQuery
     = Ok (mkSearchResult [Scenario.authNode; Scenario.viewNode] 2 auto).
Proof. repeat split. Qed.

(** X14: [query] returns each node id at most once, in the order in which
    the ids were first matched (feature matches before path matches);
    every returned node is one of the matches, every match is represented,
    and [totalMatches] counts the returned nodes. *)
Theorem query_deduplicates_by_id
    (RegExp : string -> option (string -> bool)) (toLowerCase : string -> string)
    (rpg : RepositoryPlanningGraph) (options : SearchOptions) (r : SearchResult) :
  SearchNode.query RegExp toLowerCase rpg options = Ok r ->
  exists matches,
    SearchNode.pathMatches RegExp rpg options = Ok matches
    /\ map node_id (sr_nodes r)
       = Js.setOf (map node_id (SearchNode.featureMatches toLowerCase rpg options ++ matches))
    /\ NoDup (map node_id (sr_nodes r))
    /\ (forall n, In n (sr_nodes r) -> In n (SearchNode.featureMatches toLowerCase rpg options ++ matches))
    /\ (forall n, In n (SearchNode.featureMatches toLowerCase rpg options ++ matches) ->
          In (node_id n) (map node_id (sr_nodes r)))
    /\ sr_totalMatches r = length (sr_nodes r)
    /\ sr_mode r = mode options.
Proof.
  unfold SearchNode.query.
  destruct (SearchNode.pathMatches RegExp rpg options) as [matches|] eqn:Hpath; [|discriminate].
  intros [= <-]. exists matches. cbn [sr_nodes sr_totalMatches sr_mode].
  destruct (uniqueById_spec (SearchNode.featureMatches toLowerCase rpg options ++ matches))
    as (H1 & H2 & H3 & H4).
  auto 10.
Qed.

Lemma query_deduplicates_witness :
  exists r,
    SearchNode.query (fun _ => Some (fun _ => true)) Literal.toLowerCase Scenario.twoFiles
      (mkSearchOptions auto (Some ["render"; "template"]) None None (Some "*") None) = Ok r
    /\ map node_id (sr_nodes r) = ["src/view.ts:file"; "lib/auth.ts:file"].
Proof.
  eexists. split; [reflexivity|].
  destruct (query_deduplicates_by_id (fun _ => Some (fun _ => true)) Literal.toLowerCase
              Scenario.twoFiles
              (mkSearchOptions auto (Some ["render"; "template"]) None None (Some "*") None)
              _ eq_refl) as (matches & Hpath & Hids & _).
  rewrite Hids. injection Hpath as <-. reflexivity.
Defined.

(** ** tools/explore.ts: what a traversal reports *)

Section Exploration.

Variable rpg : RepositoryPlanningGraph.
Variable edgeType : ExploreEdgeType.
Variable maxDepth : Z.
Variable direction : Direction.
Variable start : string.

Local Abbreviation explore := (ExploreRPG.explore rpg edgeType maxDepth direction).
Local Abbreviation chain := (exploreChain rpg edgeType direction start).

(** Every pushed node is away from the start by as many steps as the
    depth of its push, and every pushed edge entry is taken from a stored
    edge. *)
Local Abbreviation sound st :=
  ((forall id d, In (id, d) (pushedAt st) -> exists k, d = Z.of_nat k /\ chain k id)
   /\ (forall r, In r (edges st) -> exists e, In e (RPG.getEdges rpg) /\ r = refOf e)).

Lemma getOutEdges_stored (a : string) (t : option EdgeType) (e : Edge) :
  In e (RPG.getOutEdges rpg a t) -> In e (RPG.getEdges rpg).
Proof. intros (_ & (ed & Hed & Hattr & _) & _)%In_getOutEdges. apply In_getEdges. eauto. Qed.

Lemma getInEdges_stored (a : string) (t : option EdgeType) (e : Edge) :
  In e (RPG.getInEdges rpg a t) -> In e (RPG.getEdges rpg).
Proof. intros (_ & (ed & Hed & Hattr & _) & _)%In_getInEdges. apply In_getEdges. eauto. Qed.

Lemma sound_pushEdge (e : Edge) (st : ExploreState) :
  In e (RPG.getEdges rpg) -> sound st -> sound (ExploreRPG.pushEdge e st).
Proof.
  intros He [Hn Hedges]. split; [exact Hn|]. cbn. intros r [Hr|[<-|[]]]%in_app_or; [auto|].
  exists e. auto.
Qed.

Lemma explore_sound (fuel : nat) :
  forall id depth st st',
    sound st -> (exists k, depth = Z.of_nat k /\ chain k id) ->
    explore fuel id depth st = Some st' -> sound st'.
Proof.
  induction fuel as [|fuel IH]; intros id depth st st' Hst (k & -> & Hchain);
    cbn [ExploreRPG.explore];
    destruct ((maxDepth <? Z.of_nat k)%Z || bool_decide (id ∈ visited st));
    try (intros [= <-]; exact Hst).
  destruct (RPG.getNode rpg id) as [node|]; [|intros [= <-]; exact Hst].
  set (st1 := ExploreRPG.pushNode id node (Z.of_nat k) (ExploreRPG.markVisited id st)).
  assert (Hst1 : sound st1).
  { destruct Hst as [Hn He]. split; [|exact He]. cbn.
    intros id' d [Hin|[[= <- <-]|[]]]%in_app_or; [auto|]. eauto. }
  assert (Hnext : forall b, exploreStep rpg edgeType direction id b ->
                    exists k', (Z.of_nat k + 1)%Z = Z.of_nat k' /\ chain k' b).
  { intros b Hstep. exists (S k). split; [lia|]. apply chain_step with (a := id); assumption. }
  apply (forEach_inv (fun s => sound s)); [|exact Hst1].
  intros s et s' Het Hs.
  destruct (if ExploreRPG.goesOut direction then _ else _) as [s1|] eqn:Hout; [|discriminate].
  assert (Hs1 : sound s1).
  { destruct (ExploreRPG.goesOut direction) eqn:Hgo; [|injection Hout as <-; exact Hs].
    revert Hout. apply (forEach_inv (fun s => sound s)); [|exact Hs].
    intros s0 e s2 He Hs0. apply IH.
    - apply sound_pushEdge; [|exact Hs0]. eapply getOutEdges_stored. exact He.
    - apply Hnext. exists et, e. split; [exact Het|]. left. auto. }
  destruct (ExploreRPG.goesIn direction) eqn:Hgo; [|intros [= <-]; exact Hs1].
  apply (forEach_inv (fun s => sound s)); [|exact Hs1].
  intros s0 e s2 He Hs0. apply IH.
  - apply sound_pushEdge; [|exact Hs0]. eapply getInEdges_stored. exact He.
  - apply Hnext. exists et, e. split; [exact Het|]. right. auto.
Qed.

End Exploration.

Lemma Forall2_In_left {A B} (R : A -> B -> Prop) (l : list A) (l' : list B) (x : A) :
  Forall2 R l l' -> In x l -> exists y, In y l' /\ R x y.
Proof.
  induction 1 as [|a b l l' Hab _ IH]; intros Hin; [destruct Hin|].
  destruct Hin as [<-|Hin].
  - exists b. split; [left; reflexivity | exact Hab].
  - destruct (IH Hin) as (y & Hy & Hxy). exists y. split; [right; exact Hy | exact Hxy].
Qed.

(** X15: [traverse] reports only what is there and within reach: every
    returned node is stored in the graph and is connected to the start
    node by a chain of at most [maxDepth] traversed edges (followed in the
    chosen direction), and every entry of [edges] copies source, target
    and type of a stored edge. *)
Theorem traverse_reports_only_reachable
    (rpg : RepositoryPlanningGraph) (options : ExploreOptions) (result : ExploreResult) :
  ExploreRPG.traverse rpg options = Some result ->
  (forall n, In n (er_nodes result) ->
     exists id k,
       RPG.getNode rpg id = Some n
       /\ (Z.of_nat k <= match maxDepth options with Some d => d | None => 3 end)%Z
       /\ exploreChain rpg (edgeType options)
            (match direction options with Some d => d | None => out end)
            (startNode options) k id)
  /\ (forall r, In r (er_edges result) -> exists e, In e (RPG.getEdges rpg) /\ r = refOf e).
Proof.
  unfold ExploreRPG.traverse.
  destruct (ExploreRPG.run rpg options) as [st|] eqn:Hrun; [|discriminate].
  intros [= <-]. cbn [er_nodes er_edges]. unfold ExploreRPG.run in Hrun.
  set (depthLimit := match maxDepth options with Some d => d | None => 3%Z end) in *.
  set (towards := match direction options with Some d => d | None => out end) in *.
  pose proof (explore_exploring rpg (edgeType options) depthLimit towards _ _ _ _ _
                (exploring_initial rpg depthLimit) Hrun) as [_ _ Hnodes Hbound _].
  assert (Hsound : (forall id d, In (id, d) (pushedAt st) ->
                      exists k, d = Z.of_nat k
                                /\ exploreChain rpg (edgeType options) towards
                                     (startNode options) k id)
                   /\ (forall r, In r (edges st) ->
                         exists e, In e (RPG.getEdges rpg) /\ r = refOf e)).
  { apply (explore_sound rpg (edgeType options) depthLimit towards (startNode options)
             (Z.to_nat (depthLimit + 1)) (startNode options) 0%Z ExploreRPG.initial st);
      [|exists 0%nat; split; [reflexivity|constructor]|exact Hrun].
    split; [intros ? ? []|intros ? []]. }
  destruct Hsound as [Hchains Hedges].
  split; [|exact Hedges].
  intros n Hn. destruct (Forall2_In_left _ _ _ _ Hnodes Hn) as ([id d] & Hp & Hget).
  destruct (Hchains id d Hp) as (k & -> & Hchain).
  rewrite List.Forall_forall in Hbound. specialize (Hbound _ Hp).
  exists id, k. auto.
Qed.

Lemma traverse_reports_witness :
  exists result,
    ExploreRPG.traverse Sample.tangled (mkExploreOptions "a" functional (Some 1%Z) None)
    = Some result
    /\ forall r, In r (er_edges result) ->
         exists e, In e (RPG.getEdges Sample.tangled) /\ r = refOf e.
Proof.
  eexists. split; [reflexivity|].
  apply (traverse_reports_only_reachable Sample.tangled
           (mkExploreOptions "a" functional (Some 1%Z) None) _ eq_refl).
Defined.

(** ** encoder/grounding.ts: what the LCA paths cover *)

Lemma reported_covers (node : TrieNode) :
  wellFormed node ->
  forall segs t,
    In t (terminals node) -> (segs = [] -> t <> []) ->
    exists q rest, In (segs ++ q) (reported node segs) /\ t = q ++ rest.
Proof.
  induction node as [cs b IH] using TrieNode_induction.
  intros Hwf segs t Ht Hroot. pose proof Hwf as [Hnd Hcs]%wellFormed_inv.
  rewrite reported_unfold. cbv zeta.
  assert (Hbelow : forall k t', t = k :: t' ->
            exists q rest,
              In (segs ++ q) (flat_map (fun kc => reported (snd kc) (segs ++ [fst kc])) cs)
              /\ t = q ++ rest).
  { intros k t' ->. apply path_iff in Ht as (c & Hkc & Ht').
    rewrite List.Forall_forall in IH, Hcs.
    destruct (Hcs _ Hkc) as (_ & _ & Hwfc).
    destruct (IH _ Hkc Hwfc (segs ++ [k]) t' Ht') as (q & rest & Hq & ->).
    { intros Hnil. destruct segs; discriminate. }
    exists (k :: q), rest. split; [|reflexivity].
    apply in_flat_map. exists (k, c). split; [exact Hkc|]. cbn [fst snd].
    rewrite <- app_assoc in Hq. exact Hq. }
  destruct segs as [|s segs].
  - destruct t as [|k t']; [destruct (Hroot eq_refl eq_refl)|]. eauto.
  - destruct (isBranching (mkTrieNode cs b) || isTerminal (mkTrieNode cs b)) eqn:Hmark.
    + exists [], t. rewrite app_nil_r. split; [left; reflexivity | reflexivity].
    + apply orb_false_iff in Hmark as [_ Hterm]. cbn in Hterm. subst b.
      destruct t as [|k t']; [|eauto].
      apply terminal_iff in Ht. discriminate.
Qed.

Lemma prefix_segments (q rest : list string) :
  Forall (fun s => isSegment s = true) (q ++ rest) -> Forall (fun s => isSegment s = true) q.
Proof. intros [H _]%Forall_app. exact H. Qed.

(** X16: the LCA paths cover the directories they were computed from, and
    nothing else: every directory with at least one segment lies at or
    below one of the returned paths, and every returned path is an
    ancestor of, or equal to, one of the directories. *)
Theorem computeLCA_covers_directories (dirPaths : list string) :
  (forall d, In d dirPaths -> PathTrie.segmentsOf d <> [] ->
     exists p rest,
       In p (computeLCA dirPaths)
       /\ PathTrie.segmentsOf d = PathTrie.segmentsOf p ++ rest)
  /\ (forall p, In p (computeLCA dirPaths) ->
        exists d rest,
          In d dirPaths /\ PathTrie.segmentsOf d = PathTrie.segmentsOf p ++ rest).
Proof.
  destruct dirPaths as [|d1 [|d2 ds]].
  - split; intros ? [].
  - split.
    + intros d Hd _. exists d, []. rewrite app_nil_r. auto.
    + intros p Hp. exists p, []. rewrite app_nil_r. auto.
  - set (dirs := d1 :: d2 :: ds). assert (Hlen : (2 <= length dirs)%nat) by (cbn; lia).
    split.
    + intros d Hd Hsegs.
      destruct (trieOf_spec dirs newTrieNode wellFormed_new) as [Hwf _].
      destruct (reported_covers _ Hwf [] (PathTrie.segmentsOf d)) as (q & rest & Hq & Heq).
      { apply terminals_trieOf. apply in_map. exact Hd. }
      { intros _. exact Hsegs. }
      exists (Js.join "/" q), rest. split.
      * rewrite (computeLCA_trie dirs Hlen). apply in_map. exact Hq.
      * rewrite segmentsOf_join; [exact Heq|].
        apply (prefix_segments q rest). rewrite <- Heq. apply segmentsOf_segments.
    + intros p (q & -> & Hlca)%(computeLCA_spec dirs _ Hlen).
      destruct Hlca as (_ & Hmarked & _).
      rewrite segmentsOf_join by (apply (marked_segments dirs); exact Hmarked).
      destruct Hmarked as [Hin|(k1 & k2 & q1 & q2 & _ & Hin & _)];
        apply in_map_iff in Hin as (d & Hd & Hin).
      * exists d, []. rewrite app_nil_r. auto.
      * exists d, (k1 :: q1). auto.
Qed.

Lemma computeLCA_covers_example :
  exists p rest,
    In p (computeLCA ["src/graph/node"; "src/graph/edge"; "tests"])
    /\ PathTrie.segmentsOf "src/graph/edge" = PathTrie.segmentsOf p ++ rest.
Proof.
  apply (computeLCA_covers_directories ["src/graph/node"; "src/graph/edge"; "tests"]).
  - cbn. auto.
  - discriminate.
Defined.

(** ** encoder/grounding.ts: what grounding leaves alone *)

(** X17: [ground()] only writes metadata of high-level nodes: it adds or
    removes no node and no edge, leaves every low-level node as it was and
    keeps id, type, feature, directory path and source code of every
    node. *)
Theorem ground_only_writes_high_level_metadata
    (dirname : string -> string) (fuel : nat) (rpg rpg' : RepositoryPlanningGraph) :
  ArtifactGrounder.ground dirname fuel rpg = Done rpg' ->
  g_edges (graph rpg') = g_edges (graph rpg)
  /\ map fst (g_nodes (graph rpg')) = map fst (g_nodes (graph rpg))
  /\ forall id,
       match RPG.getNode rpg id, RPG.getNode rpg' id with
       | Some n, Some n' =>
           exists m, n' = setMetadata n m /\ (isLowLevelNode n = true -> n' = n)
       | None, None => True
       | _, _ => False
       end.
Proof.
  intros Hrun. unfold ArtifactGrounder.ground in Hrun.
  destruct (groundRoots_sound dirname rpg fuel _ _ _ (groundingOf_refl dirname rpg) Hrun)
    as ([Hedges Hkeys Hnodes] & _ & _).
  split; [exact Hedges|]. split; [exact Hkeys|].
  intros id. destruct (Hnodes id) as [->|(node0 & S & -> & Hhl & _ & ->)].
  - destruct (RPG.getNode rpg id) as [n|]; [|exact I].
    exists (metadata n). rewrite setMetadata_same. auto.
  - eexists. split; [reflexivity|]. rewrite isLowLevel_not_high, Hhl. discriminate.
Qed.

Lemma ground_only_writes_witness :
  exists rpg',
    ArtifactGrounder.ground Path.dirname 2 Scenario.crossCutting = Done rpg'
    /\ RPG.getEdges rpg' = RPG.getEdges Scenario.crossCutting
    /\ RPG.getLowLevelNodes rpg' = RPG.getLowLevelNodes Scenario.crossCutting.
Proof.
  eexists. split; [reflexivity|].
  destruct (ground_only_writes_high_level_metadata Path.dirname 2 Scenario.crossCutting _ eq_refl)
    as (Hedges & _ & _).
  split; [|reflexivity]. unfold RPG.getEdges, Graphology.mapEdges. rewrite Hedges. reflexivity.
Defined.

(** ** encoder/grounding.ts: grounding twice *)

Lemma sorted_unique (l1 : list string) :
  forall l2,
    StronglySorted strLe l1 -> StronglySorted strLe l2 -> Permutation l1 l2 -> l1 = l2.
Proof.
  induction l1 as [|x l1 IH]; intros l2 H1 H2 Hperm.
  - apply Permutation_nil in Hperm. congruence.
  - destruct l2 as [|y l2]; [apply Permutation_sym, Permutation_nil in Hperm; discriminate|].
    apply StronglySorted_inv in H1 as [H1 Hx]. apply StronglySorted_inv in H2 as [H2 Hy].
    rewrite List.Forall_forall in Hx, Hy.
    assert (x = y) as <-.
    { assert (Hyx : In y (x :: l1)) by (eapply Permutation_in; [symmetry; exact Hperm|left; auto]).
      assert (Hxy : In x (y :: l2)) by (eapply Permutation_in; [exact Hperm|left; auto]).
      destruct Hyx as [->|Hyx]; [reflexivity|]. destruct Hxy as [->|Hxy]; [reflexivity|].
      apply strLe_antisym; [apply Hx; exact Hyx | apply Hy; exact Hxy]. }
    f_equal. apply IH; [assumption..|]. eapply Permutation_cons_inv. exact Hperm.
Qed.

Lemma sort_unique (l1 l2 : list string) : Permutation l1 l2 -> Js.sort l1 = Js.sort l2.
Proof.
  intros Hperm. apply sorted_unique; [apply sort_sorted..|].
  rewrite !sort_perm. exact Hperm.
Qed.

Lemma groundedMetadata_perm (m : option StructuralMetadata) (L1 L2 : list string) :
  Permutation L1 L2 -> groundedMetadata m L1 = groundedMetadata m L2.
Proof.
  intros Hperm. pose proof (Permutation_length Hperm) as Hlen.
  destruct L1 as [|a [|b L1]], L2 as [|a' [|b' L2]]; try discriminate; [reflexivity| |].
  - apply Permutation_length_1 in Hperm as ->. reflexivity.
  - cbn [groundedMetadata]. rewrite (sort_unique _ _ Hperm). reflexivity.
Qed.

Lemma assignPaths_frame (rpg : RepositoryPlanningGraph) (v : string) (node : Node)
    (S : list string) (rpg2 : RepositoryPlanningGraph) :
  ArtifactGrounder.assignPaths rpg v node S = Ok rpg2 ->
  config rpg2 = config rpg /\ forall u, u <> v -> RPG.getNode rpg2 u = RPG.getNode rpg u.
Proof.
  assert (Hupdate : forall updates,
            RPG.updateNode rpg v updates = Ok rpg2 ->
            config rpg2 = config rpg
            /\ forall u, u <> v -> RPG.getNode rpg2 u = RPG.getNode rpg u).
  { intros updates. unfold RPG.updateNode.
    destruct (negb (Graphology.hasNode (graph rpg) v)); [discriminate|].
    intros [= <-]. split; [reflexivity|]. intros u Hu. apply getNode_updateNode_other. exact Hu. }
  unfold ArtifactGrounder.assignPaths.
  destruct (isHighLevelNode node && (0 <? length S)%nat); [|intros [= <-]; auto].
  destruct (computeLCA S) as [|p [|p2 l]]; [intros [= <-]; auto | apply Hupdate |].
  destruct (Js.sort (p :: p2 :: l)); [intros [= <-]; auto | apply Hupdate].
Qed.

Section Regrounding.

Variable dirname : string -> string.
Variable rpg0 : RepositoryPlanningGraph.

Local Abbreviation groundingOf := (groundingOf dirname rpg0).
Local Abbreviation propagated := (propagated dirname rpg0).

(** Between [rpg] and [rpg'] only nodes that satisfy [P] were written. *)
Local Abbreviation wrote rpg rpg' P :=
  (config rpg' = config rpg
   /\ forall u, RPG.getNode rpg' u = RPG.getNode rpg u \/ P u).

Lemma collect_wrote
    (visit : RepositoryPlanningGraph -> string
             -> outcome (RepositoryPlanningGraph * list string)) :
  (forall rpg c rpg' S,
      groundingOf rpg -> visit rpg c = Done (rpg', S) ->
      propagated rpg c rpg' S /\ wrote rpg rpg' (reaches rpg0 c)) ->
  forall cs rpg acc rpg1 S1,
    groundingOf rpg ->
    ArtifactGrounder.collect visit cs rpg acc = Done (rpg1, S1) ->
    wrote rpg rpg1 (fun u => exists c, In c (map node_id cs) /\ reaches rpg0 c u).
Proof.
  intros Hvisit. induction cs as [|child cs IH]; intros rpg acc rpg1 S1 Hg Hrun;
    cbn [ArtifactGrounder.collect] in Hrun.
  - injection Hrun as <- <-. auto.
  - destruct (visit rpg (node_id child)) as [[rpg' childDirs]| |] eqn:Hchild;
      cbn [bind] in Hrun; try discriminate.
    destruct (Hvisit _ _ _ _ Hg Hchild) as [[Hg' _ _ _] [Hcfg Hwrote]].
    destruct (IH _ _ _ _ Hg' Hrun) as [Hcfg1 Hwrote1].
    split; [congruence|]. intros u.
    destruct (Hwrote1 u) as [Heq1|(c & Hc & Hr)]; [|right; exists c; cbn; auto].
    destruct (Hwrote u) as [Heq|Hr]; [left; congruence|].
    right. exists (node_id child). cbn. auto.
Qed.

Lemma propagate_wrote (fuel : nat) :
  forall rpg v rpg' S,
    groundingOf rpg ->
    ArtifactGrounder.propagate dirname fuel rpg v = Done (rpg', S) ->
    wrote rpg rpg' (reaches rpg0 v).
Proof.
  induction fuel as [|fuel IH]; intros rpg v rpg' S Hg Hrun;
    cbn [ArtifactGrounder.propagate] in Hrun; [discriminate|].
  pose proof (getNode_grounding dirname rpg0 rpg v Hg) as Hkind.
  destruct (RPG.getNode rpg v) as [node|] eqn:Hv; [|injection Hrun as <- <-; auto].
  destruct (RPG.getNode rpg0 v) as [node0|] eqn:H0; [|contradiction].
  pose proof (sameKind_low _ _ Hkind) as Hlow.
  destruct (isLowLevelNode node) eqn:Hll.
  - destruct (RPG.pathOf node) as [p|]; [destruct (Js.nonEmpty p)|];
      injection Hrun as <- <-; auto.
  - destruct (ArtifactGrounder.collect _ _ _ _) as [[rpg1 dirSet]| |] eqn:Hcollect;
      cbn [bind] in Hrun; try discriminate.
    destruct (ArtifactGrounder.assignPaths rpg1 v node dirSet) as [rpg2|] eqn:Hassign;
      cbn [lift bind] in Hrun; [|discriminate].
    injection Hrun as <- <-.
    destruct (collect_wrote (ArtifactGrounder.propagate dirname fuel)
                (fun rpg c rpg' S Hg Hrun =>
                   conj (propagate_sound dirname rpg0 fuel rpg c rpg' S Hg Hrun)
                        (IH rpg c rpg' S Hg Hrun))
                _ _ _ _ _ Hg Hcollect) as [Hcfg1 Hwrote1].
    destruct (assignPaths_frame _ _ _ _ _ Hassign) as [Hcfg2 Hother].
    split; [congruence|]. intros u.
    destruct (String.eqb_spec u v) as [->|Hne]; [right; constructor|].
    rewrite (Hother u Hne).
    destruct (Hwrote1 u) as [Heq|(c & Hc & Hr)]; [left; exact Heq|].
    right. apply reaches_below with (node := node0) (c := c); [exact H0 | congruence | | exact Hr].
    rewrite <- (childIds_grounding dirname rpg0 rpg v Hg). exact Hc.
Qed.

Lemma groundRoots_wrote (fuel : nat) (hs : list Node) :
  forall rpg rpg',
    groundingOf rpg ->
    ArtifactGrounder.groundRoots dirname fuel hs rpg = Done rpg' ->
    wrote rpg rpg'
      (fun u => exists root, In root hs /\ RPG.getParent rpg0 (node_id root) = None
                             /\ reaches rpg0 (node_id root) u).
Proof.
  induction hs as [|h hs IH]; intros rpg rpg' Hg Hrun;
    cbn [ArtifactGrounder.groundRoots] in Hrun.
  - injection Hrun as <-. auto.
  - pose proof (getParent_grounding dirname rpg0 rpg (node_id h) Hg) as Hparent.
    destruct (RPG.getParent rpg (node_id h)) as [parent|] eqn:Hp.
    + destruct (IH _ _ Hg Hrun) as [Hcfg Hwrote]. split; [exact Hcfg|].
      intros u. destruct (Hwrote u) as [Heq|(root & Hin & Hroot & Hr)]; [auto|].
      right. exists root. cbn. auto.
    + destruct (ArtifactGrounder.propagate dirname fuel rpg (node_id h))
        as [[rpg1 S]| |] eqn:Hprop; cbn [bind] in Hrun; try discriminate.
      destruct (propagate_sound dirname rpg0 _ _ _ _ _ Hg Hprop) as [Hg1 _ _ _].
      destruct (propagate_wrote _ _ _ _ _ Hg Hprop) as [Hcfg1 Hwrote1].
      destruct (IH _ _ Hg1 Hrun) as [Hcfg Hwrote]. split; [congruence|].
      intros u. destruct (Hwrote u) as [Heq|(root & Hin & Hroot & Hr)].
      * destruct (Hwrote1 u) as [Heq1|Hr]; [left; congruence|].
        right. exists h. split; [left; reflexivity|]. split; [|exact Hr].
        apply Hparent. reflexivity.
      * right. exists root. cbn. auto.
Qed.

(** A graph that is [rpg0] up to grounding has the same descents. *)
Variable rpg1 : RepositoryPlanningGraph.
Hypothesis Hg01 : groundingOf rpg1.

Lemma reaches_grounding (v u : string) :
  reaches rpg1 v u -> reaches rpg0 v u.
Proof using Hg01.
  induction 1 as [v|v node c u Hv Hll Hc _ IH]; [constructor|].
  pose proof (getNode_grounding dirname rpg0 rpg1 v Hg01) as Hkind. rewrite Hv in Hkind.
  destruct (RPG.getNode rpg0 v) as [node0|] eqn:H0; [|contradiction].
  apply reaches_below with (node := node0) (c := c); [exact H0 | | | exact IH].
  - rewrite <- (sameKind_low _ _ Hkind). exact Hll.
  - rewrite <- (childIds_grounding dirname rpg0 rpg1 v Hg01). exact Hc.
Qed.

Lemma covers_grounding (v d : string) :
  covers dirname rpg1 v d <-> covers dirname rpg0 v d.
Proof using Hg01.
  split.
  - induction 1 as [v node p Hv Hll Hp Hne|v node c d Hv Hll Hc _ IH];
      pose proof (getNode_grounding dirname rpg0 rpg1 v Hg01) as Hkind; rewrite Hv in Hkind;
      (destruct (RPG.getNode rpg0 v) as [node0|] eqn:H0; [|contradiction]);
      pose proof (sameKind_low _ _ Hkind) as Hlow.
    + assert (node = node0) as -> by (apply Hkind; congruence).
      eapply covers_here; eassumption.
    + apply covers_below with (node := node0) (c := c); [exact H0 | congruence | | exact IH].
      rewrite <- (childIds_grounding dirname rpg0 rpg1 v Hg01). exact Hc.
  - induction 1 as [v node0 p H0 Hll Hp Hne|v node0 c d H0 Hll Hc _ IH];
      pose proof (getNode_grounding dirname rpg0 rpg1 v Hg01) as Hkind; rewrite H0 in Hkind;
      (destruct (RPG.getNode rpg1 v) as [node|] eqn:Hv; [|contradiction]);
      pose proof (sameKind_low _ _ Hkind) as Hlow.
    + assert (node = node0) as -> by (apply Hkind; exact Hll).
      eapply covers_here; eassumption.
    + apply covers_below with (node := node) (c := c); [exact Hv | congruence | | exact IH].
      rewrite (childIds_grounding dirname rpg0 rpg1 v Hg01). exact Hc.
Qed.

Lemma settles_grounding (fuel : nat) :
  forall v, settles rpg0 fuel v -> settles rpg1 fuel v.
Proof using Hg01.
  induction fuel as [|fuel IH]; intros v; cbn [settles]; [auto|].
  pose proof (getNode_grounding dirname rpg0 rpg1 v Hg01) as Hkind.
  destruct (RPG.getNode rpg1 v) as [node|]; [|auto].
  destruct (RPG.getNode rpg0 v) as [node0|]; [|contradiction].
  rewrite (sameKind_low _ _ Hkind), (childIds_grounding dirname rpg0 rpg1 v Hg01).
  intros [Hll|Hall]; [left; exact Hll|]. right.
  eapply List.Forall_impl; [|exact Hall]. exact IH.
Qed.

Lemma highLevel_grounding (h1 : Node) :
  NoDup (map fst (g_nodes (graph rpg0))) ->
  In h1 (RPG.getHighLevelNodes rpg1) ->
  exists h0, In h0 (RPG.getHighLevelNodes rpg0) /\ node_id h0 = node_id h1.
Proof using Hg01.
  intros Hnd [Hin Hhl]%filter_In. rewrite getNodes_snd in Hin.
  apply in_map_iff in Hin as ([k n] & <- & Hin). cbn [snd] in *.
  assert (Hget : RPG.getNode rpg1 k = Some n).
  { apply In_getNode; [|exact Hin]. rewrite (same_keys _ _ _ Hg01). exact Hnd. }
  pose proof (getNode_grounding dirname rpg0 rpg1 k Hg01) as Hkind. rewrite Hget in Hkind.
  destruct (RPG.getNode rpg0 k) as [n0|] eqn:H0; [|contradiction].
  exists n0. destruct Hkind as (Hid & Hty & _). split; [|auto].
  apply filter_In. split.
  - rewrite getNodes_snd. apply in_map_iff. exists (k, n0). split; [reflexivity|].
    apply getNode_In. exact H0.
  - unfold isHighLevelNode in *. rewrite <- Hty. exact Hhl.
Qed.

End Regrounding.

Lemma nodes_determined (l l' : list (string * Node)) :
  map fst l = map fst l' -> NoDup (map fst l) ->
  (forall k, Js.mapGet k l = Js.mapGet k l') -> l = l'.
Proof.
  revert l'. induction l as [|[k n] l IH]; intros [|[k' n'] l'] Hkeys Hnd Hget;
    try discriminate; [reflexivity|].
  cbn in Hkeys. injection Hkeys as <- Hkeys. apply NoDup_cons in Hnd as [Hout Hnd].
  pose proof (Hget k) as Hk. cbn in Hk. rewrite String.eqb_refl in Hk. injection Hk as <-.
  f_equal. apply IH; [exact Hkeys | exact Hnd|].
  assert (Hnone : forall m : list (string * Node), ~ In k (map fst m) -> Js.mapGet k m = None).
  { intros m Hm. apply mapGet_None_has. apply mapHas_false_In. exact Hm. }
  intros k0. destruct (String.eqb k0 k) eqn:Hk0.
  - apply String.eqb_eq in Hk0. subst k0. rewrite !Hnone; [reflexivity| |].
    + rewrite <- Hkeys. intros Hin. apply Hout. apply list_elem_of_In. exact Hin.
    + intros Hin. apply Hout. apply list_elem_of_In. exact Hin.
  - specialize (Hget k0). cbn [Js.mapGet] in Hget. rewrite Hk0 in Hget. exact Hget.
Qed.

(** X18: grounding is idempotent: on a graph built through the public
    operations, when [ground()] returns, a second [ground()] returns as
    well and leaves the graph exactly as the first one made it. *)
Theorem ground_twice_changes_nothing
    (dirname : string -> string) (fuel : nat) (rpg : RepositoryPlanningGraph) :
  RPG.reachable rpg ->
  Forall (fun h => settles rpg fuel (node_id h)) (RPG.getHighLevelNodes rpg) ->
  exists rpg1,
    ArtifactGrounder.ground dirname fuel rpg = Done rpg1
    /\ ArtifactGrounder.ground dirname fuel rpg1 = Done rpg1.
Proof.
  intros Hreach Hsettles.
  pose proof (nodes_unique _ (reachable_consistent _ Hreach)) as Hnd.
  unfold ArtifactGrounder.ground.
  destruct (groundRoots_returns dirname rpg fuel _ rpg (groundingOf_refl dirname rpg) Hsettles)
    as [rpg1 Hrun1].
  exists rpg1. split; [exact Hrun1|].
  destruct (groundRoots_sound dirname rpg fuel _ _ _ (groundingOf_refl dirname rpg) Hrun1)
    as (Hg01 & _ & Hreached1).
  destruct (groundRoots_returns dirname rpg1 fuel (RPG.getHighLevelNodes rpg1) rpg1
              (groundingOf_refl dirname rpg1)) as [rpg2 Hrun2].
  { apply List.Forall_forall. intros h1 Hh1.
    destruct (highLevel_grounding dirname rpg rpg1 Hg01 h1 Hnd Hh1) as (h0 & Hh0 & <-).
    apply (settles_grounding dirname rpg rpg1 Hg01).
    rewrite List.Forall_forall in Hsettles. exact (Hsettles h0 Hh0). }
  rewrite Hrun2. f_equal.
  destruct (groundRoots_sound dirname rpg1 fuel _ _ _ (groundingOf_refl dirname rpg1) Hrun2)
    as ([Hedges Hkeys Hnodes] & _ & _).
  destruct (groundRoots_wrote dirname rpg1 fuel _ _ _ (groundingOf_refl dirname rpg1) Hrun2)
    as [Hcfg Hwrote].
  assert (Hsame : forall u, RPG.getNode rpg2 u = RPG.getNode rpg1 u).
  { intros u. destruct (Hwrote u) as [Heq|(root1 & Hroot1 & Hparent1 & Hreach1)]; [exact Heq|].
    destruct (Hnodes u) as [Heq|(node1 & S' & Hu1 & Hhl1 & Hlist1 & Hu2)]; [exact Heq|].
    destruct (highLevel_grounding dirname rpg rpg1 Hg01 root1 Hnd Hroot1) as (root0 & Hroot0 & Hid).
    pose proof (getNode_grounding dirname rpg rpg1 u Hg01) as Hkind. rewrite Hu1 in Hkind.
    destruct (RPG.getNode rpg u) as [node0|] eqn:Hu0; [|contradiction].
    assert (Hhl0 : isHighLevelNode node0 = true).
    { destruct Hkind as (_ & Hty & _). unfold isHighLevelNode in *. rewrite <- Hty. exact Hhl1. }
    assert (Hgrounded : grounded dirname rpg rpg1 u).
    { apply (Hreached1 root0 u node0 Hroot0); [| |exact Hu0|exact Hhl0].
      - rewrite Hid. apply (getParent_grounding dirname rpg rpg1 _ Hg01). exact Hparent1.
      - rewrite Hid. apply (reaches_grounding dirname rpg rpg1 Hg01). exact Hreach1. }
    destruct Hgrounded as (node0' & S & Hu0' & _ & Hlist0 & Hu1').
    rewrite Hu0 in Hu0'. injection Hu0' as <-.
    rewrite Hu1 in Hu1'. injection Hu1' as ->.
    rewrite Hu2, Hu1. f_equal. cbn [metadata setMetadata].
    rewrite setMetadata_twice. f_equal.
    assert (Hperm : Permutation (computeLCA S) (computeLCA S')).
    { apply computeLCA_permutation. apply (listing_perm dirname rpg u); [exact Hlist0|].
      destruct Hlist1 as [HndS Hmem]. split; [exact HndS|].
      intros d. rewrite Hmem. apply (covers_grounding dirname rpg rpg1 Hg01). }
    rewrite (groundedMetadata_again _ _ _ Hperm).
    symmetry. apply groundedMetadata_perm. exact Hperm. }
  pose proof (same_keys _ _ _ Hg01) as Hkeys01.
  destruct rpg1 as [[ns1 es1] c1], rpg2 as [[ns2 es2] c2].
  cbn [graph config g_nodes g_edges] in *. subst c2 es2. f_equal. f_equal.
  apply nodes_determined; [exact Hkeys| |].
  - rewrite Hkeys, Hkeys01. exact Hnd.
  - intros k. specialize (Hsame k). rewrite !getNode_mapGet in Hsame. exact Hsame.
Qed.

Lemma ground_twice_witness :
  exists rpg1,
    ArtifactGrounder.ground Path.dirname 2 Scenario.crossCutting = Done rpg1
    /\ ArtifactGrounder.ground Path.dirname 2 rpg1 = Done rpg1.
Proof.
  apply ground_twice_changes_nothing.
  - apply (build_reachable Scenario.crossCuttingWrites (RPG.create Sample.cfg));
      [constructor | reflexivity].
  - constructor; [|constructor]. cbn. right.
    constructor; [cbn; left; reflexivity|].
    constructor; [cbn; left; reflexivity | constructor].
Defined.

(** ** encoder/encoder.ts: glob matching *)

Lemma globs_star (test : string -> string -> bool) (rest : list string) :
  forall path,
    globs test path ("**" :: rest)
    <-> exists k, (k <= length path)%nat /\ globs test (skipn k path) rest.
Proof.
  intros path. split.
  - remember ("**" :: rest) as pattern eqn:Hpat.
    induction 1 as [|path pattern H _|s path pattern H IH|s path p pattern Hp _ _ _];
      try discriminate.
    + injection Hpat as ->. exists 0%nat. split; [lia | exact H].
    + destruct (IH Hpat) as (k & Hk & Hglob). exists (S k). split; [cbn; lia | exact Hglob].
    + injection Hpat as -> _. contradiction.
  - intros (k & Hk & Hglob). revert path Hk Hglob.
    induction k as [|k IH]; intros path Hk Hglob.
    + apply globs_skip. exact Hglob.
    + destruct path as [|s path]; [cbn in Hk; lia|].
      apply globs_take. apply IH; [cbn in Hk; lia | exact Hglob].
Qed.

Lemma globs_one (test : string -> string -> bool) (s p : string) (path pattern : list string) :
  p <> "**" ->
  (globs test (s :: path) (p :: pattern) <-> test s p = true /\ globs test path pattern).
Proof.
  intros Hp. split.
  - intros H. inversion H; subst; try contradiction. auto.
  - intros [Ht Hg]. apply globs_segment; assumption.
Qed.

Lemma firstFrom_spec (attempt : nat -> outcome bool) (Q : nat -> Prop) (count : nat) :
  forall from,
    (forall k, (k < count)%nat ->
       exists b, attempt (from + k)%nat = Done b /\ (b = true <-> Q (from + k)%nat)) ->
    exists b, EncoderGlob.firstFrom attempt from count = Done b
              /\ (b = true <-> exists k, (k < count)%nat /\ Q (from + k)%nat).
Proof.
  induction count as [|count IH]; intros from Hall; cbn [EncoderGlob.firstFrom].
  - exists false. split; [reflexivity|]. split; [discriminate | intros (k & Hk & _); lia].
  - destruct (Hall 0%nat ltac:(lia)) as (b0 & Hb0 & Hq0). rewrite Nat.add_0_r in Hb0, Hq0.
    rewrite Hb0. cbn [bind]. destruct b0.
    + exists true. split; [reflexivity|]. split; [|reflexivity].
      intros _. exists 0%nat. rewrite Nat.add_0_r. split; [lia | apply Hq0; reflexivity].
    + destruct (IH (S from)) as (b & Hb & Hq).
      { intros k Hk. destruct (Hall (S k) ltac:(lia)) as (b & Hb & Hq).
        rewrite Nat.add_succ_r in Hb, Hq. exists b. auto. }
      exists b. split; [exact Hb|]. rewrite Hq. split.
      * intros (k & Hk & HQ). exists (S k). rewrite Nat.add_succ_r. split; [lia | exact HQ].
      * intros ([|k] & Hk & HQ).
        -- rewrite Nat.add_0_r in HQ. apply Hq0 in HQ. discriminate.
        -- exists k. rewrite Nat.add_succ_r in HQ. split; [lia | exact HQ].
Qed.

Lemma skipn_nth {A} (l : list A) (i : nat) (x : A) :
  nth_error l i = Some x -> skipn i l = x :: skipn (S i) l.
Proof.
  revert i. induction l as [|y l IH]; intros [|i]; cbn; try discriminate.
  - intros [= ->]. reflexivity.
  - intros H. rewrite (IH i H). reflexivity.
Qed.

Section GlobMatching.

Variable RegExp : string -> option (string -> bool).

Local Abbreviation test := (segmentTest RegExp).

Lemma matchSegment_compiled (s p : string) :
  RegExp (EncoderGlob.regexSource p) <> None ->
  EncoderGlob.matchSegment RegExp s p = Done (test s p).
Proof.
  unfold EncoderGlob.matchSegment, segmentTest.
  destruct (RegExp (EncoderGlob.regexSource p)); [reflexivity | contradiction].
Qed.

Lemma matchSegments_spec (pathSegs patternSegs : list string) :
  compiles RegExp patternSegs ->
  forall fuel i j,
    (i <= length pathSegs)%nat -> (j <= length patternSegs)%nat ->
    (length patternSegs - j < fuel)%nat ->
    exists b,
      EncoderGlob.matchSegments RegExp fuel pathSegs patternSegs i j = Done b
      /\ (b = true <-> globs test (skipn i pathSegs) (skipn j patternSegs)).
Proof.
  intros Hcomp. induction fuel as [|fuel IH]; intros i j Hi Hj Hfuel; [lia|].
  cbn [EncoderGlob.matchSegments].
  destruct (Nat.eqb_spec j (length patternSegs)) as [->|Hjne].
  - rewrite (skipn_all patternSegs). destruct (Nat.eqb_spec i (length pathSegs)) as [->|Hine]; cbn.
    + exists true. rewrite skipn_all. split; [reflexivity|]. split; [constructor | reflexivity].
    + exists false. split; [reflexivity|]. split; [discriminate|].
      intros H. inversion H as [Hnil| | |]. 
      assert (length (skipn i pathSegs) = 0%nat) as Hlen by (rewrite <- Hnil; reflexivity).
      rewrite length_skipn in Hlen. lia.
  - rewrite andb_false_r.
    destruct (nth_error patternSegs j) as [p|] eqn:Hp;
      [|apply nth_error_None in Hp; lia].
    rewrite (skipn_nth _ _ _ Hp).
    assert (Hpc : p = "**" \/ RegExp (EncoderGlob.regexSource p) <> None).
    { unfold compiles in Hcomp. rewrite List.Forall_forall in Hcomp. apply Hcomp.
      eapply nth_error_In. exact Hp. }
    destruct (String.eqb_spec p "**") as [->|Hstar].
    + destruct (firstFrom_spec
                  (fun i' => EncoderGlob.matchSegments RegExp fuel pathSegs patternSegs i' (j + 1))
                  (fun i' => globs test (skipn i' pathSegs) (skipn (S j) patternSegs))
                  (length pathSegs + 1 - i) i) as (b & Hb & Hq).
      { intros k Hk. replace (S j) with (j + 1)%nat by lia. apply IH; lia. }
      exists b. split; [exact Hb|]. rewrite Hq, globs_star. split.
      * intros (k & Hk & Hg). exists k. rewrite length_skipn, skipn_skipn.
        split; [lia|]. rewrite Nat.add_comm. exact Hg.
      * intros (k & Hk & Hg). rewrite length_skipn in Hk. rewrite skipn_skipn in Hg.
        exists k. split; [lia|]. rewrite Nat.add_comm. exact Hg.
    + destruct Hpc as [->|Hpc]; [contradiction|].
      destruct (Nat.eqb_spec i (length pathSegs)) as [->|Hine].
      * exists false. rewrite skipn_all. split; [reflexivity|]. split; [discriminate|].
        intros H. inversion H; subst; contradiction.
      * destruct (nth_error pathSegs i) as [s|] eqn:Hs;
          [|apply nth_error_None in Hs; lia].
        rewrite (skipn_nth _ _ _ Hs), (matchSegment_compiled s p Hpc). cbn [bind].
        destruct (test s p) eqn:Ht.
        -- destruct (IH (i + 1)%nat (j + 1)%nat) as (b & Hb & Hq); [lia..|].
           exists b. split; [exact Hb|]. rewrite (globs_one test s p _ _ Hstar), Hq.
           replace (S i) with (i + 1)%nat by lia. replace (S j) with (j + 1)%nat by lia. tauto.
        -- exists false. split; [reflexivity|]. rewrite (globs_one test s p _ _ Hstar).
           split; [discriminate | intros [? _]; congruence].
Qed.

End GlobMatching.

(** The segments of a path or pattern as [globMatch] sees them. *)
Local Abbreviation segmentsSeen s := (Js.split "/" (EncoderGlob.replaceBackslashes s)).

Lemma globMatch_spec (RegExp : string -> option (string -> bool)) (filePath pattern : string) :
  compiles RegExp (segmentsSeen pattern) ->
  exists b,
    EncoderGlob.globMatch RegExp filePath pattern = Done b
    /\ (b = true
        <-> globs (segmentTest RegExp) (segmentsSeen filePath) (segmentsSeen pattern)).
Proof.
  intros Hcomp. unfold EncoderGlob.globMatch. cbv zeta.
  apply (matchSegments_spec RegExp _ _ Hcomp _ 0 0); lia.
Qed.

Lemma some_spec (test : string -> outcome bool) (Q : string -> Prop) (patterns : list string) :
  (forall p, In p patterns -> exists b, test p = Done b /\ (b = true <-> Q p)) ->
  exists b, EncoderGlob.some test patterns = Done b
            /\ (b = true <-> exists p, In p patterns /\ Q p).
Proof.
  induction patterns as [|p patterns IH]; intros Hall; cbn [EncoderGlob.some].
  - exists false. split; [reflexivity|]. split; [discriminate | intros (p & [] & _)].
  - destruct (Hall p (or_introl eq_refl)) as (b0 & -> & Hq0). cbn [bind]. destruct b0.
    + exists true. split; [reflexivity|]. split; [|reflexivity].
      intros _. exists p. split; [left; reflexivity | apply Hq0; reflexivity].
    + destruct IH as (b & Hb & Hq); [intros q Hin; apply Hall; right; exact Hin|].
      exists b. split; [exact Hb|]. rewrite Hq. split.
      * intros (q & Hin & HQ). exists q. split; [right; exact Hin | exact HQ].
      * intros (q & [<-|Hin] & HQ); [apply Hq0 in HQ; discriminate|]. exists q. auto.
Qed.

(** X19: when the pattern segments give regular expressions that compile,
    [matchesPattern] returns, and it answers [true] exactly when the path
    matches one of the patterns segment by segment: [**] stands for any
    number of segments, also none, and every other pattern segment has to
    match one path segment. *)
Theorem matchesPattern_matches_segment_by_segment
    (RegExp : string -> option (string -> bool)) (filePath : string) (patterns : list string) :
  Forall (fun pattern => compiles RegExp (segmentsSeen pattern)) patterns ->
  exists b,
    EncoderGlob.matchesPattern RegExp filePath patterns = Done b
    /\ (b = true
        <-> exists pattern,
              In pattern patterns
              /\ globs (segmentTest RegExp) (segmentsSeen filePath) (segmentsSeen pattern)).
Proof.
  intros Hall. unfold EncoderGlob.matchesPattern. apply some_spec.
  intros p Hp. apply globMatch_spec. rewrite List.Forall_forall in Hall. exact (Hall p Hp).
Qed.

Lemma matchesPattern_witness :
  exists b,
    EncoderGlob.matchesPattern Literal.RegExp "src/node_modules/pkg"
      ["**/dist/**"; "**/node_modules/**"] = Done b
    /\ (b = true
        <-> exists pattern,
              In pattern ["**/dist/**"; "**/node_modules/**"]
              /\ globs (segmentTest Literal.RegExp) ["src"; "node_modules"; "pkg"]
                   (segmentsSeen pattern)).
Proof.
  apply (matchesPattern_matches_segment_by_segment Literal.RegExp
           "src/node_modules/pkg" ["**/dist/**"; "**/node_modules/**"]).
  repeat (constructor;
          [unfold compiles; cbn;
           repeat (constructor; [first [left; reflexivity | right; discriminate]|]);
           constructor|]).
  constructor.
Defined.

Lemma globs_everything (test : string -> string -> bool) (path : list string) :
  globs test path ["**"].
Proof. induction path; [repeat constructor | apply globs_take; assumption]. Qed.

Lemma globs_somewhere (test : string -> string -> bool) (x : string) (path : list string) :
  x <> "**" ->
  (globs test path ["**"; x; "**"] <-> exists s, In s path /\ test s x = true).
Proof.
  intros Hx. rewrite globs_star. split.
  - intros (k & Hk & Hg). destruct (skipn k path) as [|s rest] eqn:Hskip;
      [inversion Hg; subst; contradiction|].
    apply (globs_one test s x rest ["**"] Hx) in Hg as [Ht _].
    exists s. split; [|exact Ht].
    rewrite <- (firstn_skipn k path), Hskip. apply in_or_app. right. left. reflexivity.
  - intros (s & Hin & Ht). apply in_split in Hin as (l1 & l2 & ->).
    exists (length l1). split; [rewrite length_app; cbn; lia|].
    rewrite skipn_app, skipn_all, Nat.sub_diag. cbn.
    apply globs_segment; [exact Hx | exact Ht | apply globs_everything].
Qed.

Lemma globs_last (test : string -> string -> bool) (x : string) (path : list string) :
  x <> "**" ->
  (globs test path ["**"; x] <-> exists front s, path = front ++ [s] /\ test s x = true).
Proof.
  intros Hx. rewrite globs_star. split.
  - intros (k & Hk & Hg). destruct (skipn k path) as [|s rest] eqn:Hskip;
      [inversion Hg; subst; contradiction|].
    apply (globs_one test s x rest [] Hx) in Hg as [Ht Hrest].
    inversion Hrest; subst. exists (firstn k path), s. split; [|exact Ht].
    rewrite <- Hskip. symmetry. apply firstn_skipn.
  - intros (front & s & -> & Ht). exists (length front).
    split; [rewrite length_app; cbn; lia|].
    rewrite skipn_app, skipn_all, Nat.sub_diag. cbn.
    apply globs_segment; [exact Hx | exact Ht | constructor].
Qed.

(** X20: the shapes of the default patterns.  [**] matches every path;
    [**/x/**] matches exactly the paths one of whose segments matches [x];
    [**/x] matches exactly the paths whose last segment matches [x]. *)
Theorem globstar_patterns
    (RegExp : string -> option (string -> bool)) (filePath pattern x : string) :
  x <> "**" -> RegExp (EncoderGlob.regexSource x) <> None ->
  (segmentsSeen pattern = ["**"] ->
   EncoderGlob.globMatch RegExp filePath pattern = Done true)
  /\ (segmentsSeen pattern = ["**"; x; "**"] ->
      exists b,
        EncoderGlob.globMatch RegExp filePath pattern = Done b
        /\ (b = true
            <-> exists s, In s (segmentsSeen filePath) /\ segmentTest RegExp s x = true))
  /\ (segmentsSeen pattern = ["**"; x] ->
      exists b,
        EncoderGlob.globMatch RegExp filePath pattern = Done b
        /\ (b = true
            <-> exists front s,
                  segmentsSeen filePath = front ++ [s] /\ segmentTest RegExp s x = true)).
Proof.
  intros Hx Hcomp. split; [|split]; intros Hpat;
    (destruct (globMatch_spec RegExp filePath pattern) as (b & Hb & Hq);
     [rewrite Hpat; unfold compiles;
      repeat (constructor; [first [left; reflexivity | right; exact Hcomp]|]); constructor|]);
    rewrite Hpat in Hq.
  - rewrite Hb. f_equal. apply Hq. apply globs_everything.
  - exists b. split; [exact Hb|]. rewrite Hq. apply globs_somewhere. exact Hx.
  - exists b. split; [exact Hb|]. rewrite Hq. apply globs_last. exact Hx.
Qed.

Lemma globstar_patterns_witness :
  EncoderGlob.globMatch Literal.RegExp "packages/cli/node_modules/x/index.js"
    "**/node_modules/**" = Done true.
Proof.
  destruct (globstar_patterns Literal.RegExp "packages/cli/node_modules/x/index.js"
              "**/node_modules/**" "node_modules" ltac:(discriminate) ltac:(discriminate))
    as (_ & Hmid & _).
  destruct (Hmid eq_refl) as (b & -> & Hb). f_equal. apply Hb.
  exists "node_modules". split; [cbn; auto | reflexivity].
Defined.

Lemma globs_same_length (test : string -> string -> bool) (path pattern : list string) :
  Forall (fun p => p <> "**") pattern -> globs test path pattern ->
  length path = length pattern.
Proof.
  intros Hno. induction 1 as [| | |s path p pattern _ _ _ IH]; [reflexivity| | |].
  - apply Forall_cons in Hno as [Hne _]. contradiction.
  - apply Forall_cons in Hno as [Hne _]. contradiction.
  - apply Forall_cons in Hno as [_ Hno]. cbn. rewrite (IH Hno). reflexivity.
Qed.

(** X21: a pattern without a [**] segment only matches paths with as many
    segments as the pattern has: [*.ts] matches no file below the top
    level. *)
Theorem pattern_without_globstar_fixes_depth
    (RegExp : string -> option (string -> bool)) (filePath pattern : string) :
  Forall (fun p => p <> "**" /\ RegExp (EncoderGlob.regexSource p) <> None)
         (segmentsSeen pattern) ->
  exists b,
    EncoderGlob.globMatch RegExp filePath pattern = Done b
    /\ (b = true -> length (segmentsSeen filePath) = length (segmentsSeen pattern)).
Proof.
  intros Hall.
  destruct (globMatch_spec RegExp filePath pattern) as (b & Hb & Hq).
  { eapply List.Forall_impl; [|exact Hall]. intros p [_ Hp]. right. exact Hp. }
  exists b. split; [exact Hb|]. intros Htrue. apply Hq in Htrue.
  revert Htrue. apply globs_same_length.
  eapply List.Forall_impl; [|exact Hall]. intros p [Hp _]. exact Hp.
Qed.

Lemma pattern_without_globstar_witness :
  EncoderGlob.globMatch Literal.RegExp "src/index" "index" = Done false.
Proof.
  destruct (pattern_without_globstar_fixes_depth Literal.RegExp "src/index" "index")
    as (b & -> & Hb).
  - repeat constructor; discriminate.
  - destruct b; [|reflexivity]. specialize (Hb eq_refl). discriminate.
Defined.

(** X22: a pattern whose first segment is not [**] and does not give a
    valid regular expression makes [globMatch] throw, whatever the
    path. *)
Theorem globMatch_throws_on_invalid_first_segment
    (RegExp : string -> option (string -> bool)) (filePath pattern p : string)
    (rest : list string) :
  segmentsSeen pattern = p :: rest -> p <> "**" ->
  RegExp (EncoderGlob.regexSource p) = None ->
  EncoderGlob.globMatch RegExp filePath pattern
  = Raised "SyntaxError: Invalid regular expression".
Proof.
  intros Hpat Hp Hnone. unfold EncoderGlob.globMatch. cbv zeta. rewrite Hpat.
  pose proof (split_not_nil "/" (EncoderGlob.replaceBackslashes filePath)) as Hpath.
  destruct (Js.split "/" (EncoderGlob.replaceBackslashes filePath)) as [|s path];
    [contradiction|].
  cbn [EncoderGlob.matchSegments length Nat.eqb andb nth_error].
  apply String.eqb_neq in Hp. rewrite Hp.
  unfold EncoderGlob.matchSegment. rewrite Hnone. reflexivity.
Qed.

Lemma globMatch_throws_witness :
  EncoderGlob.globMatch Literal.RegExp "src/a.ts" "(src/*.ts"
  = Raised "SyntaxError: Invalid regular expression".
Proof.
  apply (globMatch_throws_on_invalid_first_segment Literal.RegExp "src/a.ts" "(src/*.ts"
           "(src" ["*.ts"]); [reflexivity | discriminate | reflexivity].
Defined.

(** ** graph/rpg.ts: feature search *)

Lemma prefix_spec (t s : string) :
  String.prefix t s = true <-> exists after, s = (t ++ after)%string.
Proof.
  revert s. induction t as [|a t IH]; intros s.
  - rewrite prefix_nil. split; [intros _; exists s; reflexivity | reflexivity].
  - destruct s as [|b s].
    + cbn. split; [discriminate | intros [after H]; rewrite append_cons in H; discriminate].
    + rewrite prefix_cons. destruct (ascii_dec a b) as [->|Hne].
      * rewrite IH. split; intros [after H]; exists after.
        -- rewrite append_cons, H. reflexivity.
        -- rewrite append_cons in H. congruence.
      * split; [discriminate|]. intros [after H]. rewrite append_cons in H. congruence.
Qed.

Lemma includes_spec (s t : string) : Js.includes s t = true <-> occursIn t s.
Proof.
  unfold occursIn. induction s as [|a s IH]; cbn [Js.includes].
  - rewrite orb_false_r, prefix_spec. split.
    + intros [after H]. exists "", after. rewrite append_nil_l. exact H.
    + intros (before & after & H). destruct before as [|b before];
        [rewrite append_nil_l in H; eauto | rewrite append_cons in H; discriminate].
  - rewrite orb_true_iff, prefix_spec, IH. split.
    + intros [[after H]|(before & after & H)].
      * exists "", after. rewrite append_nil_l. exact H.
      * exists (String a before), after. rewrite append_cons, H. reflexivity.
    + intros (before & after & H). destruct before as [|b before].
      * left. rewrite append_nil_l in H. eauto.
      * right. rewrite append_cons in H. injection H as _ H. eauto.
Qed.

Lemma existsb_includes (toLowerCase : string -> string) (l : list string) (q : string) :
  existsb (fun k => Js.includes k q) (map toLowerCase l) = true
  <-> exists text, In text l /\ occursIn q (toLowerCase text).
Proof.
  rewrite existsb_exists. split.
  - intros (k & (text & <- & Hin)%in_map_iff & Hk%includes_spec). eauto.
  - intros (text & Hin & Hocc). exists (toLowerCase text).
    split; [apply in_map; exact Hin | apply includes_spec; exact Hocc].
Qed.

(** The test that [searchByFeature] applies to a node. *)
Lemma featureTest_spec (toLowerCase : string -> string) (q : string) (n : Node) :
  Js.includes (toLowerCase (description (feature n))) q
  || existsb (fun k => Js.includes k q) (RPG.lowered toLowerCase (keywords (feature n)))
  || existsb (fun f => Js.includes f q) (RPG.lowered toLowerCase (subFeatures (feature n)))
  = true
  <-> exists text, In text (featureTexts (feature n)) /\ occursIn q (toLowerCase text).
Proof.
  rewrite !orb_true_iff, includes_spec. unfold RPG.lowered, featureTexts.
  assert (Hopt : forall o : option (list string),
            existsb (fun k => Js.includes k q)
              (match o with Some l => map toLowerCase l | None => [] end) = true
            <-> exists text, In text (match o with Some l => l | None => [] end)
                             /\ occursIn q (toLowerCase text)).
  { intros [l|]; [apply existsb_includes|]. cbn. split; [discriminate | intros (? & [] & _)]. }
  rewrite !Hopt. split.
  - intros [[Hd|(text & Hin & Hocc)]|(text & Hin & Hocc)].
    + exists (description (feature n)). split; [left; reflexivity | exact Hd].
    + exists text. split; [right; apply in_or_app; left; exact Hin | exact Hocc].
    + exists text. split; [right; apply in_or_app; right; exact Hin | exact Hocc].
  - intros (text & [<-|[Hin|Hin]%in_app_or] & Hocc); eauto.
Qed.

(** X23: [searchByFeature] compares lower-case forms.  It returns the
    stored nodes, in insertion order, for which the lower-case form of
    the query occurs in the lower-case form of the description, of a
    keyword or of a sub-feature.  Queries with the same lower-case form
    find the same nodes, and a query whose lower-case form is empty finds
    every node. *)
Theorem searchByFeature_finds_substrings
    (toLowerCase : string -> string) (rpg : RepositoryPlanningGraph) (query : string) :
  (exists found : Node -> bool,
     (forall n,
        found n = true
        <-> exists text, In text (featureTexts (feature n))
                         /\ occursIn (toLowerCase query) (toLowerCase text))
     /\ RPG.searchByFeature toLowerCase rpg query = List.filter found (RPG.getNodes rpg))
  /\ (forall other,
        toLowerCase other = toLowerCase query ->
        RPG.searchByFeature toLowerCase rpg other = RPG.searchByFeature toLowerCase rpg query)
  /\ (toLowerCase query = "" ->
        RPG.searchByFeature toLowerCase rpg query = RPG.getNodes rpg).
Proof.
  split; [|split].
  - eexists. split; [|reflexivity]. intros n. apply featureTest_spec.
  - intros other Hsame. unfold RPG.searchByFeature. cbv zeta. rewrite Hsame. reflexivity.
  - intros Hempty. unfold RPG.searchByFeature. cbv zeta. rewrite Hempty.
    apply filter_all. intros n _.
    apply (featureTest_spec toLowerCase "" n). exists (description (feature n)).
    split; [left; reflexivity|]. exists "", (toLowerCase (description (feature n))).
    reflexivity.
Qed.

Lemma searchByFeature_witness :
  map node_id (RPG.searchByFeature Literal.toLowerCase Scenario.twoFiles "AUTHentication")
  = ["lib/auth.ts:file"]
  /\ RPG.searchByFeature Literal.toLowerCase Scenario.twoFiles ""
     = [Scenario.authNode; Scenario.viewNode].
Proof.
  destruct (searchByFeature_finds_substrings Literal.toLowerCase Scenario.twoFiles
              "authentication") as (_ & Hsame & _).
  destruct (searchByFeature_finds_substrings Literal.toLowerCase Scenario.twoFiles "")
    as (_ & _ & Hall).
  split; [rewrite (Hsame "AUTHentication" eq_refl); reflexivity | exact (Hall eq_refl)].
Defined.

(** ** graph/rpg.ts: dependencies and dependents *)

(** X24: in a graph whose nodes are stored under their own ids,
    [getDependencies] and [getDependents] mirror each other: [b] is
    among the dependencies of [a] exactly when [a] is among the dependents
    of [b], and that is when a dependency edge from [a] to [b] is
    stored. *)
Theorem dependencies_mirror_dependents (rpg : RepositoryPlanningGraph) :
  RPG.reachable rpg -> keyed (graph rpg) ->
  forall a b na nb,
    RPG.getNode rpg a = Some na -> RPG.getNode rpg b = Some nb ->
    (In nb (RPG.getDependencies rpg a) <-> dependsOn rpg a b)
    /\ (In na (RPG.getDependents rpg b) <-> dependsOn rpg a b).
Proof.
  intros Hreach Hkeyed a b na nb Ha Hb.
  pose proof (reachable_consistent _ Hreach) as [_ _ Hrec Hanch].
  rewrite List.Forall_forall in Hrec, Hanch.
  unfold RPG.getDependencies, RPG.getDependents, dependsOn. rewrite !In_nodesAt. split; split.
  - intros (e & He & Hn). exists e. split; [exact He|].
    rewrite <- (keyed_getNode _ _ _ Hkeyed Hn). apply (keyed_getNode _ _ _ Hkeyed Hb).
  - intros (e & He & <-). exists e. auto.
  - intros (e & He & Hn).
    assert (Hsrc : source e = a).
    { rewrite <- (keyed_getNode _ _ _ Hkeyed Hn). apply (keyed_getNode _ _ _ Hkeyed Ha). }
    apply In_getInEdges in He as (_ & (ed & Hed & <- & <-) & Hty).
    destruct (Hrec ed Hed) as (_ & Hs & Ht). exists (e_attributes ed). split; [|auto].
    apply In_getOutEdges. split; [apply getNode_hasNode in Ha; exact Ha|].
    split; [|exact Hty]. exists ed. split; [exact Hed|]. split; [reflexivity | congruence].
  - intros (e & He & <-).
    apply In_getOutEdges in He as (_ & (ed & Hed & <- & <-) & Hty).
    destruct (Hrec ed Hed) as (_ & Hs & Ht). exists (e_attributes ed). split.
    + apply In_getInEdges. split; [apply getNode_hasNode in Hb; exact Hb|].
      split; [|exact Hty]. exists ed. auto.
    + rewrite <- Hs. exact Ha.
Qed.

Lemma dependencies_mirror_witness :
  In (Sample.fileNode "util" "src/util.ts") (RPG.getDependencies Imports.layered "app")
  /\ In (Sample.fileNode "app" "src/app.ts") (RPG.getDependents Imports.layered "util").
Proof.
  destruct (dependencies_mirror_dependents Imports.layered layered_reachable layered_keyed
              "app" "util" (Sample.fileNode "app" "src/app.ts")
              (Sample.fileNode "util" "src/util.ts") eq_refl eq_refl) as [Hdeps Hdependents].
  assert (Hedge : dependsOn Imports.layered "app" "util").
  { exists (Imports.uses "app" "util"). split; [vm_compute; auto | reflexivity]. }
  split; [apply Hdeps | apply Hdependents]; exact Hedge.
Defined.

(** ** encoder/grounding.ts: the shape of the LCA paths *)

(** X25: from two directories on, [computeLCA] returns paths rebuilt from
    their segments: no empty segment, no slash at either end, so the
    leading slash of an absolute directory is lost.  A single directory is
    returned as it was given. *)
Theorem computeLCA_rebuilds_paths (dirPaths : list string) :
  ((2 <= length dirPaths)%nat ->
   forall p, In p (computeLCA dirPaths) ->
     PathTrie.segmentsOf p <> []
     /\ p = Js.join "/" (PathTrie.segmentsOf p)
     /\ Js.startsWith p "/" = false)
  /\ (forall d, dirPaths = [d] -> computeLCA dirPaths = [d]).
Proof.
  split; [|intros d ->; reflexivity].
  intros Hlen p (q & -> & Hlca)%(computeLCA_spec dirPaths _ Hlen).
  destruct Hlca as (Hq & Hmarked & _).
  pose proof (marked_segments dirPaths q Hmarked) as Hsegs.
  rewrite (segmentsOf_join q Hsegs). split; [exact Hq|]. split; [reflexivity|].
  destruct q as [|k q]; [contradiction|].
  destruct (join_head k q) as (t & -> & _).
  apply Forall_cons in Hsegs as [Hk _]. unfold isSegment in Hk.
  apply andb_true_iff in Hk as [Hne Hfree].
  destruct k as [|a k]; [discriminate|]. cbn [slashFree] in Hfree.
  apply andb_true_iff in Hfree as [Ha _].
  unfold Js.startsWith. rewrite append_cons, prefix_cons.
  destruct (ascii_dec "/" a) as [<-|_]; [discriminate | reflexivity].
Qed.

Lemma computeLCA_rebuilds_witness :
  computeLCA ["/usr/lib"; "/usr/bin"] = ["usr"]
  /\ "usr" = Js.join "/" (PathTrie.segmentsOf "usr")
  /\ Js.startsWith "usr" "/" = false.
Proof.
  split; [reflexivity|].
  apply (proj1 (computeLCA_rebuilds_paths ["/usr/lib"; "/usr/bin"]) ltac:(cbn; lia) "usr").
  left. reflexivity.
Defined.

(** ** encoder/grounding.ts: when grounding returns *)

Lemma settles_dec (rpg : RepositoryPlanningGraph) (fuel : nat) :
  forall v, {settles rpg fuel v} + {~ settles rpg fuel v}.
Proof.
  induction fuel as [|fuel IH]; intros v; cbn [settles]; [right; tauto|].
  destruct (RPG.getNode rpg v) as [node|]; [|left; exact I].
  destruct (isLowLevelNode node); [left; left; reflexivity|].
  destruct (List.Forall_dec (settles rpg fuel) IH (childIds rpg v)) as [Hall|Hnot].
  - left. right. exact Hall.
  - right. intros [Hll|Hall]; [discriminate | contradiction].
Qed.

Section GroundingReturns.

Variable dirname : string -> string.
Variable rpg0 : RepositoryPlanningGraph.

Local Abbreviation groundingOf := (groundingOf dirname rpg0).
Local Abbreviation propagated := (propagated dirname rpg0).

Lemma collect_stuck
    (visit : RepositoryPlanningGraph -> string
             -> outcome (RepositoryPlanningGraph * list string)) (fuel : nat) :
  (forall rpg c rpg' S,
      groundingOf rpg -> visit rpg c = Done (rpg', S) -> propagated rpg c rpg' S) ->
  (forall rpg c, groundingOf rpg -> settles rpg0 fuel c ->
                 exists rpg' S, visit rpg c = Done (rpg', S)) ->
  (forall rpg c, groundingOf rpg -> ~ settles rpg0 fuel c -> visit rpg c = OutOfFuel) ->
  forall cs rpg acc,
    groundingOf rpg ->
    ~ Forall (settles rpg0 fuel) (map node_id cs) ->
    ArtifactGrounder.collect visit cs rpg acc = OutOfFuel.
Proof.
  intros Hsound Hdone Hstuck. induction cs as [|child cs IH]; intros rpg acc Hg Hnot;
    cbn [ArtifactGrounder.collect].
  - exfalso. apply Hnot. constructor.
  - destruct (settles_dec rpg0 fuel (node_id child)) as [Hs|Hs].
    + destruct (Hdone rpg (node_id child) Hg Hs) as (rpg' & S & Hrun). rewrite Hrun. cbn [bind].
      apply IH.
      * apply (after_grounding _ _ _ _ _ _ (Hsound _ _ _ _ Hg Hrun)).
      * intros Hall. apply Hnot. cbn [map]. constructor; assumption.
    + rewrite (Hstuck rpg (node_id child) Hg Hs). reflexivity.
Qed.

Lemma propagate_stuck (fuel : nat) :
  forall rpg v,
    groundingOf rpg -> ~ settles rpg0 fuel v ->
    ArtifactGrounder.propagate dirname fuel rpg v = OutOfFuel.
Proof.
  induction fuel as [|fuel IH]; intros rpg v Hg Hnot; [reflexivity|].
  cbn [ArtifactGrounder.propagate]. cbn [settles] in Hnot.
  pose proof (getNode_grounding dirname rpg0 rpg v Hg) as Hkind.
  destruct (RPG.getNode rpg v) as [node|] eqn:Hv.
  - destruct (RPG.getNode rpg0 v) as [node0|] eqn:H0; [|contradiction].
    rewrite (sameKind_low _ _ Hkind).
    destruct (isLowLevelNode node0); [exfalso; apply Hnot; left; reflexivity|].
    rewrite (collect_stuck (ArtifactGrounder.propagate dirname fuel) fuel
               (propagate_sound dirname rpg0 fuel)
               (fun rpg c Hg Hs => propagate_returns dirname rpg0 fuel rpg c Hg Hs)
               IH _ rpg [] Hg); [reflexivity|].
    fold (childIds rpg v). rewrite (childIds_grounding dirname rpg0 rpg v Hg).
    intros Hall. apply Hnot. right. exact Hall.
  - destruct (RPG.getNode rpg0 v); [contradiction|]. exfalso. apply Hnot. exact I.
Qed.

Lemma groundRoots_stuck (fuel : nat) (hs : list Node) :
  forall rpg,
    groundingOf rpg ->
    ~ Forall (fun h => RPG.getParent rpg0 (node_id h) = None -> settles rpg0 fuel (node_id h)) hs ->
    ArtifactGrounder.groundRoots dirname fuel hs rpg = OutOfFuel.
Proof.
  induction hs as [|h hs IH]; intros rpg Hg Hnot; cbn [ArtifactGrounder.groundRoots].
  - exfalso. apply Hnot. constructor.
  - pose proof (getParent_grounding dirname rpg0 rpg (node_id h) Hg) as Hparent.
    destruct (RPG.getParent rpg (node_id h)) as [parent|] eqn:Hp.
    + apply IH; [exact Hg|]. intros Hall. apply Hnot. constructor; [|exact Hall].
      intros Hroot. apply Hparent in Hroot. discriminate.
    + destruct (settles_dec rpg0 fuel (node_id h)) as [Hs|Hs].
      * destruct (propagate_returns dirname rpg0 fuel rpg (node_id h) Hg Hs)
          as (rpg' & S & Hrun).
        rewrite Hrun. cbn [bind]. apply IH.
        -- apply (after_grounding _ _ _ _ _ _ (propagate_sound dirname rpg0 _ _ _ _ _ Hg Hrun)).
        -- intros Hall. apply Hnot. constructor; [auto | exact Hall].
      * rewrite (propagate_stuck fuel rpg (node_id h) Hg Hs). reflexivity.
Qed.

Lemma groundRoots_done (fuel : nat) (hs : list Node) :
  forall rpg,
    groundingOf rpg ->
    Forall (fun h => RPG.getParent rpg0 (node_id h) = None -> settles rpg0 fuel (node_id h)) hs ->
    exists rpg', ArtifactGrounder.groundRoots dirname fuel hs rpg = Done rpg'.
Proof.
  induction hs as [|h hs IH]; intros rpg Hg Hall; cbn [ArtifactGrounder.groundRoots];
    [eauto|].
  apply Forall_cons in Hall as [Hh Hall].
  pose proof (getParent_grounding dirname rpg0 rpg (node_id h) Hg) as Hparent.
  destruct (RPG.getParent rpg (node_id h)) as [parent|] eqn:Hp; [apply IH; assumption|].
  destruct (propagate_returns dirname rpg0 fuel rpg (node_id h) Hg (Hh (proj1 Hparent eq_refl)))
    as (rpg' & S & Hrun).
  rewrite Hrun. cbn [bind]. apply IH; [|exact Hall].
  apply (after_grounding _ _ _ _ _ _ (propagate_sound dirname rpg0 _ _ _ _ _ Hg Hrun)).
Qed.

End GroundingReturns.

Lemma Forall_decide {A} (P : A -> Prop) (l : list A) :
  (forall x, {P x} + {~ P x}) -> Forall P l \/ ~ Forall P l.
Proof. intros Hdec. destruct (List.Forall_dec P Hdec l); auto. Qed.

(** X26: [ground()] never rejects, and it returns exactly when the descent
    from every high-level node without parent ends within the bound on
    nested calls; when one of these descents runs into a cycle of
    functional edges, the call does not return. *)
Theorem ground_returns_exactly_when_descents_end
    (dirname : string -> string) (fuel : nat) (rpg : RepositoryPlanningGraph) :
  (forall message, ArtifactGrounder.ground dirname fuel rpg <> Raised message)
  /\ ((exists rpg', ArtifactGrounder.ground dirname fuel rpg = Done rpg')
      <-> Forall (fun h => RPG.getParent rpg (node_id h) = None -> settles rpg fuel (node_id h))
                 (RPG.getHighLevelNodes rpg))
  /\ (ArtifactGrounder.ground dirname fuel rpg = OutOfFuel
      <-> ~ Forall (fun h => RPG.getParent rpg (node_id h) = None
                             -> settles rpg fuel (node_id h))
                   (RPG.getHighLevelNodes rpg)).
Proof.
  unfold ArtifactGrounder.ground.
  assert (Hdec : forall h, {RPG.getParent rpg (node_id h) = None -> settles rpg fuel (node_id h)}
                           + {~ (RPG.getParent rpg (node_id h) = None
                                 -> settles rpg fuel (node_id h))}).
  { intros h. destruct (RPG.getParent rpg (node_id h)) as [p|].
    - left. discriminate.
    - destruct (settles_dec rpg fuel (node_id h)) as [Hs|Hs]; [left; auto|].
      right. intros H. apply Hs. apply H. reflexivity. }
  destruct (Forall_decide _ (RPG.getHighLevelNodes rpg) Hdec) as [Hall|Hnot].
  - destruct (groundRoots_done dirname rpg fuel _ rpg (groundingOf_refl dirname rpg) Hall)
      as [rpg' Hrun].
    rewrite Hrun. split; [discriminate|]. split; [split; eauto|].
    split; [discriminate | contradiction].
  - rewrite (groundRoots_stuck dirname rpg fuel _ rpg (groundingOf_refl dirname rpg) Hnot).
    split; [discriminate|]. split; [|tauto].
    split; [intros [rpg' Hrun]; discriminate | contradiction].
Qed.

Lemma ground_returns_example :
  ArtifactGrounder.ground Path.dirname 50 Loop.cyclic = OutOfFuel
  /\ Sample.build Loop.cyclicWrites (RPG.create Sample.cfg) = Ok Loop.cyclic.
Proof.
  split; [|reflexivity].
  apply (ground_returns_exactly_when_descents_end Path.dirname 50 Loop.cyclic).
  intros Hall. apply Forall_cons in Hall as [Hroot _].
  specialize (Hroot eq_refl). revert Hroot. generalize 50%nat as fuel.
  assert (Hcycle : forall fuel, ~ settles Loop.cyclic fuel "a" /\ ~ settles Loop.cyclic fuel "b").
  { induction fuel as [|fuel [IHa IHb]]; [split; intros []|].
    split; intros [Hlow|Hall]; try discriminate;
      apply Forall_cons in Hall as [Hnext _]; contradiction. }
  intros [|fuel]; [intros []|].
  intros [Hlow|Hall]; [discriminate|].
  apply Forall_cons in Hall as [Ha _]. exact (proj1 (Hcycle fuel) Ha).
Defined.

(** ** encoder/grounding.ts: the assigned paths *)

(** X27: what [ground()] assigns.  [ground()] returns as soon as the
    descent from each high-level node listed at the start ends within the
    bound.  When it has returned, take any high-level node [v] that the
    propagation reaches: a high-level node without parent, or one met
    from such a node through nodes that are not low-level.  Let [S] be the directories of
    the low-level nodes with a path that are met first below [v] (a
    low-level node without a path contributes nothing) and [L] the LCA
    paths of [S].  Then [v] is what it was, with metadata assigned from [L]:
    with one LCA path, [entityType] is [module], [path] is that path and
    [extra] is as before; with several, [path] is the least of them in
    the order of [sort()], that of the code units, [extra.paths] is the
    sorted array of all of them and every other entry of [extra] is as
    before; with none, nothing changes, and there is an LCA path as soon
    as a directory of [S] has a segment. *)
Theorem ground_assigns_lca_paths
    (dirname : string -> string) (fuel : nat) (rpg : RepositoryPlanningGraph) :
  (Forall (fun h => settles rpg fuel (node_id h)) (RPG.getHighLevelNodes rpg) ->
   exists rpg', ArtifactGrounder.ground dirname fuel rpg = Done rpg')
  /\ forall rpg' root v node,
       ArtifactGrounder.ground dirname fuel rpg = Done rpg' ->
       In root (RPG.getHighLevelNodes rpg) ->
       RPG.getParent rpg (node_id root) = None ->
       reaches rpg (node_id root) v ->
       RPG.getNode rpg v = Some node -> isHighLevelNode node = true ->
       exists S,
         listing dirname rpg v S
         /\ RPG.getNode rpg' v
            = Some (setMetadata node (groundedMetadata (metadata node) (computeLCA S)))
         /\ ((exists d, In d S /\ PathTrie.segmentsOf d <> []) -> computeLCA S <> [])
         /\ (forall p, computeLCA S = [p] ->
               exists m, groundedMetadata (metadata node) (computeLCA S) = Some m
                         /\ entityType m = Emodule /\ path m = Some p
                         /\ extra m = extraOf (metadata node))
         /\ ((2 <= length (computeLCA S))%nat ->
               exists m first e,
                 groundedMetadata (metadata node) (computeLCA S) = Some m
                 /\ entityType m = Emodule /\ path m = Some first
                 /\ In first (computeLCA S)
                 /\ (forall q, In q (computeLCA S) -> strLe first q)
                 /\ extra m = Some e
                 /\ e !! "paths" = Some (JStrings (Js.sort (computeLCA S)))
                 /\ StronglySorted strLe (Js.sort (computeLCA S))
                 /\ Permutation (Js.sort (computeLCA S)) (computeLCA S)
                 /\ (forall k, k <> "paths" ->
                       e !! k = match extraOf (metadata node) with
                                | Some e0 => e0 !! k
                                | None => None
                                end)).
Proof.
  split.
  - intros Hsettles. unfold ArtifactGrounder.ground.
    apply (groundRoots_returns dirname rpg); [apply groundingOf_refl | exact Hsettles].
  - intros rpg' root v node Hground Hroot Hparent Hreach Hv Hhl.
    unfold ArtifactGrounder.ground in Hground.
    destruct (groundRoots_sound dirname rpg fuel _ _ _ (groundingOf_refl dirname rpg) Hground)
      as (_ & _ & Hall).
    destruct (Hall root v node Hroot Hparent Hreach Hv Hhl)
      as (node0 & S & H0 & _ & Hlist & Hafter).
    assert (node0 = node) as -> by congruence.
    exists S. split; [exact Hlist|]. split; [exact Hafter|].
    split; [apply computeLCA_nonempty|]. split.
    + intros p ->. apply groundedMetadata_single.
    + intros Hlen.
      destruct (groundedMetadata_several (metadata node) (computeLCA S) Hlen)
        as (m & first & e & Hm & Ht & Hp & Hin & Hleast & He & Hpaths & Hkeep).
      exists m, first, e. repeat (split; [assumption|]).
      split; [apply sort_sorted|]. split; [apply sort_perm | exact Hkeep].
Qed.

Lemma ground_assigns_witness :
  exists rpg' S,
    ArtifactGrounder.ground Path.dirname 2 Scenario.crossCutting = Done rpg'
    /\ listing Path.dirname Scenario.crossCutting "domain:CrossCutting" S
    /\ RPG.getNode rpg' "domain:CrossCutting"
       = Some (setMetadata (Sample.highLevel "domain:CrossCutting")
                 (groundedMetadata None (computeLCA S))).
Proof.
  destruct (ground_assigns_lca_paths Path.dirname 2 Scenario.crossCutting) as [Hret Hpost].
  destruct Hret as [rpg' Hground].
  { constructor; [|constructor]. cbn. right.
    constructor; [cbn; left; reflexivity|].
    constructor; [cbn; left; reflexivity | constructor]. }
  destruct (Hpost rpg' (Sample.highLevel "domain:CrossCutting") "domain:CrossCutting"
              (Sample.highLevel "domain:CrossCutting") Hground)
    as (S & Hlist & Hafter & _).
  - left. reflexivity.
  - reflexivity.
  - apply reaches_here.
  - reflexivity.
  - reflexivity.
  - exists rpg', S. auto.
Defined.
